(** * Soundarc: the segment timeline store, CSV export and segment normalization

    A shallow embedding of [src/App.tsx] (the React client and, after the
    separator, the Express API server), [src/services/geminiService.ts] and the
    type declarations of [types.ts] that follow it.

    - JavaScript numbers are IEEE 754 binary64 values: Rocq's primitive floats.
    - The client is modelled at the types [types.ts] declares: interfaces are
      records, string-literal unions are inductive types, optional properties
      are [option]s, and the descriptive metadata, which the code reads and
      writes through computed keys, is a finite map from strings to strings.
    - The server receives the model's output as [any]: it is modelled as a
      tree of JSON values.
    - React state is explicit: every handler is a function on [AppState.t],
      and the asynchronous [processBlob] is cut at its [await]s into one
      handler per resumption. *)

From Stdlib Require Import ZArith List String Ascii Bool Permutation Sorted Floats DecimalString.
From Stdlib Require DecimalNat DecimalFacts Finite.
From stdpp Require Import base option list strings gmap.
Import ListNotations.

#[local] Open Scope string_scope.
#[local] Set Warnings "-inexact-float,-register-all".

(** ** JavaScript primitives used by the sources *)

Module JS.

Definition number : Type := float.

Definition NaN : number := PrimFloat.nan.

(** [Array.prototype.sort(compareFn)].  ECMAScript fixes the result for a
    consistent comparator: the stable sorted rearrangement.  A comparator
    result that is NaN counts as +0, so an element moves behind another only
    when the comparator's value is positive.  The embedding is the stable
    insertion sort: elements are inserted from the right end, each in front
    of the first element it does not compare after.

    For a comparator that is not consistent (the difference of two keys one
    of which is NaN) ECMAScript leaves the order to the engine: the
    embedding then gives one rearrangement among those an engine may return,
    and only what holds of every rearrangement is proved of it.  Every
    property below that depends on the order is stated for keys that are
    numbers. *)
Section Sort.
Context {A : Type} (compareFn : A -> A -> number).

Definition comparesAfter (a b : A) : bool := (0 <? compareFn a b)%float.

Fixpoint sortInsert (x : A) (l : list A) : list A :=
  match l with
  | [] => [x]
  | y :: l' => if comparesAfter x y then y :: sortInsert x l' else x :: l
  end.

Definition sort (l : list A) : list A := fold_right sortInsert [] l.
End Sort.

(** One property of an object spread [{...base, ...over}]: the later
    object's value when it has the property. *)
Definition spread {A : Type} (base : A) (over : option A) : A :=
  match over with
  | Some v => v
  | None => base
  end.

(** Optional chaining [o?.p]: undefined when [o] is, else the property. *)
Definition chain {A B : Type} (o : option A) (p : A -> option B) : option B :=
  match o with
  | Some v => p v
  | None => None
  end.

(** [a || b] on strings: the empty string is the only falsy string. *)
Definition orString (a b : string) : string :=
  match a with
  | EmptyString => b
  | _ => a
  end.

Definition comma : ascii := ","%char.
Definition quote : ascii := "034"%char.
Definition newline : ascii := "010"%char.

(** [s.includes(c)] for a one-character needle.  Strings are byte strings
    here; the three characters the export looks for are ASCII, and an ASCII
    byte never occurs inside a longer UTF-8 sequence. *)
Fixpoint includes (c : ascii) (s : string) : bool :=
  match s with
  | EmptyString => false
  | String c' s' => if Ascii.eqb c' c then true else includes c s'
  end.

(** [s.replace(/c/g, by)]. *)
Fixpoint replaceAll (c : ascii) (by_ : string) (s : string) : string :=
  match s with
  | EmptyString => EmptyString
  | String c' s' =>
      if Ascii.eqb c' c then by_ ++ replaceAll c by_ s'
      else String c' (replaceAll c by_ s')
  end.

(** [arr.join(sep)] on an array of strings. *)
Definition join (sep : string) (l : list string) : string := String.concat sep l.

(** Template-literal rendering of an array index or a small count. *)
Definition natToString (n : nat) : string := NilZero.string_of_uint (Nat.to_uint n).

(** The integer a number denotes, when it denotes one. *)
Definition integerValue (x : number) : option Z :=
  match Prim2SF x with
  | S754_zero _ => Some 0%Z
  | S754_finite neg m e =>
      let z := if neg then Zneg m else Zpos m in
      if (0 <=? e)%Z then Some (z * 2 ^ e)%Z
      else if (Zpos m mod 2 ^ (- e) =? 0)%Z then Some (z / 2 ^ (- e))%Z
      else None
  | _ => None
  end.

Section NumberToString.
(** [Number::toString] prints NaN, the infinities and the integers up to
    2^53 as below; the shortest-round-trip digits of every other number
    are left to [digitsOf]. *)
Variable digitsOf : number -> string.

Definition NumberToString (x : number) : string :=
  if PrimFloat.is_nan x then "NaN"
  else if (x =? PrimFloat.infinity)%float then "Infinity"
  else if (x =? PrimFloat.neg_infinity)%float then "-Infinity"
  else match integerValue x with
       | Some z =>
           if (Z.abs z <=? 2 ^ 53)%Z then NilZero.string_of_int (Z.to_int z)
           else digitsOf x
       | None => digitsOf x
       end.
End NumberToString.

End JS.

(** ** The data model of [types.ts] *)

Inductive HumanReviewStatus := unreviewed | approved | edited.

Inductive SegmentType := Speech | Tune | Song | Silence | Other.

Definition SegmentType_toString (t : SegmentType) : string :=
  match t with
  | Speech => "Speech"
  | Tune => "Tune"
  | Song => "Song"
  | Silence => "Silence"
  | Other => "Other"
  end.

Module Provenance.
Record t := mk {
  generated_by : string;
  generated_at : string;
  generation_method : string;
  human_review_status : HumanReviewStatus;
  human_reviewer : option string
}.
End Provenance.

Module SegmentMetadata.
Record t := mk {
  tune_type : option string;
  meter : option string;
  tempo_bpm_range : option (list JS.number);
  instruments : option (list string);
  region : option string;
  performers : option (list string);
  evidence : option (list string);
  notes : option string
}.
End SegmentMetadata.

Module StructuralSegment.
Record t := mk {
  id : string;
  start_time : JS.number;
  end_time : JS.number;
  type : SegmentType;
  summary : string;
  confidence : JS.number;
  alternatives : option (list string);
  notes : option string;
  provenance : Provenance.t;
  segment_metadata : option SegmentMetadata.t
}.
End StructuralSegment.

(** [Partial<StructuralSegment>]: every property may be absent ([None]).  A
    property that is optional in [StructuralSegment] may also be present and
    hold [undefined] ([Some None]). *)
Module SegmentPatch.
Record t := mk {
  id : option string;
  start_time : option JS.number;
  end_time : option JS.number;
  type : option SegmentType;
  summary : option string;
  confidence : option JS.number;
  alternatives : option (option (list string));
  notes : option (option string);
  provenance : option Provenance.t;
  segment_metadata : option (option SegmentMetadata.t)
}.

(** The patch [{}]. *)
Definition empty : t := mk None None None None None None None None None None.
End SegmentPatch.

Inductive Category := music | speech | other.

Module AudioSegmentMetadata.
Record t := mk {
  description : string;
  performer : option string;
  tuneType : option string;
  meter : option string;
  tempo : option string;
  instruments : option (list string);
  region : option string;
  context : option string;
  evidence : option (list string);
  alternatives : option (list string)
}.
End AudioSegmentMetadata.

Module AudioSegment.
Record t := mk {
  id : string;
  startTime : JS.number;
  endTime : JS.number;
  label : string;
  category : Category;
  confidence : JS.number;
  metadata : AudioSegmentMetadata.t
}.
End AudioSegment.

(** [DescriptiveMetadata] declares some ninety string properties; the code
    seeds, reads and writes them through computed keys. *)
Abbreviation DescriptiveMetadata := (gmap string string).

Module TechnicalMetadata.
Record t := mk {
  container_format : string;
  codec : string;
  sample_rate_hz : JS.number;
  bit_depth : JS.number;
  channels : JS.number;
  duration_seconds : JS.number;
  file_size_bytes : JS.number;
  checksum : string;
  equipment : option string;
  software : option string;
  processing_notes : list string
}.
End TechnicalMetadata.

Inductive AccessLevel := access_public | access_research | access_staff.

Module AdministrativeMetadata.
Record t := mk {
  rights_holder : string;
  copyright_status : string;
  license : string;
  access_level : AccessLevel;
  restrictions : string;
  donor_agreement_ref : option string
}.
End AdministrativeMetadata.

Module Structural.
Record t := mk { segments : list StructuralSegment.t }.
End Structural.

Module ArchivalAudioItem.
Record t := mk {
  descriptive : DescriptiveMetadata;
  technical : TechnicalMetadata.t;
  administrative : AdministrativeMetadata.t;
  structural : Structural.t
}.
End ArchivalAudioItem.

Inductive AnalysisState :=
  IDLE | UPLOADING | COMPUTING_CHECKSUM | TRANSCRIBING | ANALYZING | COMPLETED | ERROR.

(** A JavaScript [Error] and the outcome of an awaited promise. *)
Record Error := mkError { message : string }.

Inductive Settled (A : Type) :=
| Fulfilled (value : A)
| Rejected (err : Error).
Arguments Fulfilled {A} value.
Arguments Rejected {A} err.

(** ** [src/services/geminiService.ts] *)

Module geminiService.

(** What [fetch] hands back, as the service reads it: the status flag, the
    body as text, and the body parsed as JSON at the type the caller
    declares. *)
Record Response (Body : Type) := mkResponse {
  ok : bool;
  text : string;
  json : Settled Body
}.
Arguments mkResponse {Body} ok text json.
Arguments ok {Body} r.
Arguments text {Body} r.
Arguments json {Body} r.

Record TranscribeData := mkTranscribeData {
  data_transcript : option string;
  data_text : option string
}.

Record AnalysisResult := mkAnalysisResult {
  segments : list StructuralSegment.t;
  temporal_index : string;
  description : string
}.

Definition transcribeAudio (fetched : Settled (Response TranscribeData)) : Settled string :=
  match fetched with
  | Rejected err => Rejected err
  | Fulfilled response =>
      if negb (ok response) then
        let message := text response in
        Rejected (mkError (JS.orString message "Transcription failed."))
      else
        match json response with
        | Rejected err => Rejected err
        | Fulfilled data =>
            Fulfilled
              (JS.orString (default EmptyString (data_transcript data))
                 (JS.orString (default EmptyString (data_text data)) EmptyString))
        end
  end.

Definition suggestArchivalSegments (fetched : Settled (Response AnalysisResult))
  : Settled AnalysisResult :=
  match fetched with
  | Rejected err => Rejected err
  | Fulfilled response =>
      if negb (ok response) then
        let message := text response in
        Rejected (mkError (JS.orString message "Analysis failed."))
      else json response
  end.

Record NarrateData := mkNarrateData {
  data_audio_base64 : option string
}.

Definition generateArchivalNarrative (fetched : Settled (Response NarrateData))
  : Settled string :=
  match fetched with
  | Rejected err => Rejected err
  | Fulfilled response =>
      if negb (ok response) then
        let message := text response in
        Rejected (mkError (JS.orString message "Narration failed."))
      else
        match json response with
        | Rejected err => Rejected err
        | Fulfilled data =>
            Fulfilled (JS.orString (default EmptyString (data_audio_base64 data)) EmptyString)
        end
  end.

End geminiService.

(** ** [src/App.tsx]: the client *)

Definition ARCHIVAL_CSV_HEADERS : list string :=
  ["descriptor"; "contributor"; "coverage"; "creator"; "date"; "IE_format";
   "description"; "identifier"; "language"; "publisher"; "relation"; "rights";
   "source"; "subject"; "title"; "type"; "FullFolderOrFilePath"; "isadg.identifier";
   "isadg.accessionNumber"; "isadg.title"; "isadg.levelOfDescription";
   "isadg.extentAndMedium"; "isadg.repository"; "isadg.archivalHistory";
   "isadg.acquisition"; "isadg.scopeAndContent"; "isadg.appraisal"; "isadg.accruals";
   "isadg.arrangement"; "isadg.accessConditions"; "isadg.reproductionConditions";
   "isadg.language"; "isadg.script"; "isadg.languageNote"; "isadg.findingAids";
   "isadg.locationOfOriginals"; "isadg.locationOfCopies";
   "isadg.relatedUnitsOfDescription"; "isadg.publicationNote";
   "isadg.digitalObjectURI"; "isadg.generalNote"; "subjectAccessPoints";
   "placeAccessPoints"; "nameAccessPoints"; "isadg.genreAccessPoints";
   "isadg.descriptionIdentifier"; "isadg.institutionIdentifier";
   "isadg.descriptionStatus"; "isadg.levelofDetail"; "isadg.revisionHistory";
   "isadg.languageOfDescription"; "isadg.scriptOfDescription"; "isadg.sources";
   "isadg.archivistNote"; "isadg.publicationStatus"; "isadg.physicalObjectName";
   "isadg.physicalObjectLocation"; "isadg.physicalObjectType";
   "isadg.alternativeIdentifier"; "isadg.alternativeIdentifierLabels"; "eventDates";
   "eventTypes"; "eventStartDates"; "eventEndDates"; "isadg.eventActors";
   "isadg.eventActorHistories"; "isadg.culture"; "atom.legacyId"; "atom.parentId";
   "atom.qubitParentSlug"; "repository"; "dc.coverage"; "dc.language"; "dc.subject";
   "dcterms.isPartOf"; "dc.rights"; "dc.format"; "dc.contributor"; "dc.description";
   "dc.creator"; "dc.publisher"; "dc.title"; "dc.type"; "dc.identifier"; "dc.date";
   "parts"; "md5Checksum"; "technicalNotes"; "Notes"; "isadg.physicalCharacteristics";
   "isadg.rules"; "isadg.alternativeTitle"].

Inductive Tab := desc | tech | admin | struct.

Module AppState.
Record t := mk {
  state : AnalysisState;
  item : option ArchivalAudioItem.t;
  error : option string;
  audioUrl : option string;
  currentTime : JS.number;
  isPlaying : bool;
  selectedSegmentId : option string;
  activeTab : Tab;
  editingSegmentId : option string;
  isNarrating : bool
}.
End AppState.

(** The [useState] setters the handlers below call. *)
Definition setState (v : AnalysisState) (app : AppState.t) : AppState.t :=
  let '(AppState.mk _ it err url ct pl sel tab ed nar) := app in
  AppState.mk v it err url ct pl sel tab ed nar.

(** [setItem] with an updater function; [setItem(v)] is [setItem (fun _ => v)]. *)
Definition setItem (updater : option ArchivalAudioItem.t -> option ArchivalAudioItem.t)
  (app : AppState.t) : AppState.t :=
  let '(AppState.mk st it err url ct pl sel tab ed nar) := app in
  AppState.mk st (updater it) err url ct pl sel tab ed nar.

Definition setError (v : option string) (app : AppState.t) : AppState.t :=
  let '(AppState.mk st it _ url ct pl sel tab ed nar) := app in
  AppState.mk st it v url ct pl sel tab ed nar.

Definition setAudioUrl (v : option string) (app : AppState.t) : AppState.t :=
  let '(AppState.mk st it err _ ct pl sel tab ed nar) := app in
  AppState.mk st it err v ct pl sel tab ed nar.

Definition setCurrentTime (v : JS.number) (app : AppState.t) : AppState.t :=
  let '(AppState.mk st it err url _ pl sel tab ed nar) := app in
  AppState.mk st it err url v pl sel tab ed nar.

Definition setIsPlaying (v : bool) (app : AppState.t) : AppState.t :=
  let '(AppState.mk st it err url ct _ sel tab ed nar) := app in
  AppState.mk st it err url ct v sel tab ed nar.

Definition setSelectedSegmentId (v : option string) (app : AppState.t) : AppState.t :=
  let '(AppState.mk st it err url ct pl _ tab ed nar) := app in
  AppState.mk st it err url ct pl v tab ed nar.

Definition setEditingSegmentId (v : option string) (app : AppState.t) : AppState.t :=
  let '(AppState.mk st it err url ct pl sel tab _ nar) := app in
  AppState.mk st it err url ct pl sel tab v nar.

Definition setActiveTab (v : Tab) (app : AppState.t) : AppState.t :=
  let '(AppState.mk st it err url ct pl sel _ ed nar) := app in
  AppState.mk st it err url ct pl sel v ed nar.

(** The statements of a handler, run in source order. *)
Definition statements (body : list (AppState.t -> AppState.t)) (app : AppState.t)
  : AppState.t :=
  fold_left (fun acc statement => statement acc) body app.

(** The component's state on mount. *)
Definition initialApp : AppState.t :=
  AppState.mk IDLE None None None 0%float false None desc None false.

Definition resetApp : AppState.t -> AppState.t :=
  statements
    [ setState IDLE;
      setItem (fun _ => None);
      setError None;
      setAudioUrl None;
      setCurrentTime 0%float;
      setIsPlaying false;
      setSelectedSegmentId None;
      setEditingSegmentId None;
      setActiveTab desc ].

(** [fileName.split('.')[0]]: the text in front of the first dot. *)
Fixpoint splitDotFirst (fileName : string) : string :=
  match fileName with
  | EmptyString => EmptyString
  | String c rest => if Ascii.eqb c "."%char then EmptyString else String c (splitDotFirst rest)
  end.

(** Assignments [obj[k] = v], or the properties of an object literal that
    follow a spread, applied from left to right. *)
Definition assign (props : list (string * string)) (obj : DescriptiveMetadata)
  : DescriptiveMetadata :=
  fold_left (fun acc kv => <[kv.1 := kv.2]> acc) props obj.

Definition initialDescriptive : DescriptiveMetadata :=
  assign (map (fun h => (h, EmptyString)) ARCHIVAL_CSV_HEADERS) ∅.

(** The record [processBlob] builds once the checksum and the duration are
    known.  [identifier] (made from the year and a random number) and
    [container_format] (the upper-cased file extension, or WAV) are computed
    by the caller. *)
Definition initialItem (identifier fileName container_format : string)
  (duration size : JS.number) (checksum : string) : ArchivalAudioItem.t :=
  {| ArchivalAudioItem.descriptive :=
       assign
         [ ("identifier", identifier);
           ("title", JS.orString (splitDotFirst fileName) "Archival Record");
           ("description", "Awaiting semantic abstract...");
           ("temporal_index", EmptyString);
           ("transcript", EmptyString);
           ("isadg.levelOfDescription", "Item");
           ("isadg.repository", "Irish Traditional Music Archive");
           ("isadg.language", "en");
           ("rights", "In copyright");
           ("dc.rights", "In copyright") ]
         initialDescriptive;
     ArchivalAudioItem.technical :=
       {| TechnicalMetadata.container_format := container_format;
          TechnicalMetadata.codec := "PCM";
          TechnicalMetadata.sample_rate_hz := 48000%float;
          TechnicalMetadata.bit_depth := 24%float;
          TechnicalMetadata.channels := 2%float;
          TechnicalMetadata.duration_seconds := duration;
          TechnicalMetadata.file_size_bytes := size;
          TechnicalMetadata.checksum := checksum;
          TechnicalMetadata.equipment := None;
          TechnicalMetadata.software := None;
          TechnicalMetadata.processing_notes := [] |};
     ArchivalAudioItem.administrative :=
       {| AdministrativeMetadata.rights_holder := "Preservation Institution";
          AdministrativeMetadata.copyright_status := "Under Copyright";
          AdministrativeMetadata.license := "Internal Review";
          AdministrativeMetadata.access_level := access_staff;
          AdministrativeMetadata.restrictions := EmptyString;
          AdministrativeMetadata.donor_agreement_ref := None |};
     ArchivalAudioItem.structural := {| Structural.segments := [] |} |}.

(** [{...prev, descriptive: d}] and [{...prev, structural: {segments}}]. *)
Definition withDescriptive (d : DescriptiveMetadata) (prev : ArchivalAudioItem.t)
  : ArchivalAudioItem.t :=
  {| ArchivalAudioItem.descriptive := d;
     ArchivalAudioItem.technical := ArchivalAudioItem.technical prev;
     ArchivalAudioItem.administrative := ArchivalAudioItem.administrative prev;
     ArchivalAudioItem.structural := ArchivalAudioItem.structural prev |}.

Definition withSegments (segs : list StructuralSegment.t) (prev : ArchivalAudioItem.t)
  : ArchivalAudioItem.t :=
  {| ArchivalAudioItem.descriptive := ArchivalAudioItem.descriptive prev;
     ArchivalAudioItem.technical := ArchivalAudioItem.technical prev;
     ArchivalAudioItem.administrative := ArchivalAudioItem.administrative prev;
     ArchivalAudioItem.structural := {| Structural.segments := segs |} |}.

(** *** [processBlob], one handler per resumption *)

(** The [catch] of the outer [try]: it does not look at what was thrown. *)
Definition processBlob_catch : AppState.t -> AppState.t :=
  statements [ setError (Some "Critical ingest error."); setState ERROR ].

(** Entry, up to [await computeSHA256(file)]. *)
Definition processBlob_start : AppState.t -> AppState.t :=
  statements [ setState COMPUTING_CHECKSUM; setError None ].

(** After the checksum, up to the wait for [onloadedmetadata]. *)
Definition processBlob_checksum (checksum : Settled string) (url : string)
  : AppState.t -> AppState.t :=
  match checksum with
  | Rejected _ => processBlob_catch
  | Fulfilled _ => setAudioUrl (Some url)
  end.

(** After the audio metadata has loaded, up to [await transcribeAudio(blob)]. *)
Definition processBlob_loadedmetadata (item0 : ArchivalAudioItem.t)
  : AppState.t -> AppState.t :=
  statements [ setItem (fun _ => Some item0); setState TRANSCRIBING ].

(** After [transcribeAudio] has settled, up to [reader.readAsDataURL(blob)]. *)
Definition processBlob_transcribed (transcribed : Settled string)
  : AppState.t -> AppState.t :=
  match transcribed with
  | Rejected _ => processBlob_catch
  | Fulfilled transcript =>
      statements
        [ setItem (fun prev =>
            match prev with
            | Some prev =>
                Some (withDescriptive
                        (assign [ ("transcript", transcript);
                                  ("description", "Phasing semantic audit...") ]
                           (ArchivalAudioItem.descriptive prev))
                        prev)
            | None => None
            end);
          setState ANALYZING ]
  end.

(** [reader.onload], after [suggestArchivalSegments] has settled.  Its
    [setItem] is the store's [replaceAll]. *)
Definition replaceAll (result : geminiService.AnalysisResult)
  (prev : option ArchivalAudioItem.t) : option ArchivalAudioItem.t :=
  match prev with
  | None => None
  | Some prev =>
      Some (withSegments (geminiService.segments result)
              (withDescriptive
                 (assign [ ("temporal_index", geminiService.temporal_index result);
                           ("description", geminiService.description result);
                           ("isadg.scopeAndContent", geminiService.temporal_index result);
                           ("isadg.findingAids", geminiService.temporal_index result) ]
                    (ArchivalAudioItem.descriptive prev))
                 prev))
  end.

Definition reader_onload (analysed : Settled geminiService.AnalysisResult)
  : AppState.t -> AppState.t :=
  match analysed with
  | Fulfilled result => statements [ setItem (replaceAll result); setState COMPLETED ]
  | Rejected err =>
      statements [ setError (Some ("Segmentation failed: " ++ message err)); setState ERROR ]
  end.

(** *** [exportCSV] *)

Definition csvValue (metadata : DescriptiveMetadata) (h : string) : string :=
  let val := JS.orString (default EmptyString (metadata !! h)) EmptyString in
  if JS.includes JS.comma val || JS.includes JS.quote val || JS.includes JS.newline val
  then String JS.quote
         (JS.replaceAll JS.quote (String JS.quote (String JS.quote EmptyString)) val
          ++ String JS.quote EmptyString)
  else val.

Definition csvHeader : string := JS.join "," ARCHIVAL_CSV_HEADERS.

Definition csvRow (metadata : DescriptiveMetadata) : string :=
  JS.join "," (map (csvValue metadata) ARCHIVAL_CSV_HEADERS).

(** The file the browser is told to download. *)
Record Download := mkDownload { content : string; download : string }.

Definition exportCSV (item : option ArchivalAudioItem.t) : option Download :=
  match item with
  | None => None
  | Some item =>
      let metadata := ArchivalAudioItem.descriptive item in
      let csvContent := csvHeader ++ String JS.newline EmptyString ++ csvRow metadata in
      Some {| content := csvContent;
              download := "METADATA_" ++ default "undefined" (metadata !! "identifier")
                          ++ ".csv" |}
  end.

(** *** [updateSegment] *)

(** [{...s, ...updates}]. *)
Definition spreadSegment (s : StructuralSegment.t) (updates : SegmentPatch.t)
  : StructuralSegment.t :=
  {| StructuralSegment.id := JS.spread (StructuralSegment.id s) (SegmentPatch.id updates);
     StructuralSegment.start_time :=
       JS.spread (StructuralSegment.start_time s) (SegmentPatch.start_time updates);
     StructuralSegment.end_time :=
       JS.spread (StructuralSegment.end_time s) (SegmentPatch.end_time updates);
     StructuralSegment.type := JS.spread (StructuralSegment.type s) (SegmentPatch.type updates);
     StructuralSegment.summary :=
       JS.spread (StructuralSegment.summary s) (SegmentPatch.summary updates);
     StructuralSegment.confidence :=
       JS.spread (StructuralSegment.confidence s) (SegmentPatch.confidence updates);
     StructuralSegment.alternatives :=
       JS.spread (StructuralSegment.alternatives s) (SegmentPatch.alternatives updates);
     StructuralSegment.notes := JS.spread (StructuralSegment.notes s) (SegmentPatch.notes updates);
     StructuralSegment.provenance :=
       JS.spread (StructuralSegment.provenance s) (SegmentPatch.provenance updates);
     StructuralSegment.segment_metadata :=
       JS.spread (StructuralSegment.segment_metadata s)
         (SegmentPatch.segment_metadata updates) |}.

(** [{...s.provenance, human_review_status: 'edited'}]. *)
Definition markEdited (p : Provenance.t) : Provenance.t :=
  {| Provenance.generated_by := Provenance.generated_by p;
     Provenance.generated_at := Provenance.generated_at p;
     Provenance.generation_method := Provenance.generation_method p;
     Provenance.human_review_status := edited;
     Provenance.human_reviewer := Provenance.human_reviewer p |}.

(** [{...s, ...updates, provenance: {...s.provenance, human_review_status:
    'edited'}}]: the last property wins over a provenance in [updates]. *)
Definition patched (s : StructuralSegment.t) (updates : SegmentPatch.t)
  : StructuralSegment.t :=
  let merged := spreadSegment s updates in
  {| StructuralSegment.id := StructuralSegment.id merged;
     StructuralSegment.start_time := StructuralSegment.start_time merged;
     StructuralSegment.end_time := StructuralSegment.end_time merged;
     StructuralSegment.type := StructuralSegment.type merged;
     StructuralSegment.summary := StructuralSegment.summary merged;
     StructuralSegment.confidence := StructuralSegment.confidence merged;
     StructuralSegment.alternatives := StructuralSegment.alternatives merged;
     StructuralSegment.notes := StructuralSegment.notes merged;
     StructuralSegment.provenance := markEdited (StructuralSegment.provenance s);
     StructuralSegment.segment_metadata := StructuralSegment.segment_metadata merged |}.

(** The comparator [(a, b) => a.start_time - b.start_time]. *)
Definition byStartTime (a b : StructuralSegment.t) : JS.number :=
  (StructuralSegment.start_time a - StructuralSegment.start_time b)%float.

(** The callback of [segments.map] in [updateSegment]. *)
Definition updateOne (segId : string) (updates : SegmentPatch.t) (s : StructuralSegment.t)
  : StructuralSegment.t :=
  if String.eqb (StructuralSegment.id s) segId then patched s updates else s.

Definition updateSegments (segId : string) (updates : SegmentPatch.t)
  (segs : list StructuralSegment.t) : list StructuralSegment.t :=
  JS.sort byStartTime (map (updateOne segId updates) segs).

Definition updateSegment (segId : string) (updates : SegmentPatch.t)
  : AppState.t -> AppState.t :=
  setItem (fun prev =>
    match prev with
    | None => None
    | Some prev =>
        Some (withSegments
                (updateSegments segId updates
                   (Structural.segments (ArchivalAudioItem.structural prev)))
                prev)
    end).

Definition updateDesc (key val : string) (app : AppState.t) : AppState.t :=
  match AppState.item app with
  | None => app
  | Some item =>
      setItem (fun _ =>
        Some (withDescriptive (<[key := val]> (ArchivalAudioItem.descriptive item)) item))
        app
  end.

(** *** [processBlob] from entry to its last completion *)

(** One run of [processBlob] in which every awaited step settles and the
    file reader loads, with nothing else in between: the outcome of each
    awaited step decides which handlers run.  [item0] is the record built
    once the checksum and the duration are known. *)
Definition processBlob (checksum : Settled string) (url : string)
  (item0 : ArchivalAudioItem.t) (transcribed : Settled string)
  (analysed : Settled geminiService.AnalysisResult) : AppState.t -> AppState.t :=
  match checksum with
  | Rejected _ => statements [ processBlob_start; processBlob_checksum checksum url ]
  | Fulfilled _ =>
      match transcribed with
      | Rejected _ =>
          statements
            [ processBlob_start;
              processBlob_checksum checksum url;
              processBlob_loadedmetadata item0;
              processBlob_transcribed transcribed ]
      | Fulfilled _ =>
          statements
            [ processBlob_start;
              processBlob_checksum checksum url;
              processBlob_loadedmetadata item0;
              processBlob_transcribed transcribed;
              reader_onload analysed ]
      end
  end.

(** *** [playNarrative] *)

Definition setIsNarrating (v : bool) (app : AppState.t) : AppState.t :=
  let '(AppState.mk st it err url ct pl sel tab ed _) := app in
  AppState.mk st it err url ct pl sel tab ed v.

(** [item?.descriptive.description]. *)
Definition descriptionOf (app : AppState.t) : option string :=
  JS.chain (AppState.item app) (fun item => ArchivalAudioItem.descriptive item !! "description").

(** Entry, up to [await generateArchivalNarrative(...)]: the state, and the
    text sent for narration when the guard lets the call through. *)
Definition playNarrative_start (app : AppState.t) : AppState.t * option string :=
  match JS.orString (default EmptyString (descriptionOf app)) EmptyString with
  | EmptyString => (app, None)
  | String c rest =>
      if AppState.isNarrating app then (app, None)
      else (setIsNarrating true app, Some (String c rest))
  end.

(** After the narration request has settled.  [played] says whether the
    decoding and the start of the playback went through without throwing. *)
Definition playNarrative_narrated (narrated : Settled string) (played : bool)
  : AppState.t -> AppState.t :=
  match narrated with
  | Rejected _ => setIsNarrating false
  | Fulfilled _ => if played then (fun app => app) else setIsNarrating false
  end.

(** [source.onended]. *)
Definition source_onended : AppState.t -> AppState.t := setIsNarrating false.

(** *** The display projection (the [segments] memo) *)

Section Projection.
(** The digits [Number::toString] prints for a number that is not an integer
    up to 2^53 (see [JS.NumberToString]). *)
Variable digitsOf : JS.number -> string.

(** The template literal with [tempo_bpm_range[0]] in it; an index past the
    end of an array reads [undefined]. *)
Definition tempoText (range : list JS.number) : string :=
  match head range with
  | Some low => JS.NumberToString digitsOf low
  | None => "undefined"
  end ++ " BPM".

Definition categoryOf (type : SegmentType) : Category :=
  match type with
  | Tune | Song => music
  | Speech => speech
  | _ => other
  end.

(** The callback of [segments.map] in the memo.  An array is truthy even
    when it is empty, so a present [tempo_bpm_range] always takes the first
    branch of the conditional. *)
Definition displaySegment (s : StructuralSegment.t) : AudioSegment.t :=
  let segment_metadata := StructuralSegment.segment_metadata s in
  {| AudioSegment.id := StructuralSegment.id s;
     AudioSegment.startTime := StructuralSegment.start_time s;
     AudioSegment.endTime := StructuralSegment.end_time s;
     AudioSegment.label := SegmentType_toString (StructuralSegment.type s);
     AudioSegment.category := categoryOf (StructuralSegment.type s);
     AudioSegment.confidence := StructuralSegment.confidence s;
     AudioSegment.metadata :=
       {| AudioSegmentMetadata.description := StructuralSegment.summary s;
          AudioSegmentMetadata.performer :=
            JS.chain (JS.chain segment_metadata SegmentMetadata.performers) head;
          AudioSegmentMetadata.tuneType := JS.chain segment_metadata SegmentMetadata.tune_type;
          AudioSegmentMetadata.meter := JS.chain segment_metadata SegmentMetadata.meter;
          AudioSegmentMetadata.tempo :=
            match JS.chain segment_metadata SegmentMetadata.tempo_bpm_range with
            | Some range => Some (tempoText range)
            | None => None
            end;
          AudioSegmentMetadata.instruments :=
            JS.chain segment_metadata SegmentMetadata.instruments;
          AudioSegmentMetadata.region := JS.chain segment_metadata SegmentMetadata.region;
          AudioSegmentMetadata.context := JS.chain segment_metadata SegmentMetadata.notes;
          AudioSegmentMetadata.evidence := JS.chain segment_metadata SegmentMetadata.evidence;
          AudioSegmentMetadata.alternatives := StructuralSegment.alternatives s |} |}.

(** [item?.structural.segments.map(...) || []]. *)
Definition segments (item : option ArchivalAudioItem.t) : list AudioSegment.t :=
  match item with
  | Some item =>
      map displaySegment (Structural.segments (ArchivalAudioItem.structural item))
  | None => []
  end.

(** [segments.find(s => s.id === selectedSegmentId) || null]. *)
Definition selectedSegment (app : AppState.t) : option AudioSegment.t :=
  match AppState.selectedSegmentId app with
  | Some selected =>
      find (fun s => String.eqb (AudioSegment.id s) selected) (segments (AppState.item app))
  | None => None
  end.

End Projection.

(** ** [src/App.tsx], second part: the API server *)

Module Server.

(** A value of type [any]: what [JSON.parse] builds, and [undefined]. *)
Inductive any :=
| undefined
| null
| boolean (b : bool)
| num (n : JS.number)
| str (s : string)
| array (items : list any)
| object (props : list (string * any)).

Fixpoint lookupProp (key : string) (props : list (string * any)) : any :=
  match props with
  | [] => undefined
  | (k, v) :: rest => if String.eqb k key then v else lookupProp key rest
  end.

(** [Object.hasOwn(obj, key)]. *)
Definition hasOwn (key : string) (props : list (string * any)) : bool :=
  existsb (fun kv => String.eqb (fst kv) key) props.

(** [v.key] for the property names the handler reads, none of which a
    prototype defines: a TypeError ([None]) on [undefined] and [null], the own
    property of an object, [undefined] on every other value. *)
Definition get (v : any) (key : string) : option any :=
  match v with
  | undefined | null => None
  | object props => Some (lookupProp key props)
  | _ => Some undefined
  end.

Definition truthy (v : any) : bool :=
  match v with
  | undefined | null => false
  | boolean b => b
  | num n => negb ((n =? 0)%float || PrimFloat.is_nan n)
  | str s => negb (String.eqb s EmptyString)
  | array _ | object _ => true
  end.

(** [a || b] and [a ?? b]. *)
Definition or_ (a b : any) : any := if truthy a then a else b.

Definition nullish (a b : any) : any :=
  match a with
  | undefined | null => b
  | _ => a
  end.

(** The text [rawText.match(/\{[\s\S]*\}/)] finds: from the first opening
    brace to the last closing brace behind it. *)
Fixpoint throughLast (c : ascii) (s : string) : option string :=
  match s with
  | EmptyString => None
  | String ch rest =>
      match throughLast c rest with
      | Some r => Some (String ch r)
      | None => if Ascii.eqb ch c then Some (String ch EmptyString) else None
      end
  end.

Fixpoint fromFirst (c : ascii) (s : string) : option string :=
  match s with
  | EmptyString => None
  | String ch rest => if Ascii.eqb ch c then Some s else fromFirst c rest
  end.

Definition matchBraces (rawText : string) : option string :=
  match fromFirst "{"%char rawText with
  | Some tail => throughLast "}"%char tail
  | None => None
  end.

(** The normalized segment the handler builds.  Properties copied from the
    model's output keep whatever value it gave them. *)
Module Normalized.
Record t := mk {
  id : any;
  start_time : JS.number;
  end_time : JS.number;
  type : any;
  summary : any;
  confidence : JS.number;
  alternatives : any;
  notes : any;
  segment_metadata : any;
  provenance : Provenance.t
}.
End Normalized.

Record AnalyzePayload := mkPayload {
  description : any;
  temporal_index : any;
  segments : list Normalized.t
}.

(** The results of a row of conversions, unless one of them throws. *)
Fixpoint collect {A : Type} (results : list (option A)) : option (list A) :=
  match results with
  | [] => Some []
  | None :: _ => None
  | Some x :: rest =>
      match collect rest with
      | Some xs => Some (x :: xs)
      | None => None
      end
  end.

Inductive HttpResponse :=
| send (status : nat) (text : string)
| json (payload : AnalyzePayload).

Section Handler.
(** Library functions the handler calls and this development does not
    define: the numeric value of a string, the digits of a number beyond the
    integers (see [JS.NumberToString]), [toFixed(2)] and [JSON.parse] ([None]
    when it throws). *)
Variable StringToNumber : string -> JS.number.
Variable digitsOf : JS.number -> string.
Variable toFixed2 : JS.number -> string.
Variable JSON_parse : string -> option any.

(** [String(v)], as a template literal and [Array.prototype.join] apply it;
    [None] is the TypeError of an object that cannot be converted to a
    primitive value.  What [JSON.parse] builds holds no function: an own
    property [toString] hides [Object.prototype.toString] behind a value that
    cannot be called, and [valueOf], own or inherited, gives no primitive
    value either.  An array has no own [toString], and its conversion joins
    the conversions of its elements. *)
Fixpoint ToString (v : any) : option string :=
  match v with
  | undefined => Some "undefined"
  | null => Some "null"
  | boolean true => Some "true"
  | boolean false => Some "false"
  | num n => Some (JS.NumberToString digitsOf n)
  | str s => Some s
  | array items =>
      option_map (JS.join ",")
        (collect (map (fun e => match e with
                                | undefined | null => Some EmptyString
                                | _ => ToString e
                                end) items))
  | object props => if hasOwn "toString" props then None else Some "[object Object]"
  end.

(** [Number(v)]; [None] when the conversion of an object or an array to a
    primitive value throws. *)
Definition ToNumber (v : any) : option JS.number :=
  match v with
  | undefined => Some JS.NaN
  | null => Some 0%float
  | boolean true => Some 1%float
  | boolean false => Some 0%float
  | num n => Some n
  | str s => Some (StringToNumber s)
  | array _ | object _ => option_map StringToNumber (ToString v)
  end.

(** [None] when no braces are found or [JSON.parse] throws. *)
Definition toJson (rawText : string) : option any :=
  match matchBraces rawText with
  | None => None
  | Some matched => JSON_parse matched
  end.

(** [None] when the template literal throws on a summary. *)
Definition buildTemporalIndex (segs : list Normalized.t) : option string :=
  option_map (JS.join (String JS.newline EmptyString))
    (collect
       (map (fun segment =>
               option_map
                 (fun summary =>
                    toFixed2 (Normalized.start_time segment) ++ "-"
                    ++ toFixed2 (Normalized.end_time segment) ++ ": " ++ summary)
                 (ToString (Normalized.summary segment))) segs)).

(** The callback of [segments.map]; [None] is the TypeError of reading a
    property of [null], or of a [Number(...)] that throws. *)
Definition normalizeSegment (now : string) (segment : any) (index : nat)
  : option Normalized.t :=
  match segment with
  | undefined | null => None
  | _ =>
      let prop key := default undefined (get segment key) in
      match ToNumber (nullish (prop "start_time") (num 0%float)),
            ToNumber (nullish (prop "end_time") (num 0%float)),
            ToNumber (nullish (prop "confidence") (num 0.6%float)) with
      | Some start_time, Some end_time, Some confidence =>
          Some
            {| Normalized.id := or_ (prop "id") (str ("seg_" ++ JS.natToString (index + 1)));
               Normalized.start_time := start_time;
               Normalized.end_time := end_time;
               Normalized.type := or_ (prop "type") (str "Speech");
               Normalized.summary := or_ (prop "summary") (str "Segment summary unavailable.");
               Normalized.confidence := confidence;
               Normalized.alternatives := or_ (prop "alternatives") undefined;
               Normalized.notes := or_ (prop "notes") undefined;
               Normalized.segment_metadata := or_ (prop "segment_metadata") (object []);
               Normalized.provenance :=
                 {| Provenance.generated_by := "gemini-2.5-flash";
                    Provenance.generated_at := now;
                    Provenance.generation_method := "segment_analysis";
                    Provenance.human_review_status := unreviewed;
                    Provenance.human_reviewer := None |} |}
      | _, _, _ => None
      end
  end.

(** [segments.map(callback)] from position [index] on; a throwing callback
    ends the map. *)
Fixpoint normalizeFrom (now : string) (index : nat) (segs : list any)
  : option (list Normalized.t) :=
  match segs with
  | [] => Some []
  | segment :: rest =>
      match normalizeSegment now segment index with
      | None => None
      | Some n =>
          match normalizeFrom now (S index) rest with
          | None => None
          | Some ns => Some (n :: ns)
          end
      end
  end.

(** The [try] block of the handler from [toJson(rawText)] on; [None] when
    something in it throws. *)
Definition analyzeParsed (now : string) (parsed : any) : option AnalyzePayload :=
  match get parsed "segments" with
  | None => None
  | Some parsedSegments =>
      let segs := match parsedSegments with
                  | array items => items
                  | _ => []
                  end in
      match normalizeFrom now 0 segs with
      | None => None
      | Some normalized =>
          let given := default undefined (get parsed "temporal_index") in
          let built :=
            if truthy given then Some given
            else match normalized with
                 | [] => Some (str EmptyString)
                 | _ => option_map str (buildTemporalIndex normalized)
                 end in
          match built with
          | None => None
          | Some temporalIndex =>
              Some {| description :=
                        or_ (default undefined (get parsed "description"))
                          (str "Semantic overview unavailable.");
                      temporal_index := temporalIndex;
                      segments := normalized |}
          end
      end
  end.

(** [app.post('/api/analyze', ...)].  [aiConfigured] says whether the API
    key was set; [transcript] is [req.body.transcript]; [generated] is the
    settled [generateContent] call with its [response.text]. *)
Definition analyze (aiConfigured : bool) (transcript : option string)
  (generated : Settled (option string)) (now : string) : HttpResponse :=
  if negb aiConfigured then send 500 "Missing GEMINI_API_KEY on server."
  else
    match transcript with
    | None | Some EmptyString => send 400 "Transcript required."
    | Some _ =>
        match generated with
        | Rejected _ => send 500 "Gemini analysis error."
        | Fulfilled text =>
            let rawText := JS.orString (default EmptyString text) EmptyString in
            match toJson rawText with
            | None => send 500 "Gemini analysis error."
            | Some parsed =>
                match analyzeParsed now parsed with
                | None => send 500 "Gemini analysis error."
                | Some payload => json payload
                end
            end
        end
    end.

End Handler.

(** *** The transcription and narration endpoints *)

(** What a handler sends: [res.status(status).send(text)], or
    [res.json(body)]. *)
Inductive Reply (Body : Type) :=
| replyText (status : nat) (text : string)
| replyJson (body : Body).
Arguments replyText {Body} status text.
Arguments replyJson {Body} body.

(** [response.ok] of a fetched response. *)
Definition statusOk (status : nat) : bool := Nat.leb 200 status && Nat.leb status 299.

(** The provider's response as a handler reads it: the status, the body
    read as text, and the body read as the handler goes on to read it (as JSON
    at the type the handler assumes, or as bytes).  Either read can fail. *)
Record Upstream (Body : Type) := mkUpstream {
  status : nat;
  text : Settled string;
  body : Settled Body
}.
Arguments mkUpstream {Body} status text body.
Arguments status {Body} u.
Arguments text {Body} u.
Arguments body {Body} u.

(** An environment variable, or a string of the request, is falsy when it is
    missing or empty. *)
Definition present (v : option string) : bool :=
  match v with
  | None | Some EmptyString => false
  | Some _ => true
  end.

Record TranscribeReply := mkTranscribeReply { transcript : string }.

(** [app.post('/api/transcribe', ...)].  [fileProvided] is [req.file]. *)
Definition transcribe (elevenLabsApiKey : option string) (fileProvided : bool)
  (fetched : Settled (Upstream geminiService.TranscribeData)) : Reply TranscribeReply :=
  if negb (present elevenLabsApiKey) then
    replyText 500 "Missing ELEVENLABS_API_KEY on server."
  else if negb fileProvided then replyText 400 "No audio file provided."
  else
    match fetched with
    | Rejected _ => replyText 500 "Server transcription error."
    | Fulfilled response =>
        if negb (statusOk (status response)) then
          match text response with
          | Rejected _ => replyText 500 "Server transcription error."
          | Fulfilled message =>
              replyText (status response)
                (JS.orString message "ElevenLabs transcription failed.")
          end
        else
          match body response with
          | Rejected _ => replyText 500 "Server transcription error."
          | Fulfilled data =>
              replyJson
                {| transcript :=
                     JS.orString (default EmptyString (geminiService.data_text data))
                       (JS.orString
                          (default EmptyString (geminiService.data_transcript data))
                          EmptyString) |}
          end
    end.

Record NarrateReply := mkNarrateReply { audio_base64 : string }.

Section Narrate.
(** [Buffer.from(bytes).toString('base64')]. *)
Variable toBase64 : list ascii -> string.

(** [app.post('/api/narrate', ...)].  [bodyText] is [req.body.text]; the
    body of the provider's response is read as bytes. *)
Definition narrate (elevenLabsApiKey : option string) (bodyText : option string)
  (fetched : Settled (Upstream (list ascii))) : Reply NarrateReply :=
  if negb (present elevenLabsApiKey) then
    replyText 500 "Missing ELEVENLABS_API_KEY on server."
  else if negb (present bodyText) then replyText 400 "Narration text required."
  else
    match fetched with
    | Rejected _ => replyText 500 "Narration server error."
    | Fulfilled response =>
        if negb (statusOk (status response)) then
          match text response with
          | Rejected _ => replyText 500 "Narration server error."
          | Fulfilled message =>
              replyText (status response) (JS.orString message "ElevenLabs narration failed.")
          end
        else
          match body response with
          | Rejected _ => replyText 500 "Narration server error."
          | Fulfilled audioBuffer => replyJson {| audio_base64 := toBase64 audioBuffer |}
          end
    end.
End Narrate.

End Server.

(** * The vocabulary of the properties

    The notions the properties are stated with, and the concrete sessions,
    segments and model outputs they are tried on. *)

(** ** Notions *)

(** A rank that orders the valid numbers as [SFcompare] does: both zeros
    have rank 0, a finite number's rank grows with its exponent and then its
    mantissa, and the infinities lie outside all finite ranks. *)
Definition rank (x : spec_float) : Z :=
  match x with
  | S754_zero _ | S754_nan => 0
  | S754_infinity s => if s then - 2 ^ 64 else 2 ^ 64
  | S754_finite s m e =>
      let v := (e - SpecFloat.emin prec emax + 1) * 2 ^ prec + Zpos m in
      if s then - v else v
  end%Z.

(** Not NaN. *)
Definition isNumber (x : spec_float) : Prop := x <> S754_nan.

(** The rank of a JavaScript number. *)
Definition rankOf (a : float) : Z := rank (Prim2SF a).

(** Sorted by [start_time] ascending: the [start_time] of a segment is at
    most that of every later segment, in the order of JavaScript numbers
    ([<=] is false when either side is NaN). *)
Definition inOrder (a b : StructuralSegment.t) : Prop :=
  (StructuralSegment.start_time a <=? StructuralSegment.start_time b)%float = true.

Definition sortedByStartTime (segs : list StructuralSegment.t) : Prop :=
  StronglySorted inOrder segs.

(** The segment collection of the session; empty while there is no record. *)
Definition segmentsOf (app : AppState.t) : list StructuralSegment.t :=
  match AppState.item app with
  | Some item => Structural.segments (ArchivalAudioItem.structural item)
  | None => []
  end.

(** A descriptive field of the session's record. *)
Definition descriptiveOf (app : AppState.t) (key : string) : option string :=
  match AppState.item app with
  | Some item => ArchivalAudioItem.descriptive item !! key
  | None => None
  end.

(** What the specification asks of one exported value, in its words: the
    value contains a character; it contains a comma, a double quote or a
    newline. *)
Definition Contains (c : ascii) (v : string) : Prop := In c (list_ascii_of_string v).

Definition Special (v : string) : Prop :=
  Contains JS.comma v \/ Contains JS.quote v \/ Contains JS.newline v.

(** [body] is [v] with every double quote doubled. *)
Inductive Doubled : string -> string -> Prop :=
| Doubled_end : Doubled EmptyString EmptyString
| Doubled_quote v body :
    Doubled v body -> Doubled (String JS.quote v) (String JS.quote (String JS.quote body))
| Doubled_other c v body :
    c <> JS.quote -> Doubled v body -> Doubled (String c v) (String c body).

(** [cell] is the serialization of the value [v]. *)
Inductive Serialized (v : string) : string -> Prop :=
| Serialized_plain : ~ Special v -> Serialized v v
| Serialized_quoted body :
    Special v -> Doubled v body ->
    Serialized v (String JS.quote (body ++ String JS.quote EmptyString)).

(** The fields of an unquoted line: [line.split(',')]. *)
Fixpoint splitOn (c : ascii) (line : string) : list string :=
  match line with
  | EmptyString => [EmptyString]
  | String ch rest =>
      if Ascii.eqb ch c then EmptyString :: splitOn c rest
      else match splitOn c rest with
           | field :: fields => String ch field :: fields
           | [] => [String ch EmptyString]
           end
  end.

(** The object has no property of that name. *)
Definition lacks (key : string) (props : list (string * Server.any)) : Prop :=
  ~ In key (map fst props).

(** The provenance the handler writes at time [now]. *)
Definition analysisProvenance (now : string) : Provenance.t :=
  {| Provenance.generated_by := "gemini-2.5-flash";
     Provenance.generated_at := now;
     Provenance.generation_method := "segment_analysis";
     Provenance.human_review_status := unreviewed;
     Provenance.human_reviewer := None |}.

(** A reader of comma-separated text, as the consumer of an export reads it:
    fields end at a comma, records at a newline, a field that opens with a
    double quote runs to its closing quote, and two double quotes inside it
    stand for one. *)
Inductive CsvMode := Unquoted | Quoted | Closing.

Fixpoint readCsvFrom (mode : CsvMode) (field : string) (fields : list string)
  (input : string) : list (list string) :=
  match input with
  | EmptyString => [(fields ++ [field])%list]
  | String c rest =>
      match mode with
      | Quoted =>
          if Ascii.eqb c JS.quote then readCsvFrom Closing field fields rest
          else readCsvFrom Quoted (field ++ String c EmptyString) fields rest
      | _ =>
          if Ascii.eqb c JS.quote then
            match mode with
            | Closing => readCsvFrom Quoted (field ++ String c EmptyString) fields rest
            | _ => readCsvFrom Quoted field fields rest
            end
          else if Ascii.eqb c JS.comma then
            readCsvFrom Unquoted EmptyString (fields ++ [field])%list rest
          else if Ascii.eqb c JS.newline then
            (fields ++ [field])%list :: readCsvFrom Unquoted EmptyString [] rest
          else readCsvFrom Unquoted (field ++ String c EmptyString) fields rest
      end
  end.

Definition readCsv (input : string) : list (list string) :=
  readCsvFrom Unquoted EmptyString [] input.

(** The value of a field of the metadata as the export takes it. *)
Definition fieldValue (metadata : DescriptiveMetadata) (h : string) : string :=
  default EmptyString (metadata !! h).

(** What [fetch] hands the client for a reply of the server: for a text
    reply, the status decides [ok] and the text is the body; for a JSON reply,
    [ok] holds and the body reads as the object sent. *)
Definition TextReply {Body : Type} (status : nat) (text : string)
  (response : geminiService.Response Body) : Prop :=
  geminiService.ok response = Server.statusOk status /\
  geminiService.text response = text.

Definition JsonReply {Body : Type} (body : Body) (response : geminiService.Response Body)
  : Prop :=
  geminiService.ok response = true /\ geminiService.json response = Fulfilled body.

(** The client's reading of a reply of [/api/transcribe]: the object sent
    has the one property [transcript]. *)
Definition TranscribeDelivered (reply : Server.Reply Server.TranscribeReply)
  (response : geminiService.Response geminiService.TranscribeData) : Prop :=
  match reply with
  | Server.replyText status text => TextReply status text response
  | Server.replyJson body =>
      JsonReply (geminiService.mkTranscribeData (Some (Server.transcript body)) None) response
  end.

(** The client's reading of a reply of [/api/narrate]. *)
Definition NarrateDelivered (reply : Server.Reply Server.NarrateReply)
  (response : geminiService.Response geminiService.NarrateData) : Prop :=
  match reply with
  | Server.replyText status text => TextReply status text response
  | Server.replyJson body =>
      JsonReply (geminiService.mkNarrateData (Some (Server.audio_base64 body))) response
  end.

(** The client's reading of an error reply of [/api/analyze]. *)
Definition AnalyzeErrorDelivered (reply : Server.HttpResponse)
  (response : geminiService.Response geminiService.AnalysisResult) : Prop :=
  match reply with
  | Server.send status text => TextReply status text response
  | Server.json _ => False
  end.

(** No [start_time] is NaN. *)
Definition numericTimes (segs : list StructuralSegment.t) : Prop :=
  Forall (fun s => PrimFloat.is_nan (StructuralSegment.start_time s) = false) segs.

(** The text behind a cell: nothing, or a separator and more text. *)
Definition separated (rest : string) : Prop :=
  match rest with
  | EmptyString => True
  | String c _ => c = JS.comma \/ c = JS.newline
  end.

(** The names [processBlob] gives a value of its own. *)
Definition seededNames : list string :=
  [ "identifier"; "title"; "description"; "temporal_index"; "transcript";
    "isadg.levelOfDescription"; "isadg.repository"; "isadg.language"; "rights";
    "dc.rights" ].

(** A value that converts to a string, and so to a number, without a
    TypeError: it is not an object with a [toString] property of its own, nor
    an array that holds one at any depth. *)
Fixpoint convertible (v : Server.any) : bool :=
  match v with
  | Server.object props => negb (Server.hasOwn "toString" props)
  | Server.array items => forallb convertible items
  | _ => true
  end.

(** [segment.key], as the handler reads it from an element of the model's
    [segments]. *)
Definition fieldOf (segment : Server.any) (key : string) : Server.any :=
  default Server.undefined (Server.get segment key).

(** The values a segment holds under the names the handler converts: the
    three it passes to [Number], and the summary the temporal index prints. *)
Definition numbersConvert (segment : Server.any) : bool :=
  convertible (fieldOf segment "start_time")
  && convertible (fieldOf segment "end_time")
  && convertible (fieldOf segment "confidence").

Definition summaryConverts (segment : Server.any) : bool :=
  convertible (fieldOf segment "summary").

(** [undefined] or [null]: the values a property cannot be read of. *)
Definition isNullish (v : Server.any) : bool :=
  match v with
  | Server.undefined | Server.null => true
  | _ => false
  end.

(** The [id] the model gave a segment, as the handler reads it. *)
Definition rawId (segment : Server.any) : Server.any :=
  default Server.undefined (Server.get segment "id").

(** ** Fixtures: the scenario of the specification and its variations *)

(** The provenance of a segment the analysis made, with a review status. *)
Definition provenance0 (status : HumanReviewStatus) : Provenance.t :=
  {| Provenance.generated_by := "gemini-2.5-flash";
     Provenance.generated_at := "2025-01-01T00:00:00.000Z";
     Provenance.generation_method := "segment_analysis";
     Provenance.human_review_status := status;
     Provenance.human_reviewer := None |}.

(** An unreviewed segment with no alternatives and no metadata. *)
Definition segment0 (id : string) (start_time end_time : JS.number) (type : SegmentType)
  : StructuralSegment.t :=
  {| StructuralSegment.id := id;
     StructuralSegment.start_time := start_time;
     StructuralSegment.end_time := end_time;
     StructuralSegment.type := type;
     StructuralSegment.summary := "A passage";
     StructuralSegment.confidence := 0.6%float;
     StructuralSegment.alternatives := None;
     StructuralSegment.notes := None;
     StructuralSegment.provenance := provenance0 unreviewed;
     StructuralSegment.segment_metadata := None |}.

(** The two segments of the scenario. *)
Definition seg_1 : StructuralSegment.t := segment0 "seg_1" 0%float 60%float Speech.
Definition seg_2 : StructuralSegment.t := segment0 "seg_2" 60%float 120%float Tune.

(** A segment that starts where [seg_1] starts. *)
Definition seg_1b : StructuralSegment.t := segment0 "seg_1b" 0%float 30%float Song.

(** The record of a 120-second recording, before transcription. *)
Definition item0 : ArchivalAudioItem.t :=
  initialItem "ARCH_2025_42" "reel.wav" "WAV" 120%float 1024%float "abc123".

(** A session whose record exists and whose analysis is under way. *)
Definition analysing (item : ArchivalAudioItem.t) : AppState.t :=
  statements
    [ processBlob_start;
      processBlob_checksum (Fulfilled "abc123") "blob:1";
      processBlob_loadedmetadata item;
      processBlob_transcribed (Fulfilled "hello") ]
    initialApp.

(** The same session after an analysis that returned [segs]. *)
Definition analysed (segs : list StructuralSegment.t) : AppState.t :=
  reader_onload
    (Fulfilled
       {| geminiService.segments := segs;
          geminiService.temporal_index := "0.00-60.00: A passage";
          geminiService.description := "Two passages" |})
    (analysing item0).

(** The record of that session. *)
Definition analysedItem : ArchivalAudioItem.t :=
  match AppState.item (analysed [seg_1; seg_2]) with
  | Some item => item
  | None => item0
  end.

(** A segment that has been approved. *)
Definition seg_approved : StructuralSegment.t :=
  {| StructuralSegment.id := "seg_3";
     StructuralSegment.start_time := 120%float;
     StructuralSegment.end_time := 150%float;
     StructuralSegment.type := Song;
     StructuralSegment.summary := "A song";
     StructuralSegment.confidence := 0.9%float;
     StructuralSegment.alternatives := Some ["A lament"];
     StructuralSegment.notes := None;
     StructuralSegment.provenance := provenance0 approved;
     StructuralSegment.segment_metadata := None |}.

(** The patch [{end_time: 58}] of the specification's scenario. *)
Definition patch_end_58 : SegmentPatch.t :=
  SegmentPatch.mk None None (Some 58%float) None None None None None None None.

(** A patch that holds an id, a confidence, alternatives and a provenance. *)
Definition patch_identity : SegmentPatch.t :=
  {| SegmentPatch.id := Some "renamed";
     SegmentPatch.start_time := None;
     SegmentPatch.end_time := None;
     SegmentPatch.type := None;
     SegmentPatch.summary := None;
     SegmentPatch.confidence := Some 1%float;
     SegmentPatch.alternatives := Some (Some ["Another reading"]);
     SegmentPatch.notes := None;
     SegmentPatch.provenance :=
       Some {| Provenance.generated_by := "someone";
               Provenance.generated_at := "1999-12-31T23:59:59.000Z";
               Provenance.generation_method := "by hand";
               Provenance.human_review_status := approved;
               Provenance.human_reviewer := Some "A. Reviewer" |};
     SegmentPatch.segment_metadata := None |}.

(** The completion of the analysis that the first session asked for. *)
Definition staleResult : geminiService.AnalysisResult :=
  {| geminiService.segments := [seg_1; seg_2];
     geminiService.temporal_index := "0.00-60.00: A passage";
     geminiService.description := "Two passages of the first recording" |}.

(** The record of the recording a second ingest brings. *)
Definition item1 : ArchivalAudioItem.t :=
  initialItem "ARCH_2025_43" "tape.mp3" "MP3" 30%float 2048%float "def456".

(** The first session is reset while its analysis is in flight. *)
Definition afterReset : AppState.t := resetApp (analysing item0).

(** A second ingest has then got as far as creating its record. *)
Definition secondSession : AppState.t :=
  statements
    [ processBlob_start;
      processBlob_checksum (Fulfilled "def456") "blob:2";
      processBlob_loadedmetadata item1 ]
    afterReset.

(** The transcription endpoint answers with an error status and a message. *)
Definition quotaResponse : geminiService.Response geminiService.TranscribeData :=
  {| geminiService.ok := false;
     geminiService.text := "quota_exceeded";
     geminiService.json := Rejected (mkError "Unexpected token q in JSON") |}.

(** The session at [await transcribeAudio(blob)]. *)
Definition transcribing : AppState.t :=
  statements
    [ processBlob_start;
      processBlob_checksum (Fulfilled "abc123") "blob:1";
      processBlob_loadedmetadata item0 ]
    initialApp.

(** The string that holds one double quote. *)
Definition dq : string := String JS.quote EmptyString.

(** The specification's example: the value He said, (quote) go (quote), and
    the cell it is exported as: that value between two quotes, with each of
    its own quotes written twice. *)
Definition heSaid : string := "He said, " ++ dq ++ "go" ++ dq.
Definition heSaidExported : string :=
  dq ++ "He said, " ++ dq ++ dq ++ "go" ++ dq ++ dq ++ dq.

(** A tune with a tempo range and two performers. *)
Definition reelMetadata : SegmentMetadata.t :=
  {| SegmentMetadata.tune_type := Some "reel";
     SegmentMetadata.meter := Some "4/4";
     SegmentMetadata.tempo_bpm_range := Some [96; 120]%float;
     SegmentMetadata.instruments := Some ["fiddle"; "flute"];
     SegmentMetadata.region := Some "Clare";
     SegmentMetadata.performers := Some ["Maire"; "Sean"];
     SegmentMetadata.evidence := None;
     SegmentMetadata.notes := None |}.

Definition seg_reel : StructuralSegment.t :=
  {| StructuralSegment.id := "seg_2";
     StructuralSegment.start_time := 60%float;
     StructuralSegment.end_time := 120%float;
     StructuralSegment.type := Tune;
     StructuralSegment.summary := "A reel";
     StructuralSegment.confidence := 0.8%float;
     StructuralSegment.alternatives := None;
     StructuralSegment.notes := None;
     StructuralSegment.provenance := provenance0 unreviewed;
     StructuralSegment.segment_metadata := Some reelMetadata |}.

(** The time at which the handler runs. *)
Definition now0 : string := "2025-01-01T00:00:00.000Z".

(** The first segment has no id, no confidence and no metadata; the second
    has them all, and a provenance and a review status of its own. *)
Definition rawSegments0 : list (list (string * Server.any)) :=
  [ [ ("start_time", Server.num 0%float);
      ("end_time", Server.num 60%float);
      ("type", Server.str "Speech");
      ("summary", Server.str "A passage") ];
    [ ("id", Server.str "intro");
      ("start_time", Server.num 60%float);
      ("end_time", Server.num 120%float);
      ("type", Server.str "Tune");
      ("summary", Server.str "A reel");
      ("confidence", Server.num 0.9%float);
      ("segment_metadata", Server.object [("tune_type", Server.str "reel")]);
      ("human_review_status", Server.str "approved");
      ("provenance",
        Server.object [ ("generated_by", Server.str "someone");
                        ("human_review_status", Server.str "approved") ]) ] ].

(** The parsed model output that holds them. *)
Definition parsed0 : Server.any :=
  Server.object
    [ ("description", Server.str "Two passages");
      ("temporal_index", Server.str "0.00-60.00: A passage");
      ("segments", Server.array (map Server.object rawSegments0)) ].

(** The answer of the handler to [parsed0] at [now0]. *)
Definition payload0 : Server.AnalyzePayload :=
  {| Server.description := Server.str "Two passages";
     Server.temporal_index := Server.str "0.00-60.00: A passage";
     Server.segments :=
       [ {| Server.Normalized.id := Server.str "seg_1";
            Server.Normalized.start_time := 0%float;
            Server.Normalized.end_time := 60%float;
            Server.Normalized.type := Server.str "Speech";
            Server.Normalized.summary := Server.str "A passage";
            Server.Normalized.confidence := 0.6%float;
            Server.Normalized.alternatives := Server.undefined;
            Server.Normalized.notes := Server.undefined;
            Server.Normalized.segment_metadata := Server.object [];
            Server.Normalized.provenance := analysisProvenance now0 |};
         {| Server.Normalized.id := Server.str "intro";
            Server.Normalized.start_time := 60%float;
            Server.Normalized.end_time := 120%float;
            Server.Normalized.type := Server.str "Tune";
            Server.Normalized.summary := Server.str "A reel";
            Server.Normalized.confidence := 0.9%float;
            Server.Normalized.alternatives := Server.undefined;
            Server.Normalized.notes := Server.undefined;
            Server.Normalized.segment_metadata :=
              Server.object [("tune_type", Server.str "reel")];
            Server.Normalized.provenance := analysisProvenance now0 |} ] |}.

(** Stand-ins for the library functions the handler's answer does not depend
    on at this input. *)
Definition noNumber (_ : string) : JS.number := JS.NaN.
Definition noDigits (_ : JS.number) : string := EmptyString.

(** The metadata object [{}], read at its declared type. *)
Definition emptyMetadata : SegmentMetadata.t :=
  SegmentMetadata.mk None None None None None None None None.

(** The body the client reads when the handler sends [payload0], at the
    declared type. *)
Definition result0 : geminiService.AnalysisResult :=
  {| geminiService.segments :=
       [ {| StructuralSegment.id := "seg_1";
            StructuralSegment.start_time := 0%float;
            StructuralSegment.end_time := 60%float;
            StructuralSegment.type := Speech;
            StructuralSegment.summary := "A passage";
            StructuralSegment.confidence := 0.6%float;
            StructuralSegment.alternatives := None;
            StructuralSegment.notes := None;
            StructuralSegment.provenance := analysisProvenance now0;
            StructuralSegment.segment_metadata := Some emptyMetadata |};
         {| StructuralSegment.id := "intro";
            StructuralSegment.start_time := 60%float;
            StructuralSegment.end_time := 120%float;
            StructuralSegment.type := Tune;
            StructuralSegment.summary := "A reel";
            StructuralSegment.confidence := 0.9%float;
            StructuralSegment.alternatives := None;
            StructuralSegment.notes := None;
            StructuralSegment.provenance := analysisProvenance now0;
            StructuralSegment.segment_metadata :=
              Some (SegmentMetadata.mk (Some "reel") None None None None None None None) |} ];
     geminiService.temporal_index := "0.00-60.00: A passage";
     geminiService.description := "Two passages" |}.

(** A segment object with no id, no confidence and no metadata, whose
    start_time is an object with a [toString] property of its own, and the
    parsed model output that holds it. *)
Definition segmentUnconvertible : list (string * Server.any) :=
  [ ("start_time", Server.object [("toString", Server.num 0%float)]);
    ("end_time", Server.num 60%float);
    ("type", Server.str "Speech");
    ("summary", Server.str "A passage") ].

Definition parsedUnconvertible : Server.any :=
  Server.object [ ("segments", Server.array [Server.object segmentUnconvertible]) ].

(** * Properties *)

(** ** The order of JavaScript numbers

    The comparator of the store subtracts two numbers and the sort looks at
    the sign of the difference.  This part shows from the specification of
    binary64 arithmetic that the sign of [a - b] is the order of [a] and [b],
    and that the order of the numbers other than NaN is a total order. *)

Section SpecFloatFacts.

Lemma digits2_pos_bounds (m : positive) :
  (2 ^ (Zpos (digits2_pos m) - 1) <= Zpos m < 2 ^ Zpos (digits2_pos m))%Z.
Proof.
  induction m as [m IH | m IH |]; cbn [digits2_pos].
  - rewrite Pos2Z.inj_succ.
    replace (Z.succ (Z.pos (digits2_pos m)) - 1)%Z with (Z.succ (Z.pos (digits2_pos m) - 1))%Z by lia.
    rewrite !Z.pow_succ_r by lia. lia.
  - rewrite Pos2Z.inj_succ.
    replace (Z.succ (Z.pos (digits2_pos m)) - 1)%Z with (Z.succ (Z.pos (digits2_pos m) - 1))%Z by lia.
    rewrite !Z.pow_succ_r by lia. lia.
  - simpl. lia.
Qed.

Lemma iter_xO (d m : positive) : (Zpos (Pos.iter xO m d) = Zpos m * 2 ^ Zpos d)%Z.
Proof.
  induction d as [|d IH] using Pos.peano_ind.
  - simpl. lia.
  - rewrite Pos.iter_succ, Pos2Z.inj_succ, Z.pow_succ_r by lia.
    rewrite Pos2Z.inj_xO, IH. lia.
Qed.

Lemma shl_align_fst (m : positive) (e e' : Z) :
  (e' <= e)%Z -> (Zpos (fst (shl_align m e e')) = Zpos m * 2 ^ (e - e'))%Z.
Proof.
  intros Hle. unfold shl_align.
  destruct (e' - e)%Z as [|d|d] eqn:Hd; cbn [fst].
  - replace (e - e')%Z with 0%Z by lia. simpl. lia.
  - lia.
  - rewrite iter_xO. replace (e - e')%Z with (Zpos d) by lia. reflexivity.
Qed.

(** Rounding keeps the sign it is given. *)
Lemma binary_round_aux_negative (m e : Z) (l : location) :
  SFltb (S754_zero false) (binary_round_aux prec emax true m e l) = false.
Proof.
  unfold binary_round_aux.
  destruct (shr_fexp prec emax m e l) as [mrs' e'].
  destruct (shr_fexp prec emax _ e' loc_Exact) as [mrs'' e''].
  destruct (shr_m mrs'') as [|p|p]; [reflexivity | | reflexivity].
  destruct (e'' <=? emax - prec)%Z; reflexivity.
Qed.

Lemma binary_normalize_positive (D e : Z) :
  SFltb (S754_zero false) (binary_normalize prec emax D e false) = true -> (0 < D)%Z.
Proof.
  destruct D as [|p|p]; simpl.
  - discriminate.
  - lia.
  - unfold binary_round. destruct (shl_align _ _ _) as [mz ez].
    now rewrite binary_round_aux_negative.
Qed.

(** A canonical mantissa has at most [prec] digits, and exactly [prec] above
    the least exponent. *)
Lemma canonical_digits (m : positive) (e : Z) :
  canonical_mantissa prec emax m e = true ->
  (Zpos (digits2_pos m) <= prec)%Z /\
  (SpecFloat.emin prec emax <= e)%Z /\
  (SpecFloat.emin prec emax < e -> Zpos (digits2_pos m) = prec)%Z.
Proof.
  unfold canonical_mantissa, fexp. intros H. apply Z.eqb_eq in H. lia.
Qed.

(** With canonical mantissas, the float with the larger exponent is the
    larger one. *)
Lemma larger_exponent (m1 m2 : positive) (e1 e2 : Z) :
  canonical_mantissa prec emax m1 e1 = true ->
  canonical_mantissa prec emax m2 e2 = true ->
  (e1 < e2)%Z ->
  (Zpos m1 < Zpos m2 * 2 ^ (e2 - e1))%Z.
Proof.
  intros H1 H2 Hlt.
  apply canonical_digits in H1 as (Hd1 & Hmin1 & _).
  apply canonical_digits in H2 as (_ & _ & Hd2).
  specialize (Hd2 ltac:(lia)).
  pose proof (digits2_pos_bounds m1) as [_ Hm1].
  pose proof (digits2_pos_bounds m2) as [Hm2 _].
  rewrite Hd2 in Hm2.
  assert (2 ^ Zpos (digits2_pos m1) <= 2 ^ prec)%Z by (apply Z.pow_le_mono_r; lia).
  assert (2 ^ 1 <= 2 ^ (e2 - e1))%Z by (apply Z.pow_le_mono_r; lia).
  assert (2 ^ prec = 2 ^ (prec - 1) * 2 ^ 1)%Z by (rewrite <- Z.pow_add_r by (unfold prec; lia); f_equal; lia).
  assert (0 < 2 ^ (prec - 1))%Z by (apply Z.pow_pos_nonneg; unfold prec; lia).
  nia.
Qed.

(** Shifting a mantissa right halves it. *)
Lemma shr_1_m (mrs : shr_record) :
  (0 <= shr_m mrs)%Z -> shr_m (shr_1 mrs) = (shr_m mrs / 2)%Z.
Proof.
  destruct mrs as [m r s]. cbn [shr_m]. intros Hm. unfold shr_1.
  destruct m as [|[p|p|]|p]; cbn [shr_m]; try lia; try reflexivity.
  - apply Z.div_unique with (r := 1%Z); lia.
  - apply Z.div_unique with (r := 0%Z); lia.
Qed.

Lemma pow2_xI (p : positive) : (2 ^ Zpos (xI p) = 2 * (2 ^ Zpos p * 2 ^ Zpos p))%Z.
Proof.
  replace (Z.pos (xI p)) with (Z.pos p + Z.pos p + 1)%Z by lia.
  rewrite !Z.pow_add_r by lia. lia.
Qed.

Lemma pow2_xO (p : positive) : (2 ^ Zpos (xO p) = 2 ^ Zpos p * 2 ^ Zpos p)%Z.
Proof.
  replace (Z.pos (xO p)) with (Z.pos p + Z.pos p)%Z by lia.
  now rewrite Z.pow_add_r by lia.
Qed.

Lemma iter_shr_1_m (p : positive) :
  forall mrs, (0 <= shr_m mrs)%Z ->
  shr_m (SpecFloat.iter_pos shr_1 p mrs) = (shr_m mrs / 2 ^ Zpos p)%Z.
Proof.
  induction p as [p IH | p IH |]; intros mrs Hm; cbn [SpecFloat.iter_pos].
  - assert (H1 : (0 <= shr_m (shr_1 mrs))%Z)
      by (rewrite shr_1_m by lia; apply Z.div_pos; lia).
    assert (H2 : (0 <= shr_m (SpecFloat.iter_pos shr_1 p (shr_1 mrs)))%Z)
      by (rewrite IH by lia; apply Z.div_pos; lia).
    rewrite IH, IH, shr_1_m by lia.
    rewrite !Z.div_div by lia. now rewrite pow2_xI.
  - assert (H1 : (0 <= shr_m (SpecFloat.iter_pos shr_1 p mrs))%Z)
      by (rewrite IH by lia; apply Z.div_pos; lia).
    rewrite IH, IH by lia.
    rewrite !Z.div_div by lia. now rewrite pow2_xO.
  - now apply shr_1_m.
Qed.

(** Rounding a positive mantissa at an exponent that is not below the least
    one leaves a positive mantissa. *)
Lemma shr_fexp_positive (m : positive) (e : Z) (l : location) :
  (SpecFloat.emin prec emax <= e)%Z ->
  (0 < shr_m (fst (shr_fexp prec emax (Zpos m) e l)))%Z /\
  (SpecFloat.emin prec emax <= snd (shr_fexp prec emax (Zpos m) e l))%Z.
Proof.
  intros He. unfold shr_fexp, shr, fexp. cbn [Zdigits2].
  set (mrs := shr_record_of_loc (Z.pos m) l).
  assert (Hmrs : shr_m mrs = Zpos m) by (subst mrs; destruct l as [|[]]; reflexivity).
  destruct (Z.max (Z.pos (digits2_pos m) + e - prec) (SpecFloat.emin prec emax) - e)%Z
    as [|n|n] eqn:Hn; cbn [fst snd].
  - rewrite Hmrs. lia.
  - rewrite iter_shr_1_m by (rewrite Hmrs; lia). rewrite Hmrs.
    pose proof (digits2_pos_bounds m) as [Hlow _].
    assert (Hdig : (Zpos n = Zpos (digits2_pos m) - prec)%Z) by lia.
    split; [| lia].
    apply Z.div_str_pos. split; [apply Z.pow_pos_nonneg; lia |].
    etransitivity; [| exact Hlow]. apply Z.pow_le_mono_r; unfold prec in *; lia.
  - rewrite Hmrs. lia.
Qed.

Lemma round_nearest_even_positive (m : Z) (l : location) :
  (0 < m)%Z -> (0 < round_nearest_even m l)%Z.
Proof.
  intros Hm. destruct l as [|[]]; cbn [round_nearest_even]; try lia.
  destruct (Z.even m); lia.
Qed.

Lemma binary_round_aux_positive (m : positive) (e : Z) (l : location) :
  (SpecFloat.emin prec emax <= e)%Z ->
  SFltb (S754_zero false) (binary_round_aux prec emax false (Zpos m) e l) = true.
Proof.
  intros He. unfold binary_round_aux.
  pose proof (shr_fexp_positive m e l He) as [Hm' He'].
  destruct (shr_fexp prec emax (Zpos m) e l) as [mrs' e']. cbn [fst snd] in Hm', He'.
  pose proof (round_nearest_even_positive (shr_m mrs') (loc_of_shr_record mrs') Hm') as Hr.
  destruct (round_nearest_even (shr_m mrs') (loc_of_shr_record mrs')) as [|r|r]; try lia.
  pose proof (shr_fexp_positive r e' loc_Exact He') as [Hm'' _].
  destruct (shr_fexp prec emax (Zpos r) e' loc_Exact) as [mrs'' e'']. cbn [fst] in Hm''.
  destruct (shr_m mrs'') as [|p|p]; try lia.
  destruct (e'' <=? emax - prec)%Z; reflexivity.
Qed.

Lemma binary_normalize_positive_iff (D e : Z) :
  (SpecFloat.emin prec emax <= e)%Z ->
  SFltb (S754_zero false) (binary_normalize prec emax D e false) = true <-> (0 < D)%Z.
Proof.
  intros He. split; [apply binary_normalize_positive |].
  destruct D as [|p|p]; try lia. intros _. cbn [binary_normalize]. unfold binary_round.
  pose proof (shl_align_fst p e (fexp prec emax (Z.pos (digits2_pos p) + e))) as Hfst.
  unfold shl_align in *.
  destruct (fexp prec emax (Z.pos (digits2_pos p) + e) - e)%Z as [|d|d] eqn:Hd.
  - now apply binary_round_aux_positive.
  - now apply binary_round_aux_positive.
  - apply binary_round_aux_positive. unfold fexp. lia.
Qed.

(** The sign of a difference is the order of its operands. *)
Lemma SFsub_sign (x y : spec_float) :
  SpecFloat.valid_binary prec emax x = true ->
  SpecFloat.valid_binary prec emax y = true ->
  SFltb (S754_zero false) (SFsub prec emax x y) = SFltb y x.
Proof.
  destruct x as [sx | sx | | sx mx ex], y as [sy | sy | | sy my ey].
  16: {
    simpl. unfold bounded. intros Hx Hy.
    apply andb_true_iff in Hx as [Hx _]. apply andb_true_iff in Hy as [Hy _].
    pose proof (canonical_digits _ _ Hx) as (_ & Hex & _).
    pose proof (canonical_digits _ _ Hy) as (_ & Hey & _).
    apply eq_iff_eq_true. rewrite binary_normalize_positive_iff by lia.
    rewrite !shl_align_fst by lia.
    assert (0 < 2 ^ (ex - Z.min ex ey))%Z by (apply Z.pow_pos_nonneg; lia).
    assert (0 < 2 ^ (ey - Z.min ex ey))%Z by (apply Z.pow_pos_nonneg; lia).
    unfold SFltb, SFcompare.
    change (PosDef.Pos.compare_cont Eq my mx) with (Pos.compare my mx).
    destruct sx, sy; cbn [cond_Zopp];
      try (split; [intros; nia | discriminate]);
      try (split; [reflexivity | intros; nia]);
      (destruct (Z.compare_spec ey ex) as [Heq | Hlt | Hgt];
       [ subst ey; rewrite Z.min_id, Z.sub_diag, Z.pow_0_r, !Z.mul_1_r;
         destruct (Pos.compare_spec my mx); cbn [CompOpp];
         split; first [reflexivity | discriminate | lia]
       | pose proof (larger_exponent my mx ey ex Hy Hx Hlt);
         rewrite Z.min_r, Z.sub_diag, Z.pow_0_r, Z.mul_1_r by lia;
         split; first [reflexivity | discriminate | lia]
       | pose proof (larger_exponent mx my ex ey Hx Hy ltac:(lia));
         rewrite Z.min_l, Z.sub_diag, Z.pow_0_r, Z.mul_1_r by lia;
         split; first [reflexivity | discriminate | lia] ]). }
  all: try destruct sx; try destruct sy; reflexivity.
Qed.

Lemma comparator_sign (a b : float) : (0 <? a - b)%float = (b <? a)%float.
Proof.
  rewrite !ltb_spec, sub_spec. change (Prim2SF 0) with (S754_zero false).
  apply SFsub_sign; apply Prim2SF_valid.
Qed.

Lemma valid_finite_bounds (s : bool) (m : positive) (e : Z) :
  SpecFloat.valid_binary prec emax (S754_finite s m e) = true ->
  (SpecFloat.emin prec emax <= e <= emax - prec)%Z /\ (Zpos m < 2 ^ prec)%Z.
Proof.
  cbn [SpecFloat.valid_binary]. unfold bounded. intros H. apply andb_true_iff in H as [Hc He].
  apply Z.leb_le in He. apply canonical_digits in Hc as (Hd & Hmin & _).
  pose proof (digits2_pos_bounds m) as [_ Hm].
  assert (2 ^ Zpos (digits2_pos m) <= 2 ^ prec)%Z by (apply Z.pow_le_mono_r; lia).
  unfold prec, emax in *. lia.
Qed.

Ltac decide_compare :=
  f_equal; symmetry;
  first [ apply Z.compare_eq_iff; nia
        | apply Z.compare_lt_iff; nia
        | apply Z.compare_gt_iff; nia ].

Lemma SFcompare_rank (x y : spec_float) :
  SpecFloat.valid_binary prec emax x = true ->
  SpecFloat.valid_binary prec emax y = true ->
  isNumber x -> isNumber y ->
  SFcompare x y = Some (rank x ?= rank y)%Z.
Proof.
  unfold isNumber.
  destruct x as [sx | sx | | sx mx ex], y as [sy | sy | | sy my ey];
    intros Hx Hy Nx Ny; try congruence;
    try apply valid_finite_bounds in Hx as [Hex Hmx];
    try apply valid_finite_bounds in Hy as [Hey Hmy];
    unfold SpecFloat.emin, prec, emax in *;
    change (2 ^ 53)%Z with 9007199254740992%Z in *;
    cbn [SFcompare rank];
    unfold SpecFloat.emin, prec, emax; change (2 ^ 53)%Z with 9007199254740992%Z;
    change (2 ^ 64)%Z with 18446744073709551616%Z;
    try (destruct sx); try (destruct sy); try reflexivity; try decide_compare.
  all: change (PosDef.Pos.compare_cont Eq mx my) with (Pos.compare mx my);
    destruct (Z.compare_spec ex ey); [destruct (Pos.compare_spec mx my) | |];
    cbn [CompOpp]; decide_compare.
Qed.

Lemma SFcompare_refl (x : spec_float) :
  SpecFloat.valid_binary prec emax x = true -> isNumber x -> SFcompare x x = Some Eq.
Proof.
  intros Hv Hn. rewrite SFcompare_rank by assumption. now rewrite Z.compare_refl.
Qed.

Lemma isNumber_is_nan (a : float) : PrimFloat.is_nan a = false <-> isNumber (Prim2SF a).
Proof.
  unfold PrimFloat.is_nan. rewrite FloatAxioms.eqb_spec. unfold SFeqb.
  pose proof (SFcompare_refl (Prim2SF a) (Prim2SF_valid a)) as Hrefl.
  unfold isNumber in *. destruct (Prim2SF a) as [s | s | | s m e];
    try (rewrite Hrefl by congruence; split; [congruence | reflexivity]).
  simpl. split; [discriminate | congruence].
Qed.

Ltac nan_case :=
  cbn [SFcompare]; unfold isNumber;
  (split; [discriminate | intros (H1 & H2 & _); exfalso; first [now apply H1 | now apply H2]]).

Ltac number_case :=
  rewrite SFcompare_rank by (first [assumption | unfold isNumber; discriminate]);
  unfold isNumber;
  match goal with
  | |- context [(?a ?= ?b)%Z] => destruct (Z.compare_spec a b)
  end;
  (split; [first [discriminate | intros _; repeat split; first [discriminate | lia]]
          | first [reflexivity | intros (_ & _ & H3); lia]]).

Lemma SFleb_rank (x y : spec_float) :
  SpecFloat.valid_binary prec emax x = true ->
  SpecFloat.valid_binary prec emax y = true ->
  SFleb x y = true <-> isNumber x /\ isNumber y /\ (rank x <= rank y)%Z.
Proof.
  intros Hx Hy. unfold SFleb.
  destruct x as [sx | sx | | sx mx ex], y as [sy | sy | | sy my ey];
    first [number_case | nan_case].
Qed.

Lemma SFltb_rank (x y : spec_float) :
  SpecFloat.valid_binary prec emax x = true ->
  SpecFloat.valid_binary prec emax y = true ->
  SFltb x y = true <-> isNumber x /\ isNumber y /\ (rank x < rank y)%Z.
Proof.
  intros Hx Hy. unfold SFltb.
  destruct x as [sx | sx | | sx mx ex], y as [sy | sy | | sy my ey];
    first [number_case | nan_case].
Qed.

Lemma SFeqb_rank (x y : spec_float) :
  SpecFloat.valid_binary prec emax x = true ->
  SpecFloat.valid_binary prec emax y = true ->
  SFeqb x y = true <-> isNumber x /\ isNumber y /\ rank x = rank y.
Proof.
  intros Hx Hy. unfold SFeqb.
  destruct x as [sx | sx | | sx mx ex], y as [sy | sy | | sy my ey];
    first [number_case | nan_case].
Qed.

End SpecFloatFacts.

Lemma leb_rank (a b : float) :
  (a <=? b)%float = true <->
  PrimFloat.is_nan a = false /\ PrimFloat.is_nan b = false /\ (rankOf a <= rankOf b)%Z.
Proof.
  rewrite leb_spec, SFleb_rank, !isNumber_is_nan by apply Prim2SF_valid. reflexivity.
Qed.

Lemma eqb_rank (a b : float) :
  (a =? b)%float = true <->
  PrimFloat.is_nan a = false /\ PrimFloat.is_nan b = false /\ rankOf a = rankOf b.
Proof.
  rewrite FloatAxioms.eqb_spec, SFeqb_rank, !isNumber_is_nan by apply Prim2SF_valid.
  reflexivity.
Qed.

Lemma ltb_rank (a b : float) :
  (a <? b)%float = true <->
  PrimFloat.is_nan a = false /\ PrimFloat.is_nan b = false /\ (rankOf a < rankOf b)%Z.
Proof.
  rewrite ltb_spec, SFltb_rank, !isNumber_is_nan by apply Prim2SF_valid. reflexivity.
Qed.

(** ** The sort *)

Section SortFacts.
Context {A : Type} (compareFn : A -> A -> JS.number).

Lemma sortInsert_Permutation (x : A) (l : list A) :
  Permutation (JS.sortInsert compareFn x l) (x :: l).
Proof.
  induction l as [|y l IH]; simpl.
  - reflexivity.
  - destruct (JS.comparesAfter compareFn x y).
    + rewrite IH. apply perm_swap.
    + reflexivity.
Qed.

Lemma sort_Permutation (l : list A) : Permutation (JS.sort compareFn l) l.
Proof.
  induction l as [|x l IH]; simpl.
  - reflexivity.
  - rewrite sortInsert_Permutation. now rewrite IH.
Qed.

Lemma sort_In (x : A) (l : list A) : In x (JS.sort compareFn l) <-> In x l.
Proof.
  split; apply Permutation_in; [| symmetry]; apply sort_Permutation.
Qed.

(** A list in which no element compares after a later one is left as it is. *)
Lemma sort_sorted (l : list A) :
  StronglySorted (fun a b => JS.comparesAfter compareFn a b = false) l ->
  JS.sort compareFn l = l.
Proof.
  induction 1 as [|x l Hl IH Hx]; simpl.
  - reflexivity.
  - rewrite IH. destruct l as [|y l']; simpl.
    + reflexivity.
    + inversion Hx as [|? ? Hxy _]; subst. now rewrite Hxy.
Qed.

End SortFacts.

(** The sort with a comparator that subtracts numeric keys. *)
Section SortByKey.
Context {A : Type} (compareFn : A -> A -> JS.number) (key : A -> JS.number).
Hypothesis compareFn_key : forall a b, compareFn a b = (key a - key b)%float.

Let ascending (a b : A) : Prop := (key a <=? key b)%float = true.
Let numeric (a : A) : Prop := PrimFloat.is_nan (key a) = false.

Lemma comparesAfter_key (a b : A) :
  JS.comparesAfter compareFn a b = (key b <? key a)%float.
Proof. unfold JS.comparesAfter. rewrite compareFn_key. apply comparator_sign. Qed.

Lemma ascending_not_after (a b : A) : ascending a b -> JS.comparesAfter compareFn a b = false.
Proof.
  unfold ascending. rewrite comparesAfter_key, leb_rank. intros (_ & _ & Hle).
  destruct (key b <? key a)%float eqn:Hlt; [| reflexivity].
  apply ltb_rank in Hlt as (_ & _ & Hlt). lia.
Qed.

Lemma after_ascending (a b : A) : JS.comparesAfter compareFn a b = true -> ascending b a.
Proof.
  unfold ascending. rewrite comparesAfter_key, ltb_rank, leb_rank.
  intros (Hb & Ha & Hlt). repeat split; [assumption .. | lia].
Qed.

Lemma not_after_ascending (a b : A) :
  numeric a -> numeric b -> JS.comparesAfter compareFn a b = false -> ascending a b.
Proof.
  unfold ascending, numeric. rewrite comparesAfter_key, leb_rank. intros Ha Hb Hnlt.
  repeat split; [assumption .. |].
  destruct (Z.le_gt_cases (rankOf (key a)) (rankOf (key b))) as [Hle | Hgt]; [exact Hle |].
  assert (Hlt : (key b <? key a)%float = true) by (apply ltb_rank; auto).
  congruence.
Qed.

Lemma ascending_trans (a b c : A) : ascending a b -> ascending b c -> ascending a c.
Proof.
  unfold ascending. rewrite !leb_rank. intros (Ha & _ & Hab) (_ & Hc & Hbc).
  repeat split; [assumption .. | lia].
Qed.

(** A list with ascending keys is left as it is. *)
Lemma sort_ascending_unchanged (l : list A) :
  StronglySorted ascending l -> JS.sort compareFn l = l.
Proof.
  intros Hsorted. apply sort_sorted.
  induction Hsorted as [|x l Hl IH Hx]; constructor; [exact IH |].
  eapply List.Forall_impl; [| exact Hx]. intros y. apply ascending_not_after.
Qed.

Lemma sortInsert_ascending (x : A) (l : list A) :
  numeric x -> Forall numeric l ->
  StronglySorted ascending l -> StronglySorted ascending (JS.sortInsert compareFn x l).
Proof.
  intros Hx Hl Hsorted. induction Hsorted as [|y l Hsorted IH Hy]; simpl.
  - repeat constructor.
  - inversion Hl as [|? ? Hny Hnl]; subst.
    destruct (JS.comparesAfter compareFn x y) eqn:Hafter.
    + constructor; [now apply IH |].
      apply List.Forall_forall. intros z Hz.
      apply (Permutation_in _ (sortInsert_Permutation compareFn x l)) in Hz.
      destruct Hz as [<- | Hz].
      * now apply after_ascending.
      * rewrite List.Forall_forall in Hy. now apply Hy.
    + assert (Hxy : ascending x y) by now apply not_after_ascending.
      constructor; [now constructor |].
      constructor; [exact Hxy |].
      eapply List.Forall_impl; [| exact Hy]. intros z. now apply ascending_trans.
Qed.

(** When no key is NaN, the sorted list has ascending keys. *)
Lemma sort_ascending (l : list A) :
  Forall numeric l -> StronglySorted ascending (JS.sort compareFn l).
Proof.
  induction 1 as [|x l Hx Hl IH]; simpl.
  - constructor.
  - apply sortInsert_ascending; [exact Hx | | exact IH].
    apply List.Forall_forall. intros y Hy. apply sort_In in Hy.
    rewrite List.Forall_forall in Hl. now apply Hl.
Qed.

(** The sort is stable: the elements whose key equals a given number stand in
    the sorted list in the order they had. *)
Lemma sortInsert_filter (k : JS.number) (x : A) (l : list A) :
  List.filter (fun a => (key a =? k)%float) (JS.sortInsert compareFn x l)
  = List.filter (fun a => (key a =? k)%float) (x :: l).
Proof.
  induction l as [|y l IH]; [reflexivity |].
  cbn [JS.sortInsert]. destruct (JS.comparesAfter compareFn x y) eqn:Hafter; [| reflexivity].
  cbn [List.filter] in *. rewrite IH.
  destruct (key x =? k)%float eqn:Hx, (key y =? k)%float eqn:Hy; try reflexivity.
  exfalso. rewrite comparesAfter_key in Hafter.
  apply ltb_rank in Hafter as (_ & _ & Hlt).
  apply eqb_rank in Hx as (_ & _ & Hx). apply eqb_rank in Hy as (_ & _ & Hy). lia.
Qed.

Lemma sort_stable (k : JS.number) (l : list A) :
  List.filter (fun a => (key a =? k)%float) (JS.sort compareFn l)
  = List.filter (fun a => (key a =? k)%float) l.
Proof.
  induction l as [|x l IH]; [reflexivity |].
  cbn [JS.sort fold_right]. rewrite sortInsert_filter.
  cbn [List.filter]. fold (JS.sort compareFn l). now rewrite IH.
Qed.

Lemma key_eqb_refl (a : A) : numeric a -> (key a =? key a)%float = true.
Proof. intros Ha. apply eqb_rank. now repeat split. Qed.

Lemma filter_head_In (k : JS.number) (a : A) (rest l : list A) :
  a :: rest = List.filter (fun x => (key x =? k)%float) l -> In a l.
Proof.
  intros Hfilter.
  assert (Hin : In a (List.filter (fun x => (key x =? k)%float) l))
    by (rewrite <- Hfilter; now left).
  now apply filter_In in Hin.
Qed.

(** Ascending keys and the order within each run of equal keys determine a
    list: for keys that are numbers there is one stable sorted arrangement,
    the one every conforming engine returns. *)
Lemma ascending_stable_unique (l1 : list A) :
  forall l2,
    Forall numeric l1 -> Forall numeric l2 ->
    StronglySorted ascending l1 -> StronglySorted ascending l2 ->
    (forall k, List.filter (fun x => (key x =? k)%float) l1
               = List.filter (fun x => (key x =? k)%float) l2) ->
    l1 = l2.
Proof.
  induction l1 as [|a l1 IH]; intros [|b l2] Hn1 Hn2 Hs1 Hs2 Hruns.
  - reflexivity.
  - exfalso. inversion Hn2 as [|? ? Hb _]; subst. specialize (Hruns (key b)).
    cbn [List.filter] in Hruns. rewrite (key_eqb_refl b Hb) in Hruns. discriminate.
  - exfalso. inversion Hn1 as [|? ? Ha _]; subst. specialize (Hruns (key a)).
    cbn [List.filter] in Hruns. rewrite (key_eqb_refl a Ha) in Hruns. discriminate.
  - inversion Hn1 as [|? ? Ha Hn1']; subst. inversion Hn2 as [|? ? Hb Hn2']; subst.
    inversion Hs1 as [|? ? Hs1' Ha_le]; subst. inversion Hs2 as [|? ? Hs2' Hb_le]; subst.
    assert (Hsame : (key b =? key a)%float = true).
    { destruct (key b =? key a)%float eqn:Hba; [reflexivity |]. exfalso.
      assert (Hab : (key a =? key b)%float = false).
      { destruct (key a =? key b)%float eqn:Hab; [| reflexivity].
        apply eqb_rank in Hab as (_ & _ & Hab).
        assert ((key b =? key a)%float = true) by (apply eqb_rank; now repeat split).
        congruence. }
      pose proof (Hruns (key a)) as Hat_a. pose proof (Hruns (key b)) as Hat_b.
      cbn [List.filter] in Hat_a, Hat_b.
      rewrite (key_eqb_refl a Ha), Hba in Hat_a.
      rewrite (key_eqb_refl b Hb), Hab in Hat_b.
      apply filter_head_In in Hat_a. symmetry in Hat_b. apply filter_head_In in Hat_b.
      rewrite List.Forall_forall in Ha_le, Hb_le.
      pose proof (Ha_le b Hat_b) as Hle1. pose proof (Hb_le a Hat_a) as Hle2.
      unfold ascending in Hle1, Hle2.
      apply leb_rank in Hle1 as (_ & _ & Hle1). apply leb_rank in Hle2 as (_ & _ & Hle2).
      assert ((key b =? key a)%float = true) by (apply eqb_rank; repeat split; auto; lia).
      congruence. }
    assert (Heq : a = b).
    { specialize (Hruns (key a)). cbn [List.filter] in Hruns.
      rewrite (key_eqb_refl a Ha), Hsame in Hruns. now injection Hruns. }
    subst b. f_equal. apply IH; try assumption.
    intros k. specialize (Hruns k). cbn [List.filter] in Hruns.
    destruct (key a =? k)%float; [now injection Hruns | exact Hruns].
Qed.

End SortByKey.

(** ** [updateSegment] *)

Lemma updateOne_other (segId : string) (updates : SegmentPatch.t) (s : StructuralSegment.t) :
  StructuralSegment.id s <> segId -> updateOne segId updates s = s.
Proof.
  intros Hne. unfold updateOne.
  destruct (String.eqb_spec (StructuralSegment.id s) segId); [contradiction | reflexivity].
Qed.

Lemma updateOne_target (segId : string) (updates : SegmentPatch.t) (s : StructuralSegment.t) :
  StructuralSegment.id s = segId -> updateOne segId updates s = patched s updates.
Proof.
  intros Hid. unfold updateOne. now rewrite Hid, String.eqb_refl.
Qed.

Lemma map_updateOne_unknown (segId : string) (updates : SegmentPatch.t)
  (segs : list StructuralSegment.t) :
  (forall s, In s segs -> StructuralSegment.id s <> segId) ->
  map (updateOne segId updates) segs = segs.
Proof.
  induction segs as [|s segs IH]; simpl; intros Hall.
  - reflexivity.
  - rewrite updateOne_other by (apply Hall; now left).
    rewrite IH; [reflexivity |]. intros s' Hin. apply Hall. now right.
Qed.

(** The segments after [updateSegment] are the images of the segments
    before it under [updateOne], in some order. *)
Lemma updateSegments_In (segId : string) (updates : SegmentPatch.t)
  (segs : list StructuralSegment.t) (s' : StructuralSegment.t) :
  In s' (updateSegments segId updates segs) <->
  exists s, In s segs /\ s' = updateOne segId updates s.
Proof.
  unfold updateSegments. rewrite sort_In, in_map_iff.
  split; intros (s & H1 & H2); exists s; auto.
Qed.

Lemma segmentsOf_updateSegment (segId : string) (updates : SegmentPatch.t) (app : AppState.t) :
  segmentsOf (updateSegment segId updates app) = updateSegments segId updates (segmentsOf app).
Proof.
  destruct app as [st [item|] err url ct pl sel tab ed nar]; reflexivity.
Qed.

Lemma withSegments_same (item : ArchivalAudioItem.t) :
  withSegments (Structural.segments (ArchivalAudioItem.structural item)) item = item.
Proof. destruct item as [d t a [segs]]. reflexivity. Qed.

Lemma segmentsOf_reader_onload (result : geminiService.AnalysisResult) (app : AppState.t)
  (item : ArchivalAudioItem.t) :
  AppState.item app = Some item ->
  segmentsOf (reader_onload (Fulfilled result) app) = geminiService.segments result.
Proof.
  destruct app as [st it err url ct pl sel tab ed nar]; simpl. intros ->. reflexivity.
Qed.

Lemma seg_2_before_seg_1_unsorted : ~ sortedByStartTime [seg_2; seg_1].
Proof.
  intros Hsorted. inversion Hsorted as [|? ? _ Hall]; subst.
  inversion Hall as [|? ? Hord _]; subst.
  vm_compute in Hord. discriminate.
Qed.

(** What [updateSegment] does and the completion handler does not: when no
    [start_time] is NaN after the patch, the collection it leaves is sorted by
    [start_time], whatever order it found. *)
Lemma updateSegment_sorts (segId : string) (updates : SegmentPatch.t) (app : AppState.t) :
  Forall (fun s => PrimFloat.is_nan (StructuralSegment.start_time s) = false)
    (map (updateOne segId updates) (segmentsOf app)) ->
  sortedByStartTime (segmentsOf (updateSegment segId updates app)).
Proof.
  intros Hnumeric. rewrite segmentsOf_updateSegment. unfold updateSegments.
  now apply (sort_ascending byStartTime StructuralSegment.start_time).
Qed.

(** When the call leaves no [start_time] NaN, the re-sort of
    [updateSegment] is stable: the segments that share a [start_time] after
    the patch keep the order they had.  The collection it leaves is then the
    only arrangement of the patched segments that is sorted by [start_time]
    and keeps those orders, which is the arrangement ECMAScript asks of every
    engine. *)
Lemma updateSegment_stable (segId : string) (updates : SegmentPatch.t) (app : AppState.t) :
  numericTimes (map (updateOne segId updates) (segmentsOf app)) ->
  (forall time,
      List.filter (fun s => (StructuralSegment.start_time s =? time)%float)
        (segmentsOf (updateSegment segId updates app))
      = List.filter (fun s => (StructuralSegment.start_time s =? time)%float)
          (map (updateOne segId updates) (segmentsOf app))) /\
  (forall arranged,
      Permutation arranged (map (updateOne segId updates) (segmentsOf app)) ->
      sortedByStartTime arranged ->
      (forall time,
          List.filter (fun s => (StructuralSegment.start_time s =? time)%float) arranged
          = List.filter (fun s => (StructuralSegment.start_time s =? time)%float)
              (map (updateOne segId updates) (segmentsOf app))) ->
      arranged = segmentsOf (updateSegment segId updates app)).
Proof.
  intros Hnumeric. rewrite segmentsOf_updateSegment. unfold updateSegments.
  set (patchedSegments := map (updateOne segId updates) (segmentsOf app)) in *.
  assert (Hstable : forall time,
            List.filter (fun s => (StructuralSegment.start_time s =? time)%float)
              (JS.sort byStartTime patchedSegments)
            = List.filter (fun s => (StructuralSegment.start_time s =? time)%float)
                patchedSegments)
    by (intros time; now apply (sort_stable byStartTime StructuralSegment.start_time)).
  split; [exact Hstable |].
  intros arranged Hperm Hsorted Hruns.
  apply (ascending_stable_unique StructuralSegment.start_time).
  - apply List.Forall_forall. intros s Hs. unfold numericTimes in Hnumeric.
    rewrite List.Forall_forall in Hnumeric. apply Hnumeric.
    now apply (Permutation_in _ Hperm).
  - apply List.Forall_forall. intros s Hs. unfold numericTimes in Hnumeric.
    rewrite List.Forall_forall in Hnumeric. apply Hnumeric.
    exact (proj1 (sort_In byStartTime s patchedSegments) Hs).
  - exact Hsorted.
  - now apply (sort_ascending byStartTime StructuralSegment.start_time).
  - intros time. now rewrite Hruns, Hstable.
Qed.

(** C1, at the input on which the code departs from it: an analysis that
    returns the later segment first.  The completion handler stores the
    list as it arrived, so the collection is not sorted by [start_time]
    after [replaceAll]; nothing in that handler sorts. *)
Theorem replaceAll_keeps_arrival_order :
  segmentsOf (analysing item0) = [] /\
  segmentsOf (analysed [seg_2; seg_1]) = [seg_2; seg_1] /\
  ~ sortedByStartTime (segmentsOf (analysed [seg_2; seg_1])).
Proof.
  split; [reflexivity |]. split; [reflexivity |].
  exact seg_2_before_seg_1_unsorted.
Qed.

(** C2, as amended: on a collection that is sorted by [start_time],
    [updateSegment] with an id that no segment carries changes nothing, in
    the collection or anywhere else in the state, whatever the patch.  The
    call cannot fail, and it sets no error. *)
Theorem updateSegment_unknown_id_unchanged (segId : string) (updates : SegmentPatch.t)
  (app : AppState.t) :
  sortedByStartTime (segmentsOf app) ->
  (forall s, In s (segmentsOf app) -> StructuralSegment.id s <> segId) ->
  updateSegment segId updates app = app.
Proof.
  destruct app as [st [item|] err url ct pl sel tab ed nar]; [| reflexivity].
  unfold segmentsOf, updateSegment, updateSegments; simpl. intros Hsorted Hunknown.
  rewrite map_updateOne_unknown by exact Hunknown.
  rewrite (sort_ascending_unchanged byStartTime StructuralSegment.start_time)
    by (reflexivity || exact Hsorted).
  now rewrite withSegments_same.
Qed.

Lemma seg_1_seg_2_sorted : sortedByStartTime [seg_1; seg_2].
Proof.
  repeat constructor.
Qed.

Lemma updateSegment_unknown_id_unchanged_witness :
  updateSegment "nonexistent" SegmentPatch.empty (analysed [seg_1; seg_2])
  = analysed [seg_1; seg_2].
Proof.
  apply updateSegment_unknown_id_unchanged.
  - exact seg_1_seg_2_sorted.
  - intros s [<- | [<- | []]]; discriminate.
Defined.

(** C2 fails as stated: on the collection an analysis left with the later
    segment first, an [updateSegment] with an unknown id and the empty patch
    reorders the collection. *)
Lemma updateSegment_unknown_id_reorders :
  (forall s, In s (segmentsOf (analysed [seg_2; seg_1])) ->
             StructuralSegment.id s <> "nonexistent") /\
  segmentsOf (updateSegment "nonexistent" SegmentPatch.empty (analysed [seg_2; seg_1]))
  = [seg_1; seg_2] /\
  updateSegment "nonexistent" SegmentPatch.empty (analysed [seg_2; seg_1])
  <> analysed [seg_2; seg_1].
Proof.
  split; [intros s [<- | [<- | []]]; discriminate |].
  split; [reflexivity |].
  intros Heq. apply (f_equal (fun app => map StructuralSegment.id (segmentsOf app))) in Heq.
  vm_compute in Heq. discriminate.
Qed.

Lemma patched_In (segId : string) (updates : SegmentPatch.t) (app : AppState.t)
  (s : StructuralSegment.t) :
  In s (segmentsOf app) -> StructuralSegment.id s = segId ->
  In (patched s updates) (segmentsOf (updateSegment segId updates app)).
Proof.
  intros Hin Hid. rewrite segmentsOf_updateSegment. apply updateSegments_In.
  exists s. split; [exact Hin |]. symmetry. now apply updateOne_target.
Qed.

(** C3: a segment the call targets is in the collection afterwards as its
    patched image; whatever its review status was and whatever the patch
    holds (a provenance included), the image's [human_review_status] is
    [edited] and its other provenance fields are those of the segment
    before.  Every segment of the collection afterwards is such an image or
    a segment with another id, as it was. *)
Theorem updateSegment_forces_edited (segId : string) (updates : SegmentPatch.t)
  (app : AppState.t) (s : StructuralSegment.t) :
  In s (segmentsOf app) ->
  StructuralSegment.id s = segId ->
  let after := segmentsOf (updateSegment segId updates app) in
  let p := StructuralSegment.provenance s in
  let p' := StructuralSegment.provenance (patched s updates) in
  In (patched s updates) after /\
  Provenance.human_review_status p' = edited /\
  Provenance.generated_by p' = Provenance.generated_by p /\
  Provenance.generated_at p' = Provenance.generated_at p /\
  Provenance.generation_method p' = Provenance.generation_method p /\
  Provenance.human_reviewer p' = Provenance.human_reviewer p /\
  (forall t, In t after ->
     (In t (segmentsOf app) /\ StructuralSegment.id t <> segId) \/
     (exists s0, In s0 (segmentsOf app) /\ StructuralSegment.id s0 = segId /\
                 t = patched s0 updates /\
                 Provenance.human_review_status (StructuralSegment.provenance t) = edited)).
Proof.
  intros Hin Hid after p p'. split; [now apply patched_In |].
  repeat (split; [reflexivity |]).
  intros t Ht. subst after. rewrite segmentsOf_updateSegment in Ht.
  apply updateSegments_In in Ht as (s0 & Hs0 & ->).
  destruct (String.eqb_spec (StructuralSegment.id s0) segId) as [Heq | Hne].
  - right. exists s0. rewrite updateOne_target by exact Heq. auto.
  - left. rewrite updateOne_other by exact Hne. auto.
Qed.

Lemma updateSegment_forces_edited_witness :
  In (patched seg_approved patch_end_58)
    (segmentsOf (updateSegment "seg_3" patch_end_58 (analysed [seg_1; seg_2; seg_approved])))
  /\ Provenance.human_review_status
       (StructuralSegment.provenance (patched seg_approved patch_end_58)) = edited.
Proof.
  pose proof (updateSegment_forces_edited "seg_3" patch_end_58
                (analysed [seg_1; seg_2; seg_approved]) seg_approved) as H.
  simpl in H. destruct H as (H1 & H2 & _); [right; right; left; reflexivity | reflexivity |].
  split; [exact H1 | exact H2].
Defined.

(** The scenario of the specification: after [replaceAll] with two segments,
    [updateSegment("seg_1", {end_time: 58})] leaves the order, marks [seg_1]
    edited and does not touch [seg_2]. *)
Example scenario_end_58 :
  segmentsOf (updateSegment "seg_1" patch_end_58 (analysed [seg_1; seg_2]))
  = [ {| StructuralSegment.id := "seg_1";
         StructuralSegment.start_time := 0%float;
         StructuralSegment.end_time := 58%float;
         StructuralSegment.type := Speech;
         StructuralSegment.summary := "A passage";
         StructuralSegment.confidence := 0.6%float;
         StructuralSegment.alternatives := None;
         StructuralSegment.notes := None;
         StructuralSegment.provenance := provenance0 edited;
         StructuralSegment.segment_metadata := None |};
      seg_2 ].
Proof. reflexivity. Qed.

(** C4 fails as stated: a patch that holds an id, a confidence and
    alternatives gives all three to the segment it targets. *)
Lemma updateSegment_patch_sets_identity :
  let after := segmentsOf (updateSegment "seg_1" patch_identity (analysed [seg_1; seg_2])) in
  after = [patched seg_1 patch_identity; seg_2] /\
  StructuralSegment.id seg_1 = "seg_1" /\
  StructuralSegment.id (patched seg_1 patch_identity) = "renamed" /\
  StructuralSegment.confidence seg_1 = 0.6%float /\
  StructuralSegment.confidence (patched seg_1 patch_identity) = 1%float /\
  StructuralSegment.alternatives seg_1 = None /\
  StructuralSegment.alternatives (patched seg_1 patch_identity) = Some ["Another reading"] /\
  StructuralSegment.id (patched seg_1 patch_identity) <> StructuralSegment.id seg_1.
Proof.
  repeat (split; [reflexivity |]). discriminate.
Qed.

(** C4, as amended: a segment the call targets keeps its provenance
    generator, timestamp and method whatever the patch holds; its id,
    confidence and alternatives are those of the patch where the patch holds
    them, and otherwise those it had. *)
Theorem updateSegment_identity_fields (segId : string) (updates : SegmentPatch.t)
  (app : AppState.t) (s : StructuralSegment.t) :
  In s (segmentsOf app) ->
  StructuralSegment.id s = segId ->
  let s' := patched s updates in
  In s' (segmentsOf (updateSegment segId updates app)) /\
  Provenance.generated_by (StructuralSegment.provenance s')
  = Provenance.generated_by (StructuralSegment.provenance s) /\
  Provenance.generated_at (StructuralSegment.provenance s')
  = Provenance.generated_at (StructuralSegment.provenance s) /\
  Provenance.generation_method (StructuralSegment.provenance s')
  = Provenance.generation_method (StructuralSegment.provenance s) /\
  StructuralSegment.id s'
  = match SegmentPatch.id updates with
    | Some v => v
    | None => StructuralSegment.id s
    end /\
  StructuralSegment.confidence s'
  = match SegmentPatch.confidence updates with
    | Some v => v
    | None => StructuralSegment.confidence s
    end /\
  StructuralSegment.alternatives s'
  = match SegmentPatch.alternatives updates with
    | Some v => v
    | None => StructuralSegment.alternatives s
    end.
Proof.
  intros Hin Hid s'. split; [now apply patched_In |].
  repeat split.
Qed.

Lemma updateSegment_identity_fields_witness :
  In (patched seg_1 patch_end_58)
    (segmentsOf (updateSegment "seg_1" patch_end_58 (analysed [seg_1; seg_2])))
  /\ StructuralSegment.id (patched seg_1 patch_end_58) = "seg_1"
  /\ StructuralSegment.confidence (patched seg_1 patch_end_58) = 0.6%float
  /\ StructuralSegment.alternatives (patched seg_1 patch_end_58) = None.
Proof.
  pose proof (updateSegment_identity_fields "seg_1" patch_end_58
                (analysed [seg_1; seg_2]) seg_1) as H.
  destruct H as (H1 & _ & _ & _ & H2 & H3 & H4); [left; reflexivity | reflexivity |].
  repeat split; assumption.
Defined.

(** ** Completions that arrive late *)


Lemma resetApp_item (app : AppState.t) : AppState.item (resetApp app) = None.
Proof. destruct app. reflexivity. Qed.



(** ** Failures of the pipeline *)

Lemma processBlob_transcribed_rejected (err : Error) (app : AppState.t) :
  AppState.error (processBlob_transcribed (Rejected err) app) = Some "Critical ingest error."
  /\ AppState.state (processBlob_transcribed (Rejected err) app) = ERROR.
Proof. destruct app. split; reflexivity. Qed.

Lemma reader_onload_rejected (err : Error) (app : AppState.t) :
  AppState.error (reader_onload (Rejected err) app)
  = Some ("Segmentation failed: " ++ message err)
  /\ AppState.state (reader_onload (Rejected err) app) = ERROR.
Proof. destruct app. split; reflexivity. Qed.

(** C6, at the input on which the code departs from it: the service
    rejects with the provider's message, word for word; the pipeline ends
    in the error state, but the error it shows is the fixed text of the
    outer [catch], not that message.  The same rejection on the analysis
    path is shown with its message. *)
Theorem transcription_failure_shows_fixed_text :
  let transcribed := geminiService.transcribeAudio (Fulfilled quotaResponse) in
  let failed := processBlob_transcribed transcribed transcribing in
  transcribed = Rejected (mkError "quota_exceeded") /\
  AppState.state failed = ERROR /\
  AppState.error failed = Some "Critical ingest error." /\
  AppState.error failed <> Some "quota_exceeded" /\
  AppState.error (reader_onload (Rejected (mkError "quota_exceeded")) transcribing)
  = Some "Segmentation failed: quota_exceeded".
Proof.
  repeat split. discriminate.
Qed.

(** ** CSV export *)

Lemma includes_Contains (c : ascii) (v : string) :
  JS.includes c v = true <-> Contains c v.
Proof.
  unfold Contains. induction v as [|ch v IH]; simpl.
  - split; [discriminate | contradiction].
  - destruct (Ascii.eqb_spec ch c) as [-> | Hne].
    + split; auto.
    + rewrite IH. split; [auto | intros [Heq | Hin]; [contradiction | exact Hin]].
Qed.

Lemma includes_not_Contains (c : ascii) (v : string) :
  JS.includes c v = false <-> ~ Contains c v.
Proof.
  rewrite <- includes_Contains. destruct (JS.includes c v); split; congruence.
Qed.

Lemma replaceAll_Doubled (v : string) :
  Doubled v (JS.replaceAll JS.quote (String JS.quote (String JS.quote EmptyString)) v).
Proof.
  induction v as [|ch v IH]; simpl.
  - constructor.
  - destruct (Ascii.eqb_spec ch JS.quote) as [-> | Hne].
    + simpl. now constructor.
    + now constructor.
Qed.

Lemma orString_empty (a : string) : JS.orString a EmptyString = a.
Proof. now destruct a. Qed.

Lemma csvValue_Serialized (metadata : DescriptiveMetadata) (h : string) :
  Serialized (default EmptyString (metadata !! h)) (csvValue metadata h).
Proof.
  unfold csvValue. rewrite orString_empty.
  set (v := default EmptyString (metadata !! h)).
  destruct (JS.includes JS.comma v) eqn:Hc; simpl.
  { apply Serialized_quoted; [left; now apply includes_Contains | apply replaceAll_Doubled]. }
  destruct (JS.includes JS.quote v) eqn:Hq; simpl.
  { apply Serialized_quoted;
      [right; left; now apply includes_Contains | apply replaceAll_Doubled]. }
  destruct (JS.includes JS.newline v) eqn:Hn; simpl.
  { apply Serialized_quoted;
      [right; right; now apply includes_Contains | apply replaceAll_Doubled]. }
  apply Serialized_plain. apply includes_not_Contains in Hc, Hq, Hn.
  intros [H | [H | H]]; contradiction.
Qed.

Lemma csvValue_missing (metadata : DescriptiveMetadata) (h : string) :
  metadata !! h = None -> csvValue metadata h = EmptyString.
Proof. unfold csvValue. now intros ->. Qed.

(** C7 fails as stated: the schema the header row is made of has 92
    fields, not 90, and so has the header row of an export. *)
Lemma csv_header_has_92_fields :
  length ARCHIVAL_CSV_HEADERS = 92 /\
  length ARCHIVAL_CSV_HEADERS <> 90 /\
  option_map
    (fun d => length (splitOn JS.comma (hd EmptyString (splitOn JS.newline (content d)))))
    (exportCSV (Some item0))
  = Some 92.
Proof.
  split; [reflexivity |]. split; [discriminate |]. vm_compute. reflexivity.
Qed.

(** C7, as amended: the export is the header row, a newline and one data
    row.  The header row is the 92 names of [ARCHIVAL_CSV_HEADERS] in their
    order, separated by commas; the data row is one cell per name, in the
    same order, separated by commas.  A cell is the field's value as it
    is, or, when the value contains a comma, a double quote or a newline,
    the value between double quotes with its double quotes doubled; a field
    the metadata does not have gives the empty cell.  The title
    [heSaid] is exported as [heSaidExported]. *)
Theorem exportCSV_layout (item : ArchivalAudioItem.t) :
  let metadata := ArchivalAudioItem.descriptive item in
  let cells := map (csvValue metadata) ARCHIVAL_CSV_HEADERS in
  option_map content (exportCSV (Some item))
  = Some (csvHeader ++ String JS.newline EmptyString ++ JS.join "," cells) /\
  splitOn JS.comma csvHeader = ARCHIVAL_CSV_HEADERS /\
  length ARCHIVAL_CSV_HEADERS = 92 /\
  Forall2 (fun h cell => Serialized (default EmptyString (metadata !! h)) cell)
    ARCHIVAL_CSV_HEADERS cells /\
  (forall (i : nat) (h : string),
     ARCHIVAL_CSV_HEADERS !! i = Some h -> metadata !! h = None ->
     cells !! i = Some EmptyString) /\
  csvValue (<["title" := heSaid]> metadata) "title" = heSaidExported.
Proof.
  intros metadata cells.
  split; [reflexivity |]. split; [vm_compute; reflexivity |]. split; [reflexivity |].
  split; [| split].
  - subst cells. induction ARCHIVAL_CSV_HEADERS as [|h hs IH]; simpl; constructor.
    + apply csvValue_Serialized.
    + exact IH.
  - intros i h Hh Hmissing. subst cells.
    rewrite list_lookup_fmap, Hh. simpl. now rewrite csvValue_missing.
  - unfold csvValue. rewrite lookup_insert_eq. reflexivity.
Qed.

(** ** The display projection *)

Section ProjectionFacts.
Variable digitsOf : JS.number -> string.

(** C8: the display segment at a position is made from the canonical segment
    at that position; its category follows the fixed rule on the type; when
    the segment's metadata has a tempo range with a lower bound, the tempo
    is that bound's digits followed by BPM, whatever follows the bound; when
    it has performers and they are not empty, the performer is the first. *)
Theorem projection_rule (item : ArchivalAudioItem.t) (i : nat) (s : StructuralSegment.t) :
  Structural.segments (ArchivalAudioItem.structural item) !! i = Some s ->
  exists d,
    segments digitsOf (Some item) !! i = Some d /\
    AudioSegment.id d = StructuralSegment.id s /\
    (StructuralSegment.type s = Tune \/ StructuralSegment.type s = Song ->
     AudioSegment.category d = music) /\
    (StructuralSegment.type s = Speech -> AudioSegment.category d = speech) /\
    (StructuralSegment.type s = Silence \/ StructuralSegment.type s = Other ->
     AudioSegment.category d = other) /\
    (forall m low rest,
       StructuralSegment.segment_metadata s = Some m ->
       SegmentMetadata.tempo_bpm_range m = Some (low :: rest) ->
       AudioSegmentMetadata.tempo (AudioSegment.metadata d)
       = Some (JS.NumberToString digitsOf low ++ " BPM")) /\
    (forall m p ps,
       StructuralSegment.segment_metadata s = Some m ->
       SegmentMetadata.performers m = Some (p :: ps) ->
       AudioSegmentMetadata.performer (AudioSegment.metadata d) = Some p).
Proof.
  intros Hs. exists (displaySegment digitsOf s).
  split; [simpl; now rewrite list_lookup_fmap, Hs |].
  split; [reflexivity |].
  split; [intros [Ht | Ht]; simpl; now rewrite Ht |].
  split; [intros Ht; simpl; now rewrite Ht |].
  split; [intros [Ht | Ht]; simpl; now rewrite Ht |].
  split.
  - intros m low rest Hm Hrange. simpl. rewrite Hm. simpl. now rewrite Hrange.
  - intros m p ps Hm Hperf. simpl. rewrite Hm. simpl. now rewrite Hperf.
Qed.

(** A present but empty tempo range is rendered too: its missing first
    element reads [undefined]. *)
Lemma tempoText_empty : tempoText digitsOf [] = "undefined BPM".
Proof. reflexivity. Qed.

End ProjectionFacts.

Lemma projection_rule_witness :
  exists d,
    segments (fun _ => EmptyString) (Some (withSegments [seg_1; seg_reel] item0)) !! 1 = Some d /\
    AudioSegment.category d = music /\
    AudioSegmentMetadata.tempo (AudioSegment.metadata d) = Some "96 BPM" /\
    AudioSegmentMetadata.performer (AudioSegment.metadata d) = Some "Maire".
Proof.
  destruct (projection_rule (fun _ => EmptyString) (withSegments [seg_1; seg_reel] item0)
              1 seg_reel eq_refl) as (d & Hd & _ & Hmusic & _ & _ & Htempo & Hperformer).
  exists d. split; [exact Hd |]. split; [apply Hmusic; now left |].
  split.
  - exact (Htempo reelMetadata 96%float [120%float] eq_refl eq_refl).
  - exact (Hperformer reelMetadata "Maire" ["Sean"] eq_refl eq_refl).
Defined.

(** ** Segment normalization on the server *)

Lemma lookupProp_lacks (key : string) (props : list (string * Server.any)) :
  lacks key props -> Server.lookupProp key props = Server.undefined.
Proof.
  unfold lacks. induction props as [|[k v] props IH]; simpl; intros Hlacks.
  - reflexivity.
  - destruct (String.eqb_spec k key) as [-> | Hne].
    + exfalso. apply Hlacks. now left.
    + apply IH. intros Hin. apply Hlacks. now right.
Qed.

(** Induction on a value and, for an array, on its elements. *)
Section AnyInduction.
Variable P : Server.any -> Prop.
Hypothesis Hundefined : P Server.undefined.
Hypothesis Hnull : P Server.null.
Hypothesis Hboolean : forall b, P (Server.boolean b).
Hypothesis Hnum : forall n, P (Server.num n).
Hypothesis Hstr : forall s, P (Server.str s).
Hypothesis Harray : forall items, Forall P items -> P (Server.array items).
Hypothesis Hobject : forall props, P (Server.object props).

Fixpoint any_elements_ind (v : Server.any) : P v :=
  match v with
  | Server.undefined => Hundefined
  | Server.null => Hnull
  | Server.boolean b => Hboolean b
  | Server.num n => Hnum n
  | Server.str s => Hstr s
  | Server.array items =>
      Harray items
        ((fix elements (l : list Server.any) : Forall P l :=
            match l with
            | [] => @List.Forall_nil _ P
            | e :: rest => @List.Forall_cons _ P e rest (any_elements_ind e) (elements rest)
            end) items)
  | Server.object props => Hobject props
  end.
End AnyInduction.

Lemma collect_cons {A : Type} (o : option A) (results : list (option A)) :
  Server.collect (o :: results)
  = match o, Server.collect results with
    | Some x, Some xs => Some (x :: xs)
    | _, _ => None
    end.
Proof. destruct o; [reflexivity |]. now destruct (Server.collect results). Qed.

Lemma collect_map_None {A B : Type} (f : A -> option B) (l : list A) :
  Server.collect (map f l) = None <-> exists x, In x l /\ f x = None.
Proof.
  induction l as [|x l IH]; cbn [map].
  - split; [discriminate | now intros (? & [] & _)].
  - rewrite collect_cons. destruct (f x) as [y|] eqn:Hx.
    + destruct (Server.collect (map f l)) as [ys|].
      * split; [discriminate |]. intros (x' & [<-|Hin] & Hnone); [congruence |].
        assert (Hsome : Some ys = None) by (apply IH; eauto). discriminate.
      * split; [| reflexivity]. intros _.
        destruct (proj1 IH eq_refl) as (x' & Hin & Hnone).
        exists x'. split; [now right | exact Hnone].
    + split; [| reflexivity]. intros _. exists x. split; [now left | exact Hx].
Qed.

Lemma forallb_false {A : Type} (f : A -> bool) (l : list A) :
  forallb f l = false <-> exists x, In x l /\ f x = false.
Proof.
  induction l as [|x l IH]; cbn [forallb].
  - split; [discriminate | now intros (? & [] & _)].
  - rewrite andb_false_iff, IH. split.
    + intros [Hx|(y & Hy & Hfy)]; [exists x; split; [now left | exact Hx] |].
      exists y. split; [now right | exact Hfy].
    + intros (y & [<-|Hy] & Hfy); [now left | right; eauto].
Qed.

Lemma falsy_convertible (v : Server.any) :
  Server.truthy v = false -> convertible v = true.
Proof. now destruct v. Qed.

Lemma convertible_or (a : Server.any) (fallback : string) :
  convertible (Server.or_ a (Server.str fallback)) = convertible a.
Proof.
  unfold Server.or_. destruct (Server.truthy a) eqn:Ha; [reflexivity |].
  symmetry. now apply falsy_convertible.
Qed.

Lemma convertible_nullish (a : Server.any) (fallback : JS.number) :
  convertible (Server.nullish a (Server.num fallback)) = convertible a.
Proof. now destruct a. Qed.

Section HandlerFacts.
Variable StringToNumber : string -> JS.number.
Variable digitsOf : JS.number -> string.
Variable toFixed2 : JS.number -> string.

Local Abbreviation ToString := (Server.ToString digitsOf).
Local Abbreviation ToNumber := (Server.ToNumber StringToNumber digitsOf).
Local Abbreviation buildTemporalIndex := (Server.buildTemporalIndex digitsOf toFixed2).
Local Abbreviation normalizeSegment := (Server.normalizeSegment StringToNumber digitsOf).
Local Abbreviation normalizeFrom := (Server.normalizeFrom StringToNumber digitsOf).
Local Abbreviation analyzeParsed := (Server.analyzeParsed StringToNumber digitsOf toFixed2).

(** The conversion to a string throws exactly on the values that are not
    [convertible]. *)
Lemma ToString_None (v : Server.any) : ToString v = None <-> convertible v = false.
Proof.
  induction v as [| | [|] | n | s | items IH | props] using any_elements_ind;
    cbn [Server.ToString convertible]; try (split; discriminate).
  - assert (Helements :
      Server.collect
        (map (fun e => match e with
                       | Server.undefined | Server.null => Some EmptyString
                       | _ => ToString e
                       end) items) = None <-> forallb convertible items = false).
    { rewrite collect_map_None, forallb_false.
      split; intros (e & Hin & He); exists e; (split; [exact Hin |]);
        rewrite List.Forall_forall in IH; specialize (IH e Hin);
        destruct e; try discriminate; try exact He; now apply IH. }
    rewrite <- Helements. now destruct (Server.collect _).
  - destruct (Server.hasOwn "toString" props); split; try discriminate; reflexivity.
Qed.

Lemma ToNumber_None (v : Server.any) : ToNumber v = None <-> convertible v = false.
Proof.
  destruct v as [| | [|] | n | s | items | props];
    try (cbn; split; discriminate);
    unfold Server.ToNumber; rewrite <- ToString_None; now destruct (ToString _).
Qed.

Lemma ToNumber_convertible (v : Server.any) :
  convertible v = true -> exists x, ToNumber v = Some x.
Proof.
  intros Hv. destruct (ToNumber v) as [x|] eqn:Hx; [now exists x |].
  apply ToNumber_None in Hx. congruence.
Qed.

(** The callback on a segment that is neither [null] nor [undefined]. *)
Lemma normalizeSegment_unfold (now : string) (segment : Server.any) (index : nat) :
  isNullish segment = false ->
  normalizeSegment now segment index
  = match ToNumber (Server.nullish (fieldOf segment "start_time") (Server.num 0%float)),
          ToNumber (Server.nullish (fieldOf segment "end_time") (Server.num 0%float)),
          ToNumber (Server.nullish (fieldOf segment "confidence") (Server.num 0.6%float)) with
    | Some start_time, Some end_time, Some confidence =>
        Some
          {| Server.Normalized.id :=
               Server.or_ (rawId segment)
                 (Server.str ("seg_" ++ JS.natToString (index + 1)));
             Server.Normalized.start_time := start_time;
             Server.Normalized.end_time := end_time;
             Server.Normalized.type :=
               Server.or_ (fieldOf segment "type") (Server.str "Speech");
             Server.Normalized.summary :=
               Server.or_ (fieldOf segment "summary")
                 (Server.str "Segment summary unavailable.");
             Server.Normalized.confidence := confidence;
             Server.Normalized.alternatives :=
               Server.or_ (fieldOf segment "alternatives") Server.undefined;
             Server.Normalized.notes :=
               Server.or_ (fieldOf segment "notes") Server.undefined;
             Server.Normalized.segment_metadata :=
               Server.or_ (fieldOf segment "segment_metadata") (Server.object []);
             Server.Normalized.provenance := analysisProvenance now |}
    | _, _, _ => None
    end.
Proof. destruct segment; try discriminate; reflexivity. Qed.

(** The callback throws on [null], on [undefined], and on a segment one of
    whose three numbers does not convert; on nothing else. *)
Lemma normalizeSegment_None (now : string) (segment : Server.any) (index : nat) :
  normalizeSegment now segment index = None <->
  isNullish segment = true \/ numbersConvert segment = false.
Proof.
  destruct (isNullish segment) eqn:Hsegment.
  - split; [now left |]. intros _. now destruct segment.
  - rewrite (normalizeSegment_unfold now segment index Hsegment). unfold numbersConvert.
    rewrite <- (convertible_nullish (fieldOf segment "start_time") 0%float).
    rewrite <- (convertible_nullish (fieldOf segment "end_time") 0%float).
    rewrite <- (convertible_nullish (fieldOf segment "confidence") 0.6%float).
    rewrite !andb_false_iff, <- !ToNumber_None.
    set (start_time := ToNumber (Server.nullish (fieldOf segment "start_time") _)).
    set (end_time := ToNumber (Server.nullish (fieldOf segment "end_time") _)).
    set (confidence := ToNumber (Server.nullish (fieldOf segment "confidence") _)).
    destruct start_time, end_time, confidence; split; intros H;
      try discriminate; try reflexivity; auto;
      destruct H as [H|[[H|H]|H]]; discriminate.
Qed.

(** What the callback returns, when it returns. *)
Lemma normalizeSegment_fields (now : string) (segment : Server.any) (index : nat)
  (n : Server.Normalized.t) :
  normalizeSegment now segment index = Some n ->
  Server.Normalized.id n
  = Server.or_ (rawId segment) (Server.str ("seg_" ++ JS.natToString (index + 1))) /\
  Server.Normalized.type n = Server.or_ (fieldOf segment "type") (Server.str "Speech") /\
  Server.Normalized.summary n
  = Server.or_ (fieldOf segment "summary") (Server.str "Segment summary unavailable.") /\
  Server.Normalized.alternatives n
  = Server.or_ (fieldOf segment "alternatives") Server.undefined /\
  Server.Normalized.notes n = Server.or_ (fieldOf segment "notes") Server.undefined /\
  Server.Normalized.segment_metadata n
  = Server.or_ (fieldOf segment "segment_metadata") (Server.object []) /\
  ToNumber (Server.nullish (fieldOf segment "confidence") (Server.num 0.6%float))
  = Some (Server.Normalized.confidence n) /\
  Server.Normalized.provenance n = analysisProvenance now.
Proof.
  destruct (isNullish segment) eqn:Hsegment; [now destruct segment |].
  rewrite (normalizeSegment_unfold now segment index Hsegment).
  set (start_time := ToNumber (Server.nullish (fieldOf segment "start_time") _)).
  set (end_time := ToNumber (Server.nullish (fieldOf segment "end_time") _)).
  set (confidence := ToNumber (Server.nullish (fieldOf segment "confidence") _)).
  destruct start_time, end_time, confidence; try discriminate.
  intros [= <-]. repeat split.
Qed.

(** An object whose numbers convert goes through the callback whatever
    properties it has or lacks; the three defaults are those of the
    callback. *)
Lemma normalizeSegment_object (now : string) (props : list (string * Server.any))
  (index : nat) :
  numbersConvert (Server.object props) = true ->
  exists n,
    normalizeSegment now (Server.object props) index = Some n /\
    (lacks "id" props ->
     Server.Normalized.id n = Server.str ("seg_" ++ JS.natToString (index + 1))) /\
    (lacks "confidence" props -> Server.Normalized.confidence n = 0.6%float) /\
    (lacks "segment_metadata" props ->
     Server.Normalized.segment_metadata n = Server.object []).
Proof.
  intros Hconvert.
  destruct (normalizeSegment now (Server.object props) index) as [n|] eqn:Hn.
  - exists n. split; [reflexivity |].
    destruct (normalizeSegment_fields _ _ _ _ Hn)
      as (Hid & _ & _ & _ & _ & Hmetadata & Hconfidence & _).
    unfold rawId, fieldOf in *. cbn [Server.get default from_option id] in *.
    repeat split; intros Hlacks; rewrite (lookupProp_lacks _ _ Hlacks) in *.
    + exact Hid.
    + cbn in Hconfidence. now injection Hconfidence.
    + exact Hmetadata.
  - apply normalizeSegment_None in Hn as [Hn|Hn]; [discriminate | congruence].
Qed.

Lemma normalizeFrom_objects (now : string) (raw : list (list (string * Server.any))) :
  Forall (fun props => numbersConvert (Server.object props) = true) raw ->
  forall index,
  exists ns,
    normalizeFrom now index (map Server.object raw) = Some ns /\
    length ns = length raw /\
    forall i props,
      raw !! i = Some props ->
      exists n, ns !! i = Some n /\
                normalizeSegment now (Server.object props) (index + i) = Some n.
Proof.
  induction raw as [|props0 raw IH]; intros Hconvert index.
  - exists []. repeat split. intros i props Hi. discriminate.
  - inversion Hconvert as [|? ? Hprops0 Hraw]; subst.
    destruct (IH Hraw (S index)) as (ns & Hns & Hlen & Hat).
    destruct (normalizeSegment_object now props0 index Hprops0) as (n0 & Hn0 & _).
    exists (n0 :: ns). cbn [map Server.normalizeFrom]. rewrite Hn0, Hns.
    split; [reflexivity |]. split; [simpl; now rewrite Hlen |].
    intros [|i] props Hi; simpl in Hi.
    + injection Hi as <-. exists n0. split; [reflexivity |].
      now rewrite Nat.add_0_r.
    + destruct (Hat i props Hi) as (n & Hn & Hnorm).
      exists n. split; [exact Hn |].
      now replace (index + S i) with (S index + i) by lia.
Qed.

Lemma normalizeSegment_provenance (now : string) (segment : Server.any) (index : nat)
  (n : Server.Normalized.t) :
  normalizeSegment now segment index = Some n ->
  Server.Normalized.provenance n = analysisProvenance now.
Proof. intros Hn. apply (normalizeSegment_fields _ _ _ _ Hn). Qed.

Lemma normalizeFrom_provenance (now : string) (segs : list Server.any) :
  forall index ns,
    normalizeFrom now index segs = Some ns ->
    Forall (fun n => Server.Normalized.provenance n = analysisProvenance now) ns.
Proof.
  induction segs as [|segment segs IH]; intros index ns; cbn [Server.normalizeFrom].
  - intros H. injection H as <-. constructor.
  - destruct (normalizeSegment now segment index) as [n|] eqn:Hn; [| discriminate].
    destruct (normalizeFrom now (S index) segs) as [ns'|] eqn:Hns; [| discriminate].
    intros H. injection H as <-. constructor.
    + now apply normalizeSegment_provenance in Hn.
    + now apply (IH (S index)).
Qed.

(** The summaries of the normalized segments, position by position. *)
Lemma normalizeFrom_summaries (now : string) (segs : list Server.any) :
  forall index ns,
    normalizeFrom now index segs = Some ns ->
    map Server.Normalized.summary ns
    = map (fun segment =>
             Server.or_ (fieldOf segment "summary")
               (Server.str "Segment summary unavailable.")) segs.
Proof.
  induction segs as [|segment segs IH]; intros index ns; cbn [Server.normalizeFrom].
  - now intros [= <-].
  - destruct (normalizeSegment now segment index) as [n|] eqn:Hn; [| discriminate].
    destruct (normalizeFrom now (S index) segs) as [ns'|] eqn:Hns; [| discriminate].
    intros [= <-]. cbn [map]. f_equal; [| now apply (IH (S index))].
    apply (normalizeSegment_fields _ _ _ _ Hn).
Qed.

(** The temporal index cannot be built exactly when a summary does not
    convert. *)
Lemma buildTemporalIndex_None (ns : list Server.Normalized.t) :
  buildTemporalIndex ns = None <->
  existsb (fun summary => negb (convertible summary)) (map Server.Normalized.summary ns)
  = true.
Proof.
  unfold Server.buildTemporalIndex.
  destruct (Server.collect _) as [lines|] eqn:Hlines; cbn [option_map].
  - split; [discriminate |]. intros Hsome. exfalso.
    apply existsb_exists in Hsome as (summary & Hin & Hsummary).
    apply in_map_iff in Hin as (n & <- & Hn).
    assert (Hnone : Server.collect
                      (map (fun segment =>
                              option_map
                                (fun summary =>
                                   toFixed2 (Server.Normalized.start_time segment) ++ "-"
                                   ++ toFixed2 (Server.Normalized.end_time segment) ++ ": "
                                   ++ summary)
                                (ToString (Server.Normalized.summary segment))) ns) = None).
    { apply collect_map_None. exists n. split; [exact Hn |].
      apply negb_true_iff, ToString_None in Hsummary. now rewrite Hsummary. }
    congruence.
  - split; [| reflexivity]. intros _.
    apply collect_map_None in Hlines as (n & Hn & Hline).
    apply existsb_exists. exists (Server.Normalized.summary n).
    split; [now apply in_map |].
    apply negb_true_iff, ToString_None. now destruct (ToString _).
Qed.

Lemma normalizeFrom_length (now : string) (segs : list Server.any) :
  forall index ns, normalizeFrom now index segs = Some ns -> length ns = length segs.
Proof.
  induction segs as [|segment segs IH]; intros index ns; cbn [Server.normalizeFrom].
  - now intros [= <-].
  - destruct (normalizeSegment now segment index) as [n|]; [| discriminate].
    destruct (normalizeFrom now (S index) segs) as [ns'|] eqn:Hns; [| discriminate].
    intros [= <-]. cbn [length]. f_equal. now apply (IH (S index)).
Qed.

Lemma analyzeParsed_segments (now : string) (parsed : Server.any)
  (payload : Server.AnalyzePayload) :
  analyzeParsed now parsed = Some payload ->
  exists segs,
    normalizeFrom now 0 segs = Some (Server.segments payload) /\
    forall items, Server.get parsed "segments" = Some (Server.array items) -> segs = items.
Proof.
  unfold Server.analyzeParsed.
  destruct (Server.get parsed "segments") as [parsedSegments|]; [| discriminate].
  set (segs := match parsedSegments with
               | Server.array items => items
               | _ => []
               end).
  destruct (normalizeFrom now 0 segs) as [ns|] eqn:Hns; [| discriminate].
  cbn zeta. destruct (if Server.truthy _ then _ else _); [| discriminate].
  intros H. injection H as <-. exists segs. split; [exact Hns |].
  now intros items [= ->].
Qed.


(** With the API key set, a transcript in the request and a model answer
    that [toJson] can read, the handler answers with the payload. *)
Lemma analyze_answers (JSON_parse : string -> option Server.any) (c : ascii)
  (transcript rawText now : string) (parsed : Server.any) (payload : Server.AnalyzePayload) :
  Server.toJson JSON_parse rawText = Some parsed ->
  analyzeParsed now parsed = Some payload ->
  Server.analyze StringToNumber digitsOf toFixed2 JSON_parse true
    (Some (String c transcript)) (Fulfilled (Some rawText)) now
  = Server.json payload.
Proof.
  intros Hjson Hpayload. unfold Server.analyze. cbn [negb default from_option id].
  rewrite orString_empty, Hjson, Hpayload. reflexivity.
Qed.

(** C10: the handler's answer has one segment for each element of the
    model's [segments], and every one of them has the provenance the handler
    writes, with the review status [unreviewed], whatever the model's output
    held; and when the body the client reads carries, segment by segment, the
    provenances sent, the completion handler puts every one of them in the
    store: the freshly analysed collection is the collection read, it has
    one segment for each segment of the answer, in the order of the answer,
    and each has that provenance. *)
Theorem analysis_provenance (now : string) (parsed : Server.any)
  (payload : Server.AnalyzePayload) (result : geminiService.AnalysisResult)
  (body : string) (app : AppState.t) (item : ArchivalAudioItem.t) :
  analyzeParsed now parsed = Some payload ->
  Forall2 (fun n s => StructuralSegment.provenance s = Server.Normalized.provenance n)
    (Server.segments payload) (geminiService.segments result) ->
  AppState.item app = Some item ->
  let response := geminiService.mkResponse true body (Fulfilled result) in
  let completed :=
    reader_onload (geminiService.suggestArchivalSegments (Fulfilled response)) app in
  (forall items,
      Server.get parsed "segments" = Some (Server.array items) ->
      length (Server.segments payload) = length items) /\
  Forall (fun n => Server.Normalized.provenance n = analysisProvenance now)
    (Server.segments payload) /\
  segmentsOf completed = geminiService.segments result /\
  length (segmentsOf completed) = length (Server.segments payload) /\
  Forall2 (fun n s => StructuralSegment.provenance s = Server.Normalized.provenance n /\
                      StructuralSegment.provenance s = analysisProvenance now /\
                      Provenance.human_review_status (StructuralSegment.provenance s)
                      = unreviewed)
    (Server.segments payload) (segmentsOf completed) /\
  Forall (fun s => StructuralSegment.provenance s = analysisProvenance now)
    (segmentsOf completed) /\
  Forall (fun s => Provenance.human_review_status (StructuralSegment.provenance s)
                   = unreviewed)
    (segmentsOf completed).
Proof.
  intros Hpayload Hbody Hitem response completed.
  assert (Hserver : Forall (fun n => Server.Normalized.provenance n = analysisProvenance now)
                      (Server.segments payload)).
  { destruct (analyzeParsed_segments now parsed payload Hpayload) as (segs & Hsegs & _).
    now apply normalizeFrom_provenance in Hsegs. }
  assert (Hcount : forall items,
            Server.get parsed "segments" = Some (Server.array items) ->
            length (Server.segments payload) = length items).
  { intros items Hitems.
    destruct (analyzeParsed_segments now parsed payload Hpayload) as (segs & Hsegs & Hsame).
    rewrite <- (Hsame items Hitems). now apply normalizeFrom_length in Hsegs. }
  assert (Hstored : segmentsOf completed = geminiService.segments result).
  { subst completed response. cbn [geminiService.suggestArchivalSegments geminiService.ok
      geminiService.json negb].
    exact (segmentsOf_reader_onload result app item Hitem). }
  assert (Hlinked :
    Forall2 (fun n s => StructuralSegment.provenance s = Server.Normalized.provenance n /\
                        StructuralSegment.provenance s = analysisProvenance now /\
                        Provenance.human_review_status (StructuralSegment.provenance s)
                        = unreviewed)
      (Server.segments payload) (geminiService.segments result)).
  { clear Hpayload Hstored Hcount.
    induction Hbody as [|n s ns ss Hns _ IH]; [constructor |].
    inversion Hserver as [|? ? Hn Hrest]; subst. constructor; [| now apply IH].
    rewrite Hns, Hn. now repeat split. }
  assert (Hstore : Forall (fun s => StructuralSegment.provenance s = analysisProvenance now)
                     (geminiService.segments result)).
  { clear Hbody Hstored Hcount. induction Hlinked as [|n s ns ss (_ & Hs & _) _ IH];
      constructor; [exact Hs |].
    inversion Hserver; subst. now apply IH. }
  rewrite Hstored.
  split; [exact Hcount |]. split; [exact Hserver |]. split; [reflexivity |].
  split; [symmetry; exact (Forall2_length _ _ _ Hlinked) |].
  split; [exact Hlinked |]. split; [exact Hstore |].
  revert Hstore. apply List.Forall_impl. intros s ->. reflexivity.
Qed.

End HandlerFacts.

Example analyzeParsed_parsed0 :
  Server.analyzeParsed noNumber noDigits noDigits now0 parsed0 = Some payload0.
Proof. reflexivity. Qed.

(** A [null] among the segments makes the handler answer with an error. *)
Example analyzeParsed_null_segment :
  Server.analyzeParsed noNumber noDigits noDigits now0
    (Server.object [("segments", Server.array [Server.null])]) = None.
Proof. reflexivity. Qed.



Lemma analysis_provenance_witness :
  segmentsOf
    (reader_onload
       (geminiService.suggestArchivalSegments
          (Fulfilled (geminiService.mkResponse true "{...}" (Fulfilled result0))))
       (analysing item0))
  = geminiService.segments result0 /\
  length (geminiService.segments result0) = length (Server.segments payload0) /\
  Forall (fun s => Provenance.human_review_status (StructuralSegment.provenance s)
                   = unreviewed)
    (geminiService.segments result0).
Proof.
  destruct (analysis_provenance noNumber noDigits noDigits now0 parsed0 payload0
              result0 "{...}" (analysing item0) _ eq_refl
              ltac:(repeat constructor) eq_refl)
    as (_ & _ & Hstored & Hlength & _ & _ & Hunreviewed).
  rewrite Hstored in Hlength, Hunreviewed. now repeat split.
Defined.

(** ** Further properties of the store and the pipeline *)

Lemma updateSegment_sorts_witness :
  sortedByStartTime
    (segmentsOf (updateSegment "seg_1" patch_end_58 (analysed [seg_2; seg_1]))).
Proof.
  apply updateSegment_sorts. repeat constructor.
Defined.

Lemma updateSegment_stable_witness :
  List.filter (fun s => (StructuralSegment.start_time s =? 0)%float)
    (segmentsOf (updateSegment "seg_1" patch_end_58 (analysed [seg_2; seg_1; seg_1b])))
  = [updateOne "seg_1" patch_end_58 seg_1; seg_1b].
Proof.
  refine (proj1 (updateSegment_stable "seg_1" patch_end_58 (analysed [seg_2; seg_1; seg_1b]) _)
            0%float).
  repeat constructor.
Defined.

(** The completion handler stores the segments of the result as they are,
    review statuses included, in the order of the result. *)
Lemma replaceAll_stores_result (result : geminiService.AnalysisResult) (app : AppState.t)
  (item : ArchivalAudioItem.t) :
  AppState.item app = Some item ->
  segmentsOf (reader_onload (Fulfilled result) app) = geminiService.segments result /\
  AppState.state (reader_onload (Fulfilled result) app) = COMPLETED.
Proof.
  intros Hitem. split; [now apply (segmentsOf_reader_onload result app item) |].
  destruct app. reflexivity.
Qed.

Lemma replaceAll_stores_result_witness :
  segmentsOf (reader_onload (Fulfilled staleResult) secondSession) = [seg_1; seg_2].
Proof.
  exact (proj1 (replaceAll_stores_result staleResult secondSession item1 eq_refl)).
Defined.

(** A failure before the transcript exists (checksum, or transcription) ends
    in the error state with the fixed text of the outer [catch]. *)
Lemma ingest_failure (err : Error) (url : string) (app : AppState.t) :
  AppState.state (processBlob_checksum (Rejected err) url app) = ERROR /\
  AppState.error (processBlob_checksum (Rejected err) url app)
  = Some "Critical ingest error." /\
  AppState.state (processBlob_transcribed (Rejected err) app) = ERROR /\
  AppState.error (processBlob_transcribed (Rejected err) app)
  = Some "Critical ingest error.".
Proof. destruct app. repeat split. Qed.

(** A failure leaves the record as it was: what was computed before it stays
    in memory. *)
Lemma failure_keeps_record (err : Error) (url : string) (app : AppState.t) :
  AppState.item (processBlob_checksum (Rejected err) url app) = AppState.item app /\
  AppState.item (processBlob_transcribed (Rejected err) app) = AppState.item app /\
  AppState.item (reader_onload (Rejected err) app) = AppState.item app /\
  AppState.audioUrl (reader_onload (Rejected err) app) = AppState.audioUrl app.
Proof. destruct app. repeat split. Qed.

(** * Further properties of the code *)

(** ** Reading an export back *)

Lemma append_String (c : ascii) (a b : string) : String c a ++ b = String c (a ++ b).
Proof. reflexivity. Qed.

Lemma append_Empty (b : string) : EmptyString ++ b = b.
Proof. reflexivity. Qed.

Lemma append_assoc (a b c : string) : (a ++ b) ++ c = a ++ (b ++ c).
Proof.
  induction a as [|ch a IH]; [reflexivity |].
  rewrite !append_String. now rewrite IH.
Qed.

Lemma append_empty_r (a : string) : a ++ EmptyString = a.
Proof.
  induction a as [|ch a IH]; [reflexivity |].
  rewrite append_String. now rewrite IH.
Qed.

Lemma append_char (field : string) (c : ascii) (v : string) :
  (field ++ String c EmptyString) ++ v = field ++ String c v.
Proof. now rewrite append_assoc. Qed.

Lemma not_Special_cons (c : ascii) (v : string) :
  ~ Special (String c v) ->
  c <> JS.comma /\ c <> JS.quote /\ c <> JS.newline /\ ~ Special v.
Proof.
  unfold Special, Contains. simpl. intros H.
  repeat split; try (intros ->; apply H; auto).
  intros [Hv | [Hv | Hv]]; apply H; auto.
Qed.

Lemma readCsvFrom_plain (v : string) :
  forall field fields rest,
    ~ Special v ->
    readCsvFrom Unquoted field fields (v ++ rest)
    = readCsvFrom Unquoted (field ++ v) fields rest.
Proof.
  induction v as [|c v IH]; intros field fields rest Hplain.
  - now rewrite append_Empty, append_empty_r.
  - apply not_Special_cons in Hplain as (Hc & Hq & Hn & Hv).
    rewrite append_String. cbn [readCsvFrom].
    rewrite (proj2 (Ascii.eqb_neq c JS.quote) Hq), (proj2 (Ascii.eqb_neq c JS.comma) Hc),
      (proj2 (Ascii.eqb_neq c JS.newline) Hn).
    rewrite IH by exact Hv. now rewrite append_char.
Qed.

Lemma readCsvFrom_quoted (v body : string) :
  Doubled v body ->
  forall field fields rest,
    readCsvFrom Quoted field fields (body ++ String JS.quote rest)
    = readCsvFrom Closing (field ++ v) fields rest.
Proof.
  induction 1 as [|v body _ IH|c v body Hc _ IH]; intros field fields rest.
  - rewrite append_Empty, append_empty_r. cbn [readCsvFrom]. now rewrite ?Ascii.eqb_refl.
  - rewrite !append_String. cbn [readCsvFrom]. rewrite ?Ascii.eqb_refl. cbn [readCsvFrom].
    rewrite ?Ascii.eqb_refl. rewrite IH. now rewrite append_char.
  - rewrite append_String. cbn [readCsvFrom]. rewrite (proj2 (Ascii.eqb_neq c JS.quote) Hc).
    rewrite IH. now rewrite append_char.
Qed.

Lemma readCsvFrom_separated (v : string) (fields : list string) (rest : string) :
  separated rest ->
  readCsvFrom Unquoted v fields rest = readCsvFrom Closing v fields rest.
Proof.
  destruct rest as [|c rest]; [reflexivity |]. intros [-> | ->]; reflexivity.
Qed.

(** Behind a serialized value the reader has read the value. *)
Lemma readCsvFrom_Serialized (v cell : string) (fields : list string) (rest : string) :
  Serialized v cell -> separated rest ->
  readCsvFrom Unquoted EmptyString fields (cell ++ rest)
  = readCsvFrom Closing v fields rest.
Proof.
  intros [Hplain | body Hspecial Hbody] Hrest.
  - rewrite readCsvFrom_plain by exact Hplain. rewrite append_Empty.
    now apply readCsvFrom_separated.
  - rewrite append_String. cbn [readCsvFrom]. rewrite ?Ascii.eqb_refl.
    rewrite append_assoc, append_String, append_Empty.
    now rewrite (readCsvFrom_quoted v body Hbody).
Qed.

(** A row of serialized values, and what follows it, read back. *)
Lemma readCsvFrom_row (values cells : list string) :
  Forall2 Serialized values cells ->
  values <> [] ->
  forall fields rest,
    separated rest -> (forall rest', rest <> String JS.comma rest') ->
    readCsvFrom Unquoted EmptyString fields (JS.join "," cells ++ rest)
    = match rest with
      | EmptyString => [(fields ++ values)%list]
      | String _ rest' =>
          (fields ++ values)%list :: readCsvFrom Unquoted EmptyString [] rest'
      end.
Proof.
  induction 1 as [|v cell values cells Hcell Hcells IH]; [congruence |].
  intros _ fields rest Hrest Hnocomma.
  destruct Hcells as [|v' cell' values' cells' Hcell' Hcells'].
  - unfold JS.join. cbn [String.concat].
    rewrite (readCsvFrom_Serialized v cell fields rest Hcell Hrest).
    destruct rest as [|c rest']; [reflexivity |].
    destruct Hrest as [-> | ->]; [now elim (Hnocomma rest') | reflexivity].
  - unfold JS.join in *.
    change (String.concat "," (cell :: cell' :: cells'))
      with (cell ++ "," ++ String.concat "," (cell' :: cells')).
    rewrite !append_assoc. rewrite append_String, append_Empty.
    rewrite (readCsvFrom_Serialized v cell fields) by (try exact Hcell; simpl; auto).
    change (readCsvFrom Closing v fields
              (String "," (String.concat "," (cell' :: cells') ++ rest)))
      with (readCsvFrom Unquoted EmptyString (fields ++ [v])%list
              (String.concat "," (cell' :: cells') ++ rest)).
    rewrite (IH ltac:(congruence) (fields ++ [v])%list rest Hrest Hnocomma).
    rewrite <- !app_assoc. reflexivity.
Qed.

Lemma headers_plain : Forall2 Serialized ARCHIVAL_CSV_HEADERS ARCHIVAL_CSV_HEADERS.
Proof.
  assert (Hcheck : forallb
            (fun h => negb (JS.includes JS.comma h || JS.includes JS.quote h
                            || JS.includes JS.newline h))
            ARCHIVAL_CSV_HEADERS = true) by (vm_compute; reflexivity).
  rewrite forallb_forall in Hcheck.
  assert (Hall : forall l, (forall h, In h l -> In h ARCHIVAL_CSV_HEADERS) ->
                           Forall2 Serialized l l).
  { induction l as [|h l IH]; intros Hsub; constructor.
    - apply Serialized_plain. specialize (Hcheck h (Hsub h (or_introl eq_refl))).
      apply negb_true_iff in Hcheck. apply orb_false_iff in Hcheck as [Hcq Hn].
      apply orb_false_iff in Hcq as [Hc Hq].
      apply includes_not_Contains in Hc, Hq, Hn. intros [H | [H | H]]; contradiction.
    - apply IH. intros h' Hin. apply Hsub. now right. }
  apply Hall. auto.
Qed.

Lemma cells_Serialized (metadata : DescriptiveMetadata) (hs : list string) :
  Forall2 Serialized (map (fieldValue metadata) hs) (map (csvValue metadata) hs).
Proof.
  induction hs as [|h hs IH]; simpl; constructor; [apply csvValue_Serialized | exact IH].
Qed.

Lemma readCsv_content (metadata : DescriptiveMetadata) :
  readCsv (csvHeader ++ String JS.newline EmptyString ++ csvRow metadata)
  = [ ARCHIVAL_CSV_HEADERS; map (fieldValue metadata) ARCHIVAL_CSV_HEADERS ].
Proof.
  unfold readCsv, csvHeader, csvRow.
  rewrite append_String, append_Empty.
  rewrite (readCsvFrom_row _ _ headers_plain) by (try discriminate; simpl; auto).
  cbn [app]. f_equal.
  rewrite <- (append_empty_r (JS.join "," _)).
  rewrite (readCsvFrom_row _ _ (cells_Serialized metadata ARCHIVAL_CSV_HEADERS))
    by (try discriminate; simpl; auto).
  reflexivity.
Qed.

(** A reader of comma-separated text reads an export back as two records:
    the names of [ARCHIVAL_CSV_HEADERS] in their order, and the values of
    those fields in the same order, whatever characters the values hold. *)
Theorem exportCSV_reads_back (item : ArchivalAudioItem.t) :
  option_map (fun d => readCsv (content d)) (exportCSV (Some item))
  = Some [ ARCHIVAL_CSV_HEADERS;
           map (fieldValue (ArchivalAudioItem.descriptive item)) ARCHIVAL_CSV_HEADERS ].
Proof.
  cbn [exportCSV option_map content]. f_equal. apply readCsv_content.
Qed.

Lemma fieldValue_insert (metadata : DescriptiveMetadata) (key val h : string) :
  fieldValue (<[key := val]> metadata) h
  = if String.eqb h key then val else fieldValue metadata h.
Proof.
  unfold fieldValue. destruct (String.eqb_spec h key) as [-> | Hne].
  - now rewrite lookup_insert_eq.
  - now rewrite lookup_insert_ne by congruence.
Qed.

Lemma updateDesc_item (key val : string) (app : AppState.t) (item : ArchivalAudioItem.t) :
  AppState.item app = Some item ->
  AppState.item (updateDesc key val app)
  = Some (withDescriptive (<[key := val]> (ArchivalAudioItem.descriptive item)) item).
Proof.
  intros Hitem. unfold updateDesc. rewrite Hitem. destruct app. reflexivity.
Qed.

(** An edit of a descriptive field shows in the next export: read back, the
    export holds the new value under the edited name and the values it had
    under every other name. *)
Theorem updateDesc_exported (key val : string) (app : AppState.t)
  (item : ArchivalAudioItem.t) :
  AppState.item app = Some item ->
  option_map (fun d => readCsv (content d))
    (exportCSV (AppState.item (updateDesc key val app)))
  = Some [ ARCHIVAL_CSV_HEADERS;
           map (fun h => if String.eqb h key then val
                         else fieldValue (ArchivalAudioItem.descriptive item) h)
             ARCHIVAL_CSV_HEADERS ].
Proof.
  intros Hitem. rewrite (updateDesc_item key val app item Hitem).
  cbn [exportCSV option_map content]. rewrite readCsv_content. do 3 f_equal.
  apply map_ext. intros h. destruct item. apply fieldValue_insert.
Qed.

Lemma updateDesc_exported_witness :
  option_map (fun d => readCsv (content d))
    (exportCSV (AppState.item (updateDesc "title" heSaid (analysed [seg_1; seg_2]))))
  = Some [ ARCHIVAL_CSV_HEADERS;
           map (fun h => if String.eqb h "title" then heSaid
                         else fieldValue (ArchivalAudioItem.descriptive analysedItem) h)
             ARCHIVAL_CSV_HEADERS ].
Proof.
  exact (updateDesc_exported "title" heSaid (analysed [seg_1; seg_2]) analysedItem eq_refl).
Defined.

(** A field whose name is not in [ARCHIVAL_CSV_HEADERS] (the transcript and
    the temporal index are two) is never exported: editing it changes
    neither the content nor the name of the export. *)
Theorem export_ignores_other_fields (key val : string) (app : AppState.t) :
  ~ In key ARCHIVAL_CSV_HEADERS ->
  exportCSV (AppState.item (updateDesc key val app)) = exportCSV (AppState.item app).
Proof.
  intros Hkey. destruct (AppState.item app) as [item|] eqn:Hitem.
  - rewrite (updateDesc_item key val app item Hitem). destruct item as [metadata t a st].
    cbn [exportCSV withDescriptive ArchivalAudioItem.descriptive]. do 2 f_equal.
    + unfold csvRow. do 2 f_equal. f_equal. apply map_ext_in. intros h Hh.
      unfold csvValue. rewrite lookup_insert_ne; [reflexivity |].
      intros ->. contradiction.
    + rewrite lookup_insert_ne; [reflexivity |].
      intros ->. apply Hkey. do 7 right. now left.
  - unfold updateDesc. rewrite Hitem. now rewrite Hitem.
Qed.

Lemma transcript_not_a_header :
  ~ In "transcript" ARCHIVAL_CSV_HEADERS /\ ~ In "temporal_index" ARCHIVAL_CSV_HEADERS.
Proof.
  assert (Hnot : forall key, existsb (String.eqb key) ARCHIVAL_CSV_HEADERS = false ->
                             ~ In key ARCHIVAL_CSV_HEADERS).
  { intros key Hb Hin. assert (existsb (String.eqb key) ARCHIVAL_CSV_HEADERS = true).
    { apply existsb_exists. exists key. split; [exact Hin | apply String.eqb_refl]. }
    congruence. }
  split; apply Hnot; vm_compute; reflexivity.
Qed.

Lemma export_ignores_other_fields_witness :
  exportCSV (AppState.item (updateDesc "transcript" "Another text" (analysed [seg_1; seg_2])))
  = exportCSV (AppState.item (analysed [seg_1; seg_2])).
Proof.
  apply export_ignores_other_fields. exact (proj1 transcript_not_a_header).
Defined.

(** ** The record an ingest starts with *)

Lemma assign_cons (kv : string * string) (props : list (string * string))
  (obj : DescriptiveMetadata) :
  assign (kv :: props) obj = assign props (<[kv.1 := kv.2]> obj).
Proof. reflexivity. Qed.

Lemma lookup_assign_other (k : string) (props : list (string * string)) :
  forall obj, ~ In k (map fst props) -> assign props obj !! k = obj !! k.
Proof.
  induction props as [|kv props IH]; intros obj Hk; [reflexivity |].
  rewrite assign_cons, IH by (intros Hin; apply Hk; now right).
  apply lookup_insert_ne. intros Heq. apply Hk. now left.
Qed.

Lemma lookup_assign_same (k v : string) (props : list (string * string)) :
  (forall kv, In kv props -> kv.2 = v) ->
  forall obj, In k (map fst props) -> assign props obj !! k = Some v.
Proof.
  intros Hv. induction props as [|kv props IH]; intros obj Hk; [contradiction |].
  rewrite assign_cons.
  destruct (in_dec string_dec k (map fst props)) as [Hin | Hnotin].
  - apply IH; [intros kv' Hkv'; apply Hv; now right | exact Hin].
  - rewrite lookup_assign_other by exact Hnotin.
    destruct Hk as [Hk | Hk]; [| contradiction].
    rewrite Hk, (Hv kv (or_introl eq_refl)). apply lookup_insert_eq.
Qed.

Lemma initialDescriptive_header (h : string) :
  In h ARCHIVAL_CSV_HEADERS -> initialDescriptive !! h = Some EmptyString.
Proof.
  intros Hh. unfold initialDescriptive. apply lookup_assign_same.
  - intros kv Hkv. apply in_map_iff in Hkv as (h' & <- & _). reflexivity.
  - rewrite map_map. cbn [fst]. now rewrite map_id.
Qed.

(** Every field an export asks for is defined in the record an ingest
    starts with, so its export has no missing field: the fields are empty,
    except the identifier, the title, the waiting description, the level
    Item, the repository, the language en and the two rights statements.  The
    transcript and the temporal index start empty. *)
Theorem initialItem_fields (identifier fileName container_format : string)
  (duration size : JS.number) (checksum : string) :
  let metadata :=
    ArchivalAudioItem.descriptive
      (initialItem identifier fileName container_format duration size checksum) in
  (forall h, In h ARCHIVAL_CSV_HEADERS -> is_Some (metadata !! h)) /\
  (forall h, In h ARCHIVAL_CSV_HEADERS -> ~ In h seededNames ->
             metadata !! h = Some EmptyString) /\
  metadata !! "identifier" = Some identifier /\
  metadata !! "title" = Some (JS.orString (splitDotFirst fileName) "Archival Record") /\
  metadata !! "description" = Some "Awaiting semantic abstract..." /\
  metadata !! "isadg.levelOfDescription" = Some "Item" /\
  metadata !! "isadg.repository" = Some "Irish Traditional Music Archive" /\
  metadata !! "isadg.language" = Some "en" /\
  metadata !! "rights" = Some "In copyright" /\
  metadata !! "dc.rights" = Some "In copyright" /\
  metadata !! "transcript" = Some EmptyString /\
  metadata !! "temporal_index" = Some EmptyString.
Proof.
  intros metadata. subst metadata. cbn [initialItem ArchivalAudioItem.descriptive].
  set (seeds := [ ("identifier", identifier); _; _; _; _; _; _; _; _; _ ]).
  assert (Hnames : map fst seeds = seededNames) by reflexivity.
  assert (Hother : forall h, In h ARCHIVAL_CSV_HEADERS -> ~ In h seededNames ->
                             assign seeds initialDescriptive !! h = Some EmptyString).
  { intros h Hh Hseed. rewrite lookup_assign_other by now rewrite Hnames.
    now apply initialDescriptive_header. }
  split; [| split; [exact Hother |]].
  - intros h Hh. destruct (in_dec string_dec h seededNames) as [Hseed | Hseed].
    + subst seeds. unfold assign. cbn [fold_left fst snd].
      repeat (destruct Hseed as [<- | Hseed];
              [eexists; repeat (rewrite lookup_insert_ne by discriminate);
               apply lookup_insert_eq |]).
      contradiction.
    + rewrite Hother by assumption. now eexists.
  - subst seeds. unfold assign. cbn [fold_left fst snd].
    repeat split; repeat (rewrite lookup_insert_ne by discriminate);
      apply lookup_insert_eq.
Qed.

Lemma splitDotFirst_no_dot (fileName : string) : ~ Contains "."%char (splitDotFirst fileName).
Proof.
  unfold Contains. induction fileName as [|c rest IH]; simpl; [tauto |].
  destruct (Ascii.eqb_spec c "."%char) as [-> | Hne]; simpl; [tauto |].
  intros [Heq | Hin]; [contradiction | now apply IH].
Qed.

Lemma splitDotFirst_prefix (name rest : string) :
  ~ Contains "."%char name ->
  splitDotFirst (name ++ String "."%char rest) = name /\ splitDotFirst name = name.
Proof.
  unfold Contains. induction name as [|c name IH]; intros Hname; [split; reflexivity |].
  rewrite append_String. cbn [splitDotFirst].
  destruct (Ascii.eqb_spec c "."%char) as [-> | Hne].
  - exfalso. apply Hname. now left.
  - destruct IH as [IH1 IH2]; [intros Hin; apply Hname; now right |].
    now rewrite IH1, IH2.
Qed.

(** The title of a new record is the file name up to its first dot, and
    never empty: a name with nothing in front of its first dot, and the empty
    name, give the title Archival Record.  The title holds no dot. *)
Theorem initialItem_title (identifier fileName container_format : string)
  (duration size : JS.number) (checksum : string) :
  exists title,
    ArchivalAudioItem.descriptive
      (initialItem identifier fileName container_format duration size checksum)
    !! "title" = Some title /\
    title <> EmptyString /\
    ~ Contains "."%char title /\
    (forall name rest,
       name <> EmptyString -> ~ Contains "."%char name ->
       fileName = name ++ String "."%char rest \/ fileName = name ->
       title = name) /\
    (forall rest,
       fileName = EmptyString \/ fileName = String "."%char rest ->
       title = "Archival Record").
Proof.
  exists (JS.orString (splitDotFirst fileName) "Archival Record").
  split.
  { cbn [initialItem ArchivalAudioItem.descriptive]. unfold assign. cbn [fold_left fst snd].
    repeat (rewrite lookup_insert_ne by discriminate). apply lookup_insert_eq. }
  split; [destruct (splitDotFirst fileName); discriminate |].
  split.
  - pose proof (splitDotFirst_no_dot fileName) as Hdot.
    destruct (splitDotFirst fileName); [| exact Hdot].
    unfold Contains. simpl. intros H. repeat (destruct H as [H | H]; [discriminate |]).
    contradiction.
  - split.
    + intros name rest Hname Hdot Hfile.
      destruct (splitDotFirst_prefix name rest Hdot) as [H1 H2].
      destruct Hfile as [-> | ->]; [rewrite H1 | rewrite H2];
        destruct name; [contradiction | reflexivity | contradiction | reflexivity].
    + intros rest [-> | ->]; reflexivity.
Qed.

(** ** More on [updateSegment] *)

Lemma spread_idem {A : Type} (base : A) (over : option A) :
  JS.spread (JS.spread base over) over = JS.spread base over.
Proof. now destruct over. Qed.

Lemma patched_idem (s : StructuralSegment.t) (updates : SegmentPatch.t) :
  patched (patched s updates) updates = patched s updates.
Proof.
  unfold patched, spreadSegment.
  cbn [StructuralSegment.id StructuralSegment.start_time StructuralSegment.end_time
       StructuralSegment.type StructuralSegment.summary StructuralSegment.confidence
       StructuralSegment.alternatives StructuralSegment.notes StructuralSegment.provenance
       StructuralSegment.segment_metadata].
  now rewrite !spread_idem.
Qed.

Lemma updateOne_idem (segId : string) (updates : SegmentPatch.t) (s : StructuralSegment.t) :
  updateOne segId updates (updateOne segId updates s) = updateOne segId updates s.
Proof.
  unfold updateOne. destruct (String.eqb (StructuralSegment.id s) segId) eqn:Hs.
  - destruct (String.eqb (StructuralSegment.id (patched s updates)) segId);
      [apply patched_idem | reflexivity].
  - now rewrite Hs.
Qed.

Lemma map_fixed {A : Type} (f : A -> A) (l : list A) :
  (forall x, In x l -> f x = x) -> map f l = l.
Proof.
  induction l as [|x l IH]; intros Hfix; [reflexivity |]. simpl.
  rewrite Hfix by now left. rewrite IH; [reflexivity |].
  intros y Hy. apply Hfix. now right.
Qed.

Lemma updateSegments_idem (segId : string) (updates : SegmentPatch.t)
  (segs : list StructuralSegment.t) :
  numericTimes (map (updateOne segId updates) segs) ->
  updateSegments segId updates (updateSegments segId updates segs)
  = updateSegments segId updates segs.
Proof.
  intros Hnumeric. unfold updateSegments at 1.
  rewrite map_fixed.
  - apply (sort_ascending_unchanged byStartTime StructuralSegment.start_time);
      [reflexivity |].
    now apply (sort_ascending byStartTime StructuralSegment.start_time).
  - intros s' Hs'. apply updateSegments_In in Hs' as (s & _ & ->). apply updateOne_idem.
Qed.

(** Applying the same edit twice is applying it once, when the edit leaves
    no [start_time] NaN: the second call changes nothing, whether or not the
    patch renames the segment. *)
Theorem updateSegment_idempotent (segId : string) (updates : SegmentPatch.t)
  (app : AppState.t) :
  numericTimes (map (updateOne segId updates) (segmentsOf app)) ->
  updateSegment segId updates (updateSegment segId updates app)
  = updateSegment segId updates app.
Proof.
  destruct app as [st [[d t a [segs]]|] err url ct pl sel tab ed nar]; [| reflexivity].
  unfold segmentsOf. cbn -[updateSegments updateOne]. intros Hnumeric.
  rewrite (updateSegments_idem _ _ _ Hnumeric). reflexivity.
Qed.

Lemma updateSegment_idempotent_witness :
  updateSegment "seg_1" patch_identity
    (updateSegment "seg_1" patch_identity (analysed [seg_2; seg_1]))
  = updateSegment "seg_1" patch_identity (analysed [seg_2; seg_1]).
Proof.
  apply updateSegment_idempotent. repeat constructor.
Defined.

(** An edit never adds or drops a segment and touches nothing but the
    segments: the collection afterwards is a rearrangement of the patched
    collection, of the same length, and the descriptive, technical and
    administrative parts of the record and the rest of the state are as they
    were. *)
Theorem updateSegment_frame (segId : string) (updates : SegmentPatch.t) (app : AppState.t) :
  let after := updateSegment segId updates app in
  Permutation (segmentsOf after) (map (updateOne segId updates) (segmentsOf app)) /\
  length (segmentsOf after) = length (segmentsOf app) /\
  option_map ArchivalAudioItem.descriptive (AppState.item after)
  = option_map ArchivalAudioItem.descriptive (AppState.item app) /\
  option_map ArchivalAudioItem.technical (AppState.item after)
  = option_map ArchivalAudioItem.technical (AppState.item app) /\
  option_map ArchivalAudioItem.administrative (AppState.item after)
  = option_map ArchivalAudioItem.administrative (AppState.item app) /\
  setItem (fun _ => AppState.item app) after = app.
Proof.
  intros after. subst after.
  assert (Hperm : Permutation (segmentsOf (updateSegment segId updates app))
                    (map (updateOne segId updates) (segmentsOf app))).
  { rewrite segmentsOf_updateSegment. apply sort_Permutation. }
  split; [exact Hperm |].
  split; [rewrite (Permutation_length Hperm); apply length_map |].
  destruct app as [st [item|] err url ct pl sel tab ed nar]; repeat split.
Qed.

(** ** The text [toJson] hands to [JSON.parse] *)

Lemma Contains_String (c ch : ascii) (s : string) :
  Contains c (String ch s) <-> ch = c \/ Contains c s.
Proof. reflexivity. Qed.

Lemma fromFirst_Some (c : ascii) (s tail : string) :
  Server.fromFirst c s = Some tail <->
  exists pre rest, s = pre ++ String c rest /\ ~ Contains c pre /\ tail = String c rest.
Proof.
  induction s as [|ch s IH]; cbn [Server.fromFirst].
  - split; [discriminate |]. intros ([|? ?] & rest & H & _); discriminate.
  - destruct (Ascii.eqb_spec ch c) as [->|Hne].
    + split.
      * intros [= <-]. exists EmptyString, s. repeat split. intros [].
      * intros ([|ch' pre] & rest & H & Hpre & ->).
        -- rewrite append_Empty in H. congruence.
        -- rewrite append_String in H. injection H as -> _.
           exfalso. apply Hpre. now left.
    + rewrite IH. split.
      * intros (pre & rest & -> & Hpre & ->). exists (String ch pre), rest.
        repeat split. intros [H|H]; [now apply Hne | now apply Hpre].
      * intros ([|ch' pre] & rest & H & Hpre & ->).
        -- rewrite append_Empty in H. injection H as H _. now destruct Hne.
        -- rewrite append_String in H. injection H as <- ->.
           exists pre, rest. repeat split. intros H. apply Hpre. now right.
Qed.

Lemma throughLast_None (c : ascii) (s : string) :
  Server.throughLast c s = None <-> ~ Contains c s.
Proof.
  induction s as [|ch s IH]; cbn [Server.throughLast].
  - split; [intros _ [] | reflexivity].
  - rewrite Contains_String. destruct (Server.throughLast c s) as [r|].
    + split; [discriminate |]. intros H. exfalso.
      assert (Hr : Some r = None) by (apply IH; intros Hs; apply H; now right).
      discriminate.
    + destruct (Ascii.eqb_spec ch c) as [->|Hne].
      * split; [discriminate |]. intros H. exfalso. apply H. now left.
      * split; [| reflexivity]. intros _ [H|H]; [now apply Hne | now apply (proj1 IH)].
Qed.

Lemma throughLast_Some (c : ascii) (s r : string) :
  Server.throughLast c s = Some r <->
  exists mid post, s = mid ++ String c post /\ ~ Contains c post
                   /\ r = mid ++ String c EmptyString.
Proof.
  revert r. induction s as [|ch s IH]; intros r; cbn [Server.throughLast].
  - split; [discriminate |]. intros ([|? ?] & post & H & _); discriminate.
  - destruct (Server.throughLast c s) as [r'|] eqn:Hlast.
    + split.
      * intros [= <-]. destruct (proj1 (IH r') eq_refl) as (mid & post & -> & Hpost & ->).
        exists (String ch mid), post. repeat split. exact Hpost.
      * intros ([|ch' mid] & post & H & Hpost & ->).
        -- rewrite append_Empty in H. injection H as -> ->.
           apply throughLast_None in Hpost. congruence.
        -- rewrite append_String in H. injection H as <- ->.
           rewrite append_String. f_equal. f_equal.
           assert (Hr : Some r' = Some (mid ++ String c EmptyString));
             [| now injection Hr].
           apply IH. now exists mid, post.
    + apply throughLast_None in Hlast. destruct (Ascii.eqb_spec ch c) as [->|Hne].
      * split.
        -- intros [= <-]. exists EmptyString, s. repeat split. exact Hlast.
        -- intros ([|ch' mid] & post & H & Hpost & ->).
           ++ reflexivity.
           ++ rewrite append_String in H. injection H as _ ->.
              exfalso. apply Hlast. clear.
              induction mid as [|m mid IHm]; [now left | now right].
      * split; [discriminate |].
        intros ([|ch' mid] & post & H & Hpost & ->).
        -- rewrite append_Empty in H. injection H as H _. now destruct Hne.
        -- rewrite append_String in H. injection H as _ ->.
           exfalso. apply Hlast. clear.
           induction mid as [|m mid IHm]; [now left | now right].
Qed.

(** What [rawText.match(/\{[\s\S]*\}/)] finds: the text from the first
    opening brace to the last closing brace behind it, both included, whatever
    stands around them and whatever braces lie between; and no match exactly
    when no closing brace follows an opening one. *)
Theorem matchBraces_spec (rawText matched : string) :
  Server.matchBraces rawText = Some matched <->
  exists pre mid post,
    rawText = pre ++ "{" ++ mid ++ "}" ++ post /\
    ~ Contains "{" pre /\ ~ Contains "}" post /\
    matched = "{" ++ mid ++ "}".
Proof.
  unfold Server.matchBraces. split.
  - destruct (Server.fromFirst "{" rawText) as [tail|] eqn:Hfirst; [| discriminate].
    apply fromFirst_Some in Hfirst as (pre & rest & -> & Hpre & ->).
    intros Hlast. apply throughLast_Some in Hlast as (mid & post & Hsplit & Hpost & ->).
    destruct mid as [|ch mid].
    + rewrite append_Empty in Hsplit. discriminate.
    + rewrite append_String in Hsplit. injection Hsplit as <- ->.
      exists pre, mid, post. repeat split; assumption.
  - intros (pre & mid & post & -> & Hpre & Hpost & ->).
    assert (Hfirst : Server.fromFirst "{" (pre ++ "{" ++ mid ++ "}" ++ post)
                     = Some ("{" ++ mid ++ "}" ++ post)).
    { apply fromFirst_Some. exists pre, (mid ++ "}" ++ post). repeat split. exact Hpre. }
    rewrite Hfirst. apply throughLast_Some.
    exists (String "{" mid), post. repeat split. exact Hpost.
Qed.

(** ** Transcription and narration, from the provider to the client *)

Lemma orString_nonempty (a b : string) : b <> EmptyString -> JS.orString a b <> EmptyString.
Proof. now destruct a. Qed.

(** A text reply of the handler always carries a failing status and a text
    that is not empty. *)
Lemma transcribe_replyText (elevenLabsApiKey : option string) (fileProvided : bool)
  (fetched : Settled (Server.Upstream geminiService.TranscribeData))
  (status : nat) (text : string) :
  Server.transcribe elevenLabsApiKey fileProvided fetched = Server.replyText status text ->
  Server.statusOk status = false /\ text <> EmptyString.
Proof.
  unfold Server.transcribe.
  destruct (Server.present elevenLabsApiKey); cbn [negb]; [| now intros [= <- <-]].
  destruct fileProvided; cbn [negb]; [| now intros [= <- <-]].
  destruct fetched as [response|err]; [| now intros [= <- <-]].
  destruct (Server.statusOk (Server.status response)) eqn:Hok; cbn [negb].
  - destruct (Server.body response); [discriminate | now intros [= <- <-]].
  - destruct (Server.text response) as [message|err]; [| now intros [= <- <-]].
    intros [= <- <-]. split; [exact Hok |]. now apply orString_nonempty.
Qed.



Lemma playNarrative_start_sent (app app1 : AppState.t) (sent : string) :
  playNarrative_start app = (app1, Some sent) ->
  sent <> EmptyString /\ descriptionOf app = Some sent /\
  AppState.isNarrating app = false /\ app1 = setIsNarrating true app.
Proof.
  unfold playNarrative_start.
  destruct (descriptionOf app) as [[|c rest]|]; cbn [default from_option id JS.orString];
    try discriminate.
  destruct (AppState.isNarrating app); [discriminate |].
  intros [= <- <-]. now repeat split.
Qed.

Lemma playNarrative_start_goes (app : AppState.t) (c : ascii) (rest : string) :
  descriptionOf app = Some (String c rest) -> AppState.isNarrating app = false ->
  playNarrative_start app = (setIsNarrating true app, Some (String c rest)).
Proof.
  intros Hdescription Hnarrating. unfold playNarrative_start.
  now rewrite Hdescription, Hnarrating.
Qed.

Lemma analysed_description :
  descriptionOf (analysed [seg_1; seg_2]) = Some "Two passages" /\
  AppState.isNarrating (analysed [seg_1; seg_2]) = false.
Proof. split; vm_compute; reflexivity. Qed.

Lemma setIsNarrating_restores (app : AppState.t) :
  AppState.isNarrating app = false -> setIsNarrating false (setIsNarrating true app) = app.
Proof. destruct app. cbn. now intros ->. Qed.

(** [playNarrative] changes nothing but [isNarrating], and gives it back.
    The call goes through exactly when the record has a description that is
    not empty and no narration is under way; a second call while the first is
    pending does nothing; a failure of the request, of the decoding or of the
    playback puts the state back as it was, with no error shown and the
    analysis state untouched; and so does the end of a playback. *)
Theorem playNarrative_leaves_no_trace (app : AppState.t) :
  match playNarrative_start app with
  | (app1, None) =>
      app1 = app /\
      (AppState.isNarrating app = true \/ descriptionOf app = None
       \/ descriptionOf app = Some EmptyString)
  | (app1, Some sent) =>
      sent <> EmptyString /\ descriptionOf app = Some sent /\
      AppState.isNarrating app = false /\
      playNarrative_start app1 = (app1, None) /\
      (forall err played, playNarrative_narrated (Rejected err) played app1 = app) /\
      (forall audio, playNarrative_narrated (Fulfilled audio) false app1 = app) /\
      (forall audio,
          source_onended (playNarrative_narrated (Fulfilled audio) true app1) = app)
  end.
Proof.
  destruct (playNarrative_start app) as [app1 [sent|]] eqn:Hstart.
  - apply playNarrative_start_sent in Hstart as (Hsent & Hdescription & Hnarrating & ->).
    repeat split; try assumption.
    + unfold playNarrative_start.
      replace (descriptionOf (setIsNarrating true app)) with (descriptionOf app)
        by now destruct app.
      rewrite Hdescription. destruct sent; [now destruct Hsent |].
      cbn [default from_option id JS.orString]. now destruct app.
    + intros err played. now apply setIsNarrating_restores.
    + intros audio. now apply setIsNarrating_restores.
    + intros audio. now apply setIsNarrating_restores.
  - revert Hstart. unfold playNarrative_start.
    destruct (descriptionOf app) as [[|c rest]|]; cbn [default from_option id JS.orString].
    + intros [= <-]. split; [reflexivity | now right; right].
    + destruct (AppState.isNarrating app); [| discriminate].
      intros [= <-]. split; [reflexivity | now left].
    + intros [= <-]. split; [reflexivity | now right; left].
Qed.

(** A text reply of [/api/narrate] always carries a failing status and a
    text that is not empty. *)
Lemma narrate_replyText (toBase64 : list ascii -> string) (elevenLabsApiKey : option string)
  (bodyText : option string) (fetched : Settled (Server.Upstream (list ascii)))
  (status : nat) (text : string) :
  Server.narrate toBase64 elevenLabsApiKey bodyText fetched = Server.replyText status text ->
  Server.statusOk status = false /\ text <> EmptyString.
Proof.
  unfold Server.narrate.
  destruct (Server.present elevenLabsApiKey); cbn [negb]; [| now intros [= <- <-]].
  destruct (Server.present bodyText); cbn [negb]; [| now intros [= <- <-]].
  destruct fetched as [response|err]; [| now intros [= <- <-]].
  destruct (Server.statusOk (Server.status response)) eqn:Hok; cbn [negb].
  - destruct (Server.body response); [discriminate | now intros [= <- <-]].
  - destruct (Server.text response) as [message|err]; [| now intros [= <- <-]].
    intros [= <- <-]. split; [exact Hok |]. now apply orString_nonempty.
Qed.



(** ** The analysis, from the model's answer to the screen *)

Section AnalyzeFacts.
Variable StringToNumber : string -> JS.number.
Variable digitsOf : JS.number -> string.
Variable toFixed2 : JS.number -> string.
Variable JSON_parse : string -> option Server.any.

Local Abbreviation normalizeSegment := (Server.normalizeSegment StringToNumber digitsOf).
Local Abbreviation normalizeFrom := (Server.normalizeFrom StringToNumber digitsOf).
Local Abbreviation analyzeParsed := (Server.analyzeParsed StringToNumber digitsOf toFixed2).
Local Abbreviation analyze :=
  (Server.analyze StringToNumber digitsOf toFixed2 JSON_parse).

(** The three texts [/api/analyze] sends with an error status, and when. *)
Lemma analyze_send (aiConfigured : bool) (transcript : option string)
  (generated : Settled (option string)) (now : string) (status : nat) (text : string) :
  analyze aiConfigured transcript generated now = Server.send status text ->
  (aiConfigured = false /\ status = 500 /\ text = "Missing GEMINI_API_KEY on server.") \/
  (aiConfigured = true /\ Server.present transcript = false /\
   status = 400 /\ text = "Transcript required.") \/
  (aiConfigured = true /\ Server.present transcript = true /\
   status = 500 /\ text = "Gemini analysis error.").
Proof.
  unfold Server.analyze. destruct aiConfigured; cbn [negb].
  - destruct transcript as [[|c transcript]|].
    + intros [= <- <-]. right; left. now repeat split.
    + intros Hreply. right; right.
      assert (Hsent : status = 500 /\ text = "Gemini analysis error.").
      { destruct generated as [rawText|err]; [| now injection Hreply as <- <-].
        destruct (Server.toJson JSON_parse _); [| now injection Hreply as <- <-].
        destruct (Server.analyzeParsed _ _ _ _ _); [discriminate |].
        now injection Hreply as <- <-. }
      destruct Hsent as [-> ->]. now repeat split.
    + intros [= <- <-]. right; left. now repeat split.
  - intros [= <- <-]. left. now repeat split.
Qed.

(** A failed analysis, from the handler to the screen, given that the
    client reads the error reply the handler sent: the service throws the
    handler's text, the pipeline ends in the error state, and the error shown
    is [Segmentation failed: ] followed by one of the handler's three texts
    (whatever went wrong inside the handler's [try] reaching the user as the
    same text); the record, with the transcript it holds by then, the audio
    and everything else stay as they were. *)
Theorem analysis_failure_shown (aiConfigured : bool) (transcript : option string)
  (generated : Settled (option string)) (now : string)
  (response : geminiService.Response geminiService.AnalysisResult) (app : AppState.t) :
  AnalyzeErrorDelivered (analyze aiConfigured transcript generated now) response ->
  let text :=
    if negb aiConfigured then "Missing GEMINI_API_KEY on server."
    else if Server.present transcript then "Gemini analysis error."
         else "Transcript required." in
  let thrown := geminiService.suggestArchivalSegments (Fulfilled response) in
  let after := reader_onload thrown app in
  thrown = Rejected (mkError text) /\
  AppState.state after = ERROR /\
  AppState.error after = Some ("Segmentation failed: " ++ text) /\
  setState (AppState.state app) (setError (AppState.error app) after) = app.
Proof.
  destruct (analyze aiConfigured transcript generated now) as [status text|payload]
    eqn:Hreply; cbn [AnalyzeErrorDelivered]; [| intros []].
  intros [Hok Htext]. cbn zeta.
  assert (Hthrown : geminiService.suggestArchivalSegments (Fulfilled response)
                    = Rejected (mkError text)).
  { unfold geminiService.suggestArchivalSegments. rewrite Hok, Htext.
    apply analyze_send in Hreply
      as [(_ & -> & ->)|[(_ & _ & -> & ->)|(_ & _ & -> & ->)]]; reflexivity. }
  rewrite Hthrown.
  apply analyze_send in Hreply
    as [(-> & _ & ->)|[(-> & -> & _ & ->)|(-> & -> & _ & ->)]];
    cbn [negb]; destruct app; repeat split.
Qed.

Lemma normalizeFrom_None (now : string) (segs : list Server.any) :
  forall index,
    normalizeFrom now index segs = None <->
    existsb (fun segment => isNullish segment || negb (numbersConvert segment)) segs = true.
Proof.
  induction segs as [|segment segs IH]; intros index; cbn [Server.normalizeFrom existsb].
  - split; discriminate.
  - rewrite orb_true_iff, <- (IH (S index)), orb_true_iff, negb_true_iff.
    rewrite <- (normalizeSegment_None StringToNumber digitsOf now segment index).
    destruct (Server.normalizeSegment _ _ now segment index) as [n|].
    + destruct (normalizeFrom now (S index) segs).
      * split; [discriminate | intros [H|H]; discriminate].
      * split; [now right | reflexivity].
    + split; [now left | reflexivity].
Qed.

(** What makes the handler throw once the model's answer has been parsed: a
    parsed value that is [null]; among the elements of its [segments] array,
    a [null], or a segment whose start_time, end_time or confidence does not
    convert to a number; or, when the model gave no temporal index, a segment
    whose summary does not convert to a string.  A value does not convert
    when it is an object with a [toString] property of its own, or an array
    that holds one.  Nothing else makes the handler throw: a [segments] that
    is not an array counts as empty, and an element that is a number, a
    string or an array goes through, normalized to the defaults. *)
Theorem analyzeParsed_throws (now : string) (parsed : Server.any) :
  analyzeParsed now parsed = None <->
  isNullish parsed = true \/
  exists items,
    Server.get parsed "segments" = Some (Server.array items) /\
    (existsb isNullish items = true \/
     existsb (fun segment => negb (numbersConvert segment)) items = true \/
     (Server.truthy (fieldOf parsed "temporal_index") = false /\
      existsb (fun segment => negb (summaryConverts segment)) items = true)).
Proof.
  assert (Hfrom : forall items,
            normalizeFrom now 0 items = None <->
            existsb isNullish items = true \/
            existsb (fun segment => negb (numbersConvert segment)) items = true).
  { intros items. rewrite normalizeFrom_None, !existsb_exists. split.
    - intros (segment & Hin & Hsegment). apply orb_true_iff in Hsegment as [H|H]; eauto.
    - intros [(segment & Hin & H)|(segment & Hin & H)]; exists segment;
        (split; [exact Hin |]); rewrite H; [reflexivity | apply orb_true_r]. }
  assert (Hsummaries : forall items ns,
            normalizeFrom now 0 items = Some ns ->
            Server.buildTemporalIndex digitsOf toFixed2 ns = None <->
            existsb (fun segment => negb (summaryConverts segment)) items = true).
  { intros items ns Hns. rewrite buildTemporalIndex_None.
    rewrite (normalizeFrom_summaries _ _ _ _ _ _ Hns), !existsb_exists. split.
    - intros (summary & Hin & Hsummary). apply in_map_iff in Hin as (segment & <- & Hin).
      exists segment. split; [exact Hin |]. now rewrite convertible_or in Hsummary.
    - intros (segment & Hin & Hsegment).
      exists (Server.or_ (fieldOf segment "summary")
                (Server.str "Segment summary unavailable.")).
      split; [apply in_map_iff; now exists segment |].
      now rewrite convertible_or. }
  unfold Server.analyzeParsed, fieldOf.
  destruct (Server.get parsed "segments") as [parsedSegments|] eqn:Hget.
  - assert (Hparsed : isNullish parsed = false) by now destruct parsed.
    rewrite Hparsed.
    set (items := match parsedSegments with
                  | Server.array items => items
                  | _ => []
                  end).
    assert (Hitems : forall items', Some parsedSegments = Some (Server.array items') ->
                                    items' = items)
      by (intros items' [= ->]; reflexivity).
    assert (Hempty : (forall items', parsedSegments <> Server.array items') -> items = []).
    { intros Hnot. subst items. destruct parsedSegments as [| | | | |items'|];
        try reflexivity. now destruct (Hnot items'). }
    destruct (normalizeFrom now 0 items) as [ns|] eqn:Hns; cbn zeta.
    + specialize (Hsummaries items ns Hns).
      assert (Hnone : normalizeFrom now 0 items <> None) by congruence.
      rewrite Hfrom in Hnone.
      destruct (Server.truthy (default Server.undefined (Server.get parsed "temporal_index")))
        eqn:Hgiven.
      * split; [discriminate |].
        intros [|(items' & Hget' & [H|[H|[H _]]])]; try discriminate;
          apply Hitems in Hget' as ->; exfalso; auto.
      * destruct ns as [|n ns].
        -- split; [discriminate |].
           intros [|(items' & Hget' & [H|[H|[_ H]]])]; try discriminate;
             apply Hitems in Hget' as ->; exfalso; auto.
           assert (items = []) as Hnil by (destruct items; [reflexivity |];
             cbn [Server.normalizeFrom] in Hns;
             destruct (Server.normalizeSegment _ _ _ _ _); [| discriminate];
             destruct (normalizeFrom _ _ _); discriminate).
           rewrite Hnil in H. discriminate.
        -- destruct (Server.buildTemporalIndex digitsOf toFixed2 (n :: ns)) eqn:Hbuilt;
             cbn [option_map].
           ++ split; [discriminate |].
              intros [|(items' & Hget' & [H|[H|[_ H]]])]; try discriminate;
                apply Hitems in Hget' as ->; exfalso; auto.
              apply Hsummaries in H. discriminate.
           ++ split; [| reflexivity]. intros _. right.
              destruct parsedSegments as [| | | | |items'|];
                try (exfalso; rewrite Hempty in Hns by discriminate; discriminate).
              exists items'. split; [reflexivity |]. right; right.
              split; [reflexivity |]. now apply Hsummaries.
    + split; [| reflexivity]. intros _. right. apply Hfrom in Hns.
      destruct parsedSegments as [| | | | |items'|];
        try (exfalso; rewrite Hempty in Hns by discriminate; destruct Hns; discriminate).
      exists items'. split; [reflexivity |]. destruct Hns; auto.
  - split; [| reflexivity]. intros _. left. now destruct parsed.
Qed.

Lemma truthy_or (a b : Server.any) :
  Server.truthy b = true -> Server.truthy (Server.or_ a b) = true.
Proof. unfold Server.or_. now destruct (Server.truthy a) eqn:Ha. Qed.

Lemma or_undefined (a : Server.any) :
  Server.or_ a Server.undefined = Server.undefined \/
  Server.truthy (Server.or_ a Server.undefined) = true.
Proof. unfold Server.or_. destruct (Server.truthy a) eqn:Ha; [now right | now left]. Qed.

(** Whatever the model returned, the handler answers with one normalized
    segment per element, and in each of them the id, the type, the summary
    and the segment metadata are truthy (no empty string, no zero, no [null]),
    while alternatives and notes are truthy or [undefined], so that the JSON
    sent either holds them with a value or does not hold them. *)
Theorem normalized_never_empty (now : string) (segs : list Server.any) (index : nat)
  (ns : list Server.Normalized.t) :
  normalizeFrom now index segs = Some ns ->
  length ns = length segs /\
  Forall (fun n =>
            Server.truthy (Server.Normalized.id n) = true /\
            Server.truthy (Server.Normalized.type n) = true /\
            Server.truthy (Server.Normalized.summary n) = true /\
            Server.truthy (Server.Normalized.segment_metadata n) = true /\
            (Server.Normalized.alternatives n = Server.undefined \/
             Server.truthy (Server.Normalized.alternatives n) = true) /\
            (Server.Normalized.notes n = Server.undefined \/
             Server.truthy (Server.Normalized.notes n) = true)) ns.
Proof.
  revert index ns. induction segs as [|segment segs IH]; intros index ns;
    cbn [Server.normalizeFrom].
  - intros [= <-]. split; [reflexivity | constructor].
  - destruct (normalizeSegment now segment index) as [n|] eqn:Hn; [| discriminate].
    destruct (normalizeFrom now (S index) segs) as [ns'|] eqn:Hns; [| discriminate].
    intros [= <-]. destruct (IH _ _ Hns) as [Hlen Hall].
    split; [simpl; now rewrite Hlen |]. constructor; [| exact Hall].
    destruct (normalizeSegment_fields _ _ _ _ _ _ Hn)
      as (Hid & Htype & Hsummary & Halternatives & Hnotes & Hmetadata & _).
    rewrite Hid, Htype, Hsummary, Halternatives, Hnotes, Hmetadata.
    repeat split; try (now apply truthy_or); apply or_undefined.
Qed.

Lemma natToString_inj (n m : nat) : JS.natToString n = JS.natToString m -> n = m.
Proof.
  assert (Hnonnil : forall k, Nat.to_uint k <> Decimal.Nil).
  { intros k. pose proof (DecimalNat.Unsigned.to_of (Nat.to_uint k)) as Hnorm.
    rewrite DecimalNat.Unsigned.of_to in Hnorm. rewrite Hnorm.
    apply DecimalFacts.unorm_nonnil. }
  unfold JS.natToString. intros Heq.
  apply DecimalNat.Unsigned.to_uint_inj.
  apply (f_equal NilZero.uint_of_string) in Heq.
  rewrite !NilZero.usu in Heq by apply Hnonnil. now injection Heq.
Qed.

Lemma normalizeFrom_synthesized (now : string) (segs : list Server.any) :
  forall index ns,
    normalizeFrom now index segs = Some ns ->
    Forall (fun segment => Server.truthy (rawId segment) = false) segs ->
    map Server.Normalized.id ns
    = map (fun i => Server.str ("seg_" ++ JS.natToString (i + 1))) (seq index (length segs)).
Proof.
  induction segs as [|segment segs IH]; intros index ns; cbn [Server.normalizeFrom].
  - now intros [= <-] _.
  - destruct (normalizeSegment now segment index) as [n|] eqn:Hn; [| discriminate].
    destruct (normalizeFrom now (S index) segs) as [ns'|] eqn:Hns; [| discriminate].
    intros [= <-] Hfalsy. inversion Hfalsy as [|? ? Hsegment Hrest]; subst.
    cbn [map length seq]. f_equal; [| now apply IH].
    destruct (normalizeSegment_fields _ _ _ _ _ _ Hn) as (Hid & _).
    rewrite Hid. unfold Server.or_. now rewrite Hsegment.
Qed.

(** When the model gives no segment an id (none, or an empty one), the ids
    the handler makes up are seg_1, seg_2, ... in the order of the answer, and
    no two segments share one: an id then names one segment. *)
Theorem synthesized_ids_distinct (now : string) (segs : list Server.any)
  (ns : list Server.Normalized.t) :
  normalizeFrom now 0 segs = Some ns ->
  Forall (fun segment => Server.truthy (rawId segment) = false) segs ->
  map Server.Normalized.id ns
  = map (fun i => Server.str ("seg_" ++ JS.natToString (i + 1))) (seq 0 (length segs)) /\
  List.NoDup (map Server.Normalized.id ns).
Proof.
  intros Hns Hfalsy. pose proof (normalizeFrom_synthesized _ _ _ _ Hns Hfalsy) as Hids.
  split; [exact Hids |]. rewrite Hids.
  apply Finite.Injective_map_NoDup; [| apply List.seq_NoDup].
  intros i j [= Heq]. apply natToString_inj in Heq. lia.
Qed.

End AnalyzeFacts.

Lemma analysis_failure_shown_witness :
  geminiService.suggestArchivalSegments
    (Fulfilled (geminiService.mkResponse false "Transcript required."
                  (Rejected (mkError "not JSON"))))
  = Rejected (mkError "Transcript required.") /\
  AppState.state
    (reader_onload
       (geminiService.suggestArchivalSegments
          (Fulfilled (geminiService.mkResponse false "Transcript required."
                        (Rejected (mkError "not JSON")))))
       initialApp) = ERROR /\
  AppState.error
    (reader_onload
       (geminiService.suggestArchivalSegments
          (Fulfilled (geminiService.mkResponse false "Transcript required."
                        (Rejected (mkError "not JSON")))))
       initialApp) = Some "Segmentation failed: Transcript required." /\
  setState IDLE
    (setError None
       (reader_onload
          (geminiService.suggestArchivalSegments
             (Fulfilled (geminiService.mkResponse false "Transcript required."
                           (Rejected (mkError "not JSON")))))
          initialApp)) = initialApp.
Proof.
  exact (analysis_failure_shown noNumber noDigits noDigits (fun _ => None) true
           (Some EmptyString) (Fulfilled None) now0
           (geminiService.mkResponse false "Transcript required."
              (Rejected (mkError "not JSON")))
           initialApp (conj eq_refl eq_refl)).
Defined.

Lemma normalized_never_empty_witness :
  exists ns,
    Server.normalizeFrom noNumber noDigits now0 0
      [Server.object [("id", Server.str EmptyString)]; Server.num 7%float] = Some ns /\
    length ns = 2 /\
    Forall (fun n => Server.truthy (Server.Normalized.id n) = true) ns.
Proof.
  eexists. split; [reflexivity |].
  destruct (normalized_never_empty noNumber noDigits now0
              [Server.object [("id", Server.str EmptyString)]; Server.num 7%float] 0 _
              eq_refl) as [Hlen Hall].
  split; [exact Hlen |].
  apply (List.Forall_impl _ (fun n H => proj1 H) Hall).
Defined.

Lemma synthesized_ids_distinct_witness :
  exists ns,
    Server.normalizeFrom noNumber noDigits now0 0
      [Server.object [("id", Server.str EmptyString)]; Server.num 7%float] = Some ns /\
    map Server.Normalized.id ns = [Server.str "seg_1"; Server.str "seg_2"] /\
    List.NoDup (map Server.Normalized.id ns).
Proof.
  eexists. split; [reflexivity |].
  apply (synthesized_ids_distinct noNumber noDigits now0
           [Server.object [("id", Server.str EmptyString)]; Server.num 7%float] _ eq_refl).
  repeat constructor.
Defined.

(** A recording whose transcript is empty, when its analysis request
    reaches the handler: the client sends the empty transcript and the
    handler refuses it before it asks the model anything.  Given that the
    client reads the reply the handler sent, the run of [processBlob] ends in
    the error state with the handler's text on the screen and no segment in
    the record beyond those of the initial record. *)
Theorem empty_transcript_refused (StringToNumber : string -> JS.number)
  (digitsOf toFixed2 : JS.number -> string) (JSON_parse : string -> option Server.any)
  (aiConfigured : bool) (generated : Settled (option string)) (now : string)
  (response : geminiService.Response geminiService.AnalysisResult)
  (checksum url : string) (item0 : ArchivalAudioItem.t) (app : AppState.t) :
  let transcript := EmptyString in
  let reply :=
    Server.analyze StringToNumber digitsOf toFixed2 JSON_parse aiConfigured
      (Some transcript) generated now in
  AnalyzeErrorDelivered reply response ->
  let after :=
    processBlob (Fulfilled checksum) url item0 (Fulfilled transcript)
      (geminiService.suggestArchivalSegments (Fulfilled response)) app in
  AppState.state after = ERROR /\
  AppState.error after
  = Some ("Segmentation failed: "
          ++ if aiConfigured then "Transcript required."
             else "Missing GEMINI_API_KEY on server.") /\
  segmentsOf after = Structural.segments (ArchivalAudioItem.structural item0).
Proof.
  cbn zeta. unfold Server.analyze, geminiService.suggestArchivalSegments.
  destruct aiConfigured; cbn [negb AnalyzeErrorDelivered]; intros [-> ->];
    destruct app; repeat split.
Qed.

Lemma empty_transcript_refused_witness :
  AppState.state
    (processBlob (Fulfilled "abc123") "blob:1" item0 (Fulfilled EmptyString)
       (geminiService.suggestArchivalSegments
          (Fulfilled (geminiService.mkResponse false "Transcript required."
                        (Rejected (mkError "not JSON")))))
       initialApp) = ERROR.
Proof.
  exact (proj1 (empty_transcript_refused noNumber noDigits noDigits (fun _ => None)
                  true (Fulfilled None) now0
                  (geminiService.mkResponse false "Transcript required."
                     (Rejected (mkError "not JSON")))
                  "abc123" "blob:1" item0 initialApp (conj eq_refl eq_refl))).
Defined.

(** ** One run of the ingest pipeline *)

(** One run of [processBlob], from any state, in which every awaited step
    settles.  It ends in COMPLETED or in ERROR, never in a stage in between;
    it completes exactly when the checksum, the transcription and the
    analysis all went through; an error text is on the screen exactly when it
    did not complete.  Past the
    checksum the record is the new one and holds the transcript once there is
    one; after a failed analysis its description is still the placeholder;
    after a failed checksum the record and the audio of the session before
    are still there.  Playback position, selection, open tab, the segment
    being edited and the narration flag are never touched: a selection made
    in the session before stays. *)
Theorem processBlob_outcome (checksum : Settled string) (url : string)
  (item0 : ArchivalAudioItem.t) (transcribed : Settled string)
  (analysed : Settled geminiService.AnalysisResult) (app : AppState.t) :
  let after := processBlob checksum url item0 transcribed analysed app in
  (AppState.state after = COMPLETED \/ AppState.state after = ERROR) /\
  (AppState.state after = COMPLETED <->
   exists c t r, checksum = Fulfilled c /\ transcribed = Fulfilled t /\ analysed = Fulfilled r) /\
  (AppState.error after = None <-> AppState.state after = COMPLETED) /\
  (forall err, checksum = Rejected err ->
     AppState.error after = Some "Critical ingest error." /\
     AppState.item after = AppState.item app /\
     AppState.audioUrl after = AppState.audioUrl app) /\
  (forall c, checksum = Fulfilled c ->
     AppState.audioUrl after = Some url /\
     option_map ArchivalAudioItem.technical (AppState.item after)
     = Some (ArchivalAudioItem.technical item0) /\
     option_map ArchivalAudioItem.administrative (AppState.item after)
     = Some (ArchivalAudioItem.administrative item0)) /\
  (forall c err, checksum = Fulfilled c -> transcribed = Rejected err ->
     AppState.error after = Some "Critical ingest error." /\
     AppState.item after = Some item0) /\
  (forall c t, checksum = Fulfilled c -> transcribed = Fulfilled t ->
     descriptiveOf after "transcript" = Some t) /\
  (forall c t err,
     checksum = Fulfilled c -> transcribed = Fulfilled t -> analysed = Rejected err ->
     AppState.error after = Some ("Segmentation failed: " ++ message err) /\
     descriptiveOf after "description" = Some "Phasing semantic audit..." /\
     segmentsOf after = Structural.segments (ArchivalAudioItem.structural item0)) /\
  (forall c t r,
     checksum = Fulfilled c -> transcribed = Fulfilled t -> analysed = Fulfilled r ->
     descriptiveOf after "description" = Some (geminiService.description r) /\
     descriptiveOf after "temporal_index" = Some (geminiService.temporal_index r) /\
     segmentsOf after = geminiService.segments r) /\
  AppState.currentTime after = AppState.currentTime app /\
  AppState.isPlaying after = AppState.isPlaying app /\
  AppState.selectedSegmentId after = AppState.selectedSegmentId app /\
  AppState.activeTab after = AppState.activeTab app /\
  AppState.editingSegmentId after = AppState.editingSegmentId app /\
  AppState.isNarrating after = AppState.isNarrating app.
Proof.
  cbn zeta. unfold descriptiveOf, segmentsOf.
  destruct app as [st it err0 url0 ct pl sel tab ed nar].
  destruct checksum as [c|e1]; [destruct transcribed as [t|e2];
                                [destruct analysed as [r|e3] |] |];
    cbn -[String.append];
    repeat match goal with
           | |- _ /\ _ => split
           | |- _ <-> _ => split
           | |- forall _, _ => intro
           | H : Fulfilled _ = Rejected _ |- _ => discriminate H
           | H : Rejected _ = Fulfilled _ |- _ => discriminate H
           | H : Fulfilled _ = Fulfilled _ |- _ => injection H as <-
           | H : Rejected _ = Rejected _ |- _ => injection H as <-
           | H : exists _, _ |- _ => destruct H
           | H : _ /\ _ |- _ => destruct H
           end;
    try discriminate; try reflexivity; eauto 10;
    repeat (rewrite lookup_insert_ne by discriminate); apply lookup_insert_eq.
Qed.

(** ** The selection and the reset *)

Lemma find_map {A B : Type} (p : B -> bool) (f : A -> B) (l : list A) :
  find p (map f l) = option_map f (find (fun x => p (f x)) l).
Proof.
  induction l as [|x l IH]; [reflexivity |]. simpl.
  now destruct (p (f x)).
Qed.

Lemma find_ext_In {A : Type} (p q : A -> bool) (l : list A) :
  (forall x, In x l -> p x = q x) -> find p l = find q l.
Proof.
  induction l as [|x l IH]; intros Hpq; [reflexivity |]. simpl.
  rewrite (Hpq x) by now left. destruct (q x); [reflexivity |].
  apply IH. intros y Hy. apply Hpq. now right.
Qed.

Lemma find_None_In {A : Type} (p : A -> bool) (l : list A) :
  find p l = None <-> forall x, In x l -> p x = false.
Proof.
  split; [apply find_none |].
  induction l as [|x l IH]; intros Hall; [reflexivity |]. simpl.
  rewrite (Hall x) by now left. apply IH. intros y Hy. apply Hall. now right.
Qed.

(** A rearrangement does not change what [find] finds when at most one
    element passes the test. *)
Lemma find_Permutation_unique {A : Type} (p : A -> bool) (l l' : list A) :
  Permutation l l' ->
  (forall x y, In x l -> In y l -> p x = true -> p y = true -> x = y) ->
  find p l' = find p l.
Proof.
  intros Hperm Hunique. destruct (find p l) as [x|] eqn:Hfind.
  - apply find_some in Hfind as [Hx Hpx].
    destruct (find p l') as [y|] eqn:Hfind'.
    + apply find_some in Hfind' as [Hy Hpy]. f_equal.
      apply Hunique; try assumption. now apply (Permutation_in _ (Permutation_sym Hperm)).
    + exfalso. rewrite find_None_In in Hfind'.
      rewrite (Hfind' x) in Hpx; [discriminate |]. now apply (Permutation_in _ Hperm).
  - rewrite find_None_In in *. intros x Hx. apply Hfind.
    now apply (Permutation_in _ (Permutation_sym Hperm)).
Qed.

Lemma NoDup_map_unique {A B : Type} (f : A -> B) (l : list A) (x y : A) :
  List.NoDup (map f l) -> In x l -> In y l -> f x = f y -> x = y.
Proof.
  induction l as [|z l IH]; intros Hnodup Hx Hy Heq; [destruct Hx |].
  inversion Hnodup as [|? ? Hnotin Hrest]; subst.
  destruct Hx as [->|Hx], Hy as [->|Hy].
  - reflexivity.
  - exfalso. apply Hnotin. rewrite Heq. now apply in_map.
  - exfalso. apply Hnotin. rewrite <- Heq. now apply in_map.
  - now apply IH.
Qed.

Lemma updateOne_id (segId : string) (updates : SegmentPatch.t) (s : StructuralSegment.t) :
  SegmentPatch.id updates = None ->
  StructuralSegment.id (updateOne segId updates s) = StructuralSegment.id s.
Proof.
  intros Hid. unfold updateOne. destruct (String.eqb (StructuralSegment.id s) segId);
    [| reflexivity].
  cbn. now rewrite Hid.
Qed.

(** The selection follows an edit.  When no two segments share an id and
    the patch does not rename, the segment shown as selected after
    [updateSegment] is the edited version of the segment that was selected
    before, wherever the re-sort has moved it; and nothing is selected after
    exactly when nothing was before. *)
Theorem selection_follows_edit (digitsOf : JS.number -> string) (segId : string)
  (updates : SegmentPatch.t) (app : AppState.t) (selected : string) :
  AppState.selectedSegmentId app = Some selected ->
  SegmentPatch.id updates = None ->
  List.NoDup (map StructuralSegment.id (segmentsOf app)) ->
  selectedSegment digitsOf (updateSegment segId updates app)
  = option_map (fun s => displaySegment digitsOf (updateOne segId updates s))
      (find (fun s => String.eqb (StructuralSegment.id s) selected) (segmentsOf app)).
Proof.
  intros Hselected Hid Hnodup.
  assert (Hselected' : AppState.selectedSegmentId (updateSegment segId updates app)
                       = Some selected) by now destruct app.
  unfold selectedSegment. rewrite Hselected'.
  assert (Hsegments : segments digitsOf (AppState.item (updateSegment segId updates app))
                      = map (displaySegment digitsOf)
                          (segmentsOf (updateSegment segId updates app))).
  { unfold segments, segmentsOf. now destruct (AppState.item _). }
  rewrite Hsegments, segmentsOf_updateSegment, find_map.
  cbn [displaySegment AudioSegment.id]. unfold updateSegments.
  rewrite (find_Permutation_unique _ _ _
             (Permutation_sym (sort_Permutation byStartTime _))).
  - rewrite find_map.
    rewrite (find_ext_In _ (fun s => String.eqb (StructuralSegment.id s) selected)).
    + now destruct (find _ (segmentsOf app)).
    + intros s _. now rewrite updateOne_id.
  - intros x y Hx Hy Hpx Hpy.
    apply String.eqb_eq in Hpx, Hpy.
    apply (NoDup_map_unique StructuralSegment.id
             (map (updateOne segId updates) (segmentsOf app))); try assumption;
      [| congruence].
    rewrite map_map.
    rewrite (map_ext _ StructuralSegment.id); [exact Hnodup |].
    intros s. now apply updateOne_id.
Qed.

Lemma selection_follows_edit_witness :
  selectedSegment noDigits
    (updateSegment "seg_1" patch_end_58
       (setSelectedSegmentId (Some "seg_1") (analysed [seg_1; seg_2])))
  = Some (displaySegment noDigits (updateOne "seg_1" patch_end_58 seg_1)).
Proof.
  refine (selection_follows_edit noDigits "seg_1" patch_end_58
            (setSelectedSegmentId (Some "seg_1") (analysed [seg_1; seg_2])) "seg_1"
            eq_refl eq_refl _).
  repeat constructor; simpl; intuition discriminate.
Defined.

(** A reset is a return to the state on mount, from any state, but for the
    narration flag, which it leaves as it is: a narration under way still
    blocks the next one.  After it nothing can be exported and nothing is
    selected; a second reset changes nothing. *)
Theorem resetApp_returns_to_mount (digitsOf : JS.number -> string) (app : AppState.t) :
  resetApp app = setIsNarrating (AppState.isNarrating app) initialApp /\
  resetApp (resetApp app) = resetApp app /\
  exportCSV (AppState.item (resetApp app)) = None /\
  selectedSegment digitsOf (resetApp app) = None /\
  segments digitsOf (AppState.item (resetApp app)) = [] /\
  playNarrative_start (resetApp app) = (resetApp app, None).
Proof. destruct app. repeat split. Qed.

(** ** The texts of the analysis answer *)

Section PayloadFacts.
Variable StringToNumber : string -> JS.number.
Variable digitsOf : JS.number -> string.
Variable toFixed2 : JS.number -> string.

Local Abbreviation analyzeParsed := (Server.analyzeParsed StringToNumber digitsOf toFixed2).
Local Abbreviation buildTemporalIndex := (Server.buildTemporalIndex digitsOf toFixed2).

Lemma append_nonempty (a b : string) : b <> EmptyString -> a ++ b <> EmptyString.
Proof.
  destruct a as [|c a]; [now rewrite append_Empty |]. rewrite append_String. discriminate.
Qed.

Lemma buildTemporalIndex_nonempty (n : Server.Normalized.t) (ns : list Server.Normalized.t)
  (index : string) :
  buildTemporalIndex (n :: ns) = Some index -> index <> EmptyString.
Proof.
  unfold Server.buildTemporalIndex. cbn [map]. rewrite collect_cons.
  destruct (Server.ToString digitsOf (Server.Normalized.summary n)) as [summary|];
    cbn [option_map]; [| discriminate].
  destruct (Server.collect _) as [lines|]; cbn [option_map]; [| discriminate].
  intros [= <-]. unfold JS.join. cbn [String.concat].
  destruct lines; repeat (apply append_nonempty; try discriminate).
Qed.

(** The two texts of the answer.  The description is the model's when it
    gave one, and the fixed text that stands in for it otherwise, so it is
    never empty.  The temporal index is the model's when it gave one;
    otherwise it is built from the segments, and it is empty exactly when
    there is no segment to build it from. *)
Theorem payload_texts (now : string) (parsed : Server.any) (payload : Server.AnalyzePayload) :
  analyzeParsed now parsed = Some payload ->
  let given key := default Server.undefined (Server.get parsed key) in
  Server.truthy (Server.description payload) = true /\
  (Server.truthy (given "description") = true ->
   Server.description payload = given "description") /\
  (Server.truthy (given "description") = false ->
   Server.description payload = Server.str "Semantic overview unavailable.") /\
  (Server.truthy (given "temporal_index") = true ->
   Server.temporal_index payload = given "temporal_index") /\
  (Server.truthy (given "temporal_index") = false ->
   match Server.segments payload with
   | [] => Server.temporal_index payload = Server.str EmptyString
   | normalized =>
       exists index,
         buildTemporalIndex normalized = Some index /\
         Server.temporal_index payload = Server.str index /\
         Server.truthy (Server.temporal_index payload) = true
   end).
Proof.
  unfold Server.analyzeParsed.
  destruct (Server.get parsed "segments") as [parsedSegments|]; [| discriminate].
  destruct (Server.normalizeFrom _ _ now 0 _) as [normalized|]; [| discriminate].
  cbn zeta.
  destruct (Server.truthy (default Server.undefined (Server.get parsed "temporal_index")))
    eqn:Hgiven.
  - intros [= <-]. cbn [Server.description Server.temporal_index Server.segments].
    split; [now apply truthy_or |]. unfold Server.or_.
    split; [now intros -> |]. split; [now intros -> |].
    split; [reflexivity | discriminate].
  - destruct normalized as [|n ns].
    + intros [= <-]. cbn [Server.description Server.temporal_index Server.segments].
      split; [now apply truthy_or |]. unfold Server.or_.
      split; [now intros -> |]. split; [now intros -> |].
      split; [discriminate | reflexivity].
    + destruct (buildTemporalIndex (n :: ns)) as [index|] eqn:Hindex; cbn [option_map];
        [| discriminate].
      intros [= <-]. cbn [Server.description Server.temporal_index Server.segments].
      split; [now apply truthy_or |]. unfold Server.or_.
      split; [now intros -> |]. split; [now intros -> |].
      split; [discriminate |]. intros _. exists index.
      split; [exact Hindex |]. split; [reflexivity |].
      apply buildTemporalIndex_nonempty in Hindex. cbn [Server.truthy]. now destruct index.
Qed.

End PayloadFacts.

Lemma payload_texts_witness :
  Server.description payload0 = Server.str "Two passages" /\
  Server.temporal_index payload0 = Server.str "0.00-60.00: A passage".
Proof.
  destruct (payload_texts noNumber noDigits noDigits now0 parsed0 payload0)
    as (_ & Hdescription & _ & Hindex & _).
  - vm_compute. reflexivity.
  - split; [exact (Hdescription eq_refl) | exact (Hindex eq_refl)].
Defined.
